(** * The Go back end of the Thrift compiler (t_go_generator.cc)

    A shallow embedding of the identifier mapper, the enum generator, the
    struct/codec generator and the service generator of
    [compiler/cpp/src/generate/t_go_generator.cc], with the properties of the
    design document stated and proved over it.

    Conventions.
    - [std::string] is [string]; a [char] is an [ascii]; the character
      classification functions are those of the "C" locale.
    - An [int] / [int32_t] is a [Z] with its 32-bit wrap-around written out
      ([wrap32]).
    - An out-of-range [operator[]] has no defined result: the functions that
      can reach one return [option], [None] standing for it.
    - A C++ [throw] aborts the generation: the functions that can reach one
      return [option] as well.
    - The generated Go text is kept as a small syntax tree per generated
      function, with a renderer that gives the emitted text and an evaluator
      that gives its meaning in Go. *)

From Stdlib Require Import ZArith String Ascii List Bool Lia DecimalString.
From Stdlib Require Import Sorting.Sorted Sorting.Permutation.
From Stdlib Require DecimalZ DecimalPos.
Import ListNotations.

Local Open Scope string_scope.
Local Open Scope bool_scope.

(* ================================================================== *)
(** * Characters and strings, as <cctype> and std::string have them    *)
(* ================================================================== *)

Module CType.

Definition code (c : ascii) : N := N_of_ascii c.

(** [isupper], [islower], [isalpha], [toupper], [tolower] in the "C"
    locale: only the 26 unaccented letters are letters. *)
Definition isupper (c : ascii) : bool := (65 <=? code c)%N && (code c <=? 90)%N.
Definition islower (c : ascii) : bool := (97 <=? code c)%N && (code c <=? 122)%N.
Definition isalpha (c : ascii) : bool := isupper c || islower c.
Definition toupper (c : ascii) : ascii :=
  if islower c then ascii_of_N (code c - 32) else c.
Definition tolower (c : ascii) : ascii :=
  if isupper c then ascii_of_N (code c + 32) else c.

End CType.
Import CType.

Module Str.

(** [s.size()]. *)
Definition size (s : string) : nat := String.length s.

(** [s.rfind(c)]: the last position of [c]; [None] is [string::npos]. *)
Fixpoint rfind (c : ascii) (s : string) : option nat :=
  match s with
  | EmptyString => None
  | String a r =>
      match rfind c r with
      | Some i => Some (S i)
      | None => if Ascii.eqb a c then Some 0 else None
      end
  end.

(** [s.substr(pos)] and [s.substr(pos, n)], for [pos <= s.size()]. *)
Definition substr_from (pos : nat) (s : string) : string :=
  substring pos (size s - pos) s.
Definition substr (pos n : nat) (s : string) : string := substring pos n s.

(** [s[i]] for [i < s.size()]; [None] past the end. *)
Definition at_ (i : nat) (s : string) : option ascii := String.get i s.

(** [s.replace(i, 2, 1, c)]: the two characters at [i] give way to one [c]. *)
Definition replace_2_1 (i : nat) (c : ascii) (s : string) : string :=
  substr 0 i s ++ String c (substr_from (i + 2) s).

(** [std::transform(b, e, b, ::tolower)]. *)
Fixpoint transform_tolower (s : string) : string :=
  match s with
  | EmptyString => EmptyString
  | String a r => String (tolower a) (transform_tolower r)
  end.

(** Does [c] occur in [s]. *)
Fixpoint contains (c : ascii) (s : string) : bool :=
  match s with
  | EmptyString => false
  | String a r => Ascii.eqb a c || contains c r
  end.

End Str.

(* ================================================================== *)
(** * Identifier mapper: publicize, privatize, variable_name_to_go_name *)
(* ================================================================== *)

(** The loop shared by [publicize] and [privatize]:
<<
    for (string::size_type i = 1; i < value2.size() - 1; ++i) {
        if (value2[i] == '_' && trigger(value2[i + 1])) {
            value2.replace(i, 2, 1, toupper(value2[i + 1]));
        }
    }
>>
    [value2.size() - 1] is computed in [size_t]: on an empty string it wraps
    to the largest value, and the loop then reads past the end ([None]).
    Every turn moves [i] one step towards the end of the string, so [fuel]
    above the size of the string is never used up. *)
Definition below_size_minus_1 (i : nat) (value2 : string) : bool :=
  match Str.size value2 with
  | O => true
  | S n => Nat.ltb i n
  end.

Fixpoint underscore_loop (trigger : ascii -> bool) (fuel i : nat)
    (value2 : string) : option string :=
  match fuel with
  | O => None
  | S fuel' =>
      if below_size_minus_1 i value2 then
        match Str.at_ i value2, Str.at_ (i + 1) value2 with
        | Some a, Some b =>
            if Ascii.eqb a "_"%char && trigger b
            then underscore_loop trigger fuel' (i + 1)
                   (Str.replace_2_1 i (toupper b) value2)
            else underscore_loop trigger fuel' (i + 1) value2
        | _, _ => None
        end
      else Some value2
  end.

(** [if (!test(value2[0])) value2[0] = conv(value2[0]);] On an empty string
    [value2[0]] is the terminating NUL, which both conversions leave alone. *)
Definition set_first (test : ascii -> bool) (conv : ascii -> ascii)
    (value2 : string) : string :=
  match value2 with
  | EmptyString => EmptyString
  | String c r => if negb (test c) then String (conv c) r else value2
  end.

(** [publicize]:
<<
    if (value.size() <= 0) return value;
    std::string value2(value), prefix;
    string::size_type dot_pos = value.rfind('.');
    if (dot_pos != string::npos) {
      prefix = value.substr(0, dot_pos + 1) + prefix;
      value2 = value.substr(dot_pos + 1);
    }
    if (!isupper(value2[0])) value2[0] = toupper(value2[0]);
    ... the loop, with islower ...
    return prefix + value2;
>>  *)
Definition publicize (value : string) : option string :=
  if Nat.leb (Str.size value) 0 then Some value
  else
    let '(prefix, value2) :=
      match Str.rfind "."%char value with
      | Some dot_pos =>
          (Str.substr 0 (dot_pos + 1) value ++ "", Str.substr_from (dot_pos + 1) value)
      | None => ("", value)
      end in
    let value2 := set_first isupper toupper value2 in
    match underscore_loop islower (S (Str.size value2)) 1 value2 with
    | Some value2 => Some (prefix ++ value2)
    | None => None
    end.

(** [privatize]:
<<
    if (value.size() <= 0) return value;
    std::string value2(value);
    if (!islower(value2[0])) value2[0] = tolower(value2[0]);
    ... the loop, with isalpha ...
    return value2;
>>  *)
Definition privatize (value : string) : option string :=
  if Nat.leb (Str.size value) 0 then Some value
  else
    let value2 := set_first islower tolower value in
    underscore_loop isalpha (S (Str.size value2)) 1 value2.

(** The [switch (value[0])] of [variable_name_to_go_name]: the words its case
    compares [value2] with, [None] for the [default:] label. A case reads
<<
    case 'c': case 'C':
        if (value2 != "case" && value2 != "chan" && value2 != "const"
            && value2 != "continue") { return value; }
        break;
>>
    and behind the switch stands [return value2 + "_a1";]. *)
Definition is_case (lower upper c : ascii) : bool :=
  Ascii.eqb c lower || Ascii.eqb c upper.

Definition switch_first_char (c : ascii) : option (list string) :=
  if is_case "b" "B" c then Some ["break"]
  else if is_case "c" "C" c then Some ["case"; "chan"; "const"; "continue"]
  else if is_case "d" "D" c then Some ["default"; "defer"]
  else if is_case "e" "E" c then Some ["else"; "error"]
  else if is_case "f" "F" c then Some ["fallthrough"; "for"; "func"]
  else if is_case "g" "G" c then Some ["go"; "goto"]
  else if is_case "i" "I" c then Some ["if"; "import"; "interface"]
  else if is_case "m" "M" c then Some ["map"]
  else if is_case "p" "P" c then Some ["package"]
  else if is_case "r" "R" c then Some ["range"; "return"]
  else if is_case "s" "S" c then Some ["select"; "struct"; "switch"]
  else if is_case "t" "T" c then Some ["type"]
  else if is_case "v" "V" c then Some ["var"]
  else None.

Definition variable_name_to_go_name (value : string) : string :=
  match value with
  | EmptyString => value
  | String value_0 _ =>
      let value2 := Str.transform_tolower value in
      match switch_first_char value_0 with
      | Some words =>
          if forallb (fun w => negb (String.eqb value2 w)) words
          then value
          else value2 ++ "_a1"
      | None => value
      end
  end.

(** The words [variable_name_to_go_name] compares with, all cases together:
    the 25 keywords of Go and the predeclared [error]. *)
Definition reserved_words : list string :=
  ["break"; "case"; "chan"; "const"; "continue"; "default"; "defer"; "else";
   "error"; "fallthrough"; "for"; "func"; "go"; "goto"; "if"; "import";
   "interface"; "map"; "package"; "range"; "return"; "select"; "struct";
   "switch"; "type"; "var"].

Definition is_reserved (s : string) : bool :=
  existsb (String.eqb s) reserved_words.

(* ================================================================== *)
(** * Integers and output text                                          *)
(* ================================================================== *)

(** An [int] after an arithmetic step: the 32-bit two's-complement value. *)
Definition wrap32 (z : Z) : Z := ((z + 2147483648) mod 4294967296 - 2147483648)%Z.

Definition INT_MAX : Z := 2147483647%Z.

(** [out << n] for an integer [n]. *)
Definition show_int (z : Z) : string := NilZero.string_of_int (Z.to_int z).

(** [endl] and the double quote. *)
Definition endl : string := String (ascii_of_nat 10) EmptyString.
Definition dq : string := String (ascii_of_nat 34) EmptyString.

(** Go's [math.MinInt32 - 1], the value the generated code uses for an enum
    field that is not set. *)
Definition MinInt32 : Z := (-2147483648)%Z.
Definition unset_sentinel : Z := (MinInt32 - 1)%Z.

(** The string a Go interpreted string literal with the given body stands
    for: the single-character escapes are decoded, every other character
    stands for itself (octal, hexadecimal and Unicode escapes are not
    modelled). *)
Definition go_escape (e : ascii) : ascii :=
  if Ascii.eqb e "n" then ascii_of_nat 10
  else if Ascii.eqb e "r" then ascii_of_nat 13
  else if Ascii.eqb e "t" then ascii_of_nat 9
  else if Ascii.eqb e "a" then ascii_of_nat 7
  else if Ascii.eqb e "b" then ascii_of_nat 8
  else if Ascii.eqb e "f" then ascii_of_nat 12
  else if Ascii.eqb e "v" then ascii_of_nat 11
  else e.

Fixpoint go_string_value (body : string) : string :=
  match body with
  | String a (String e rest as tl) =>
      if Ascii.eqb a "\" then String (go_escape e) (go_string_value rest)
      else String a (go_string_value tl)
  | _ => body
  end.

(* ================================================================== *)
(** * The parse tree handed to the generator                            *)
(* ================================================================== *)

(** [t_enum_value]: [get_name()], [has_value()], [get_value()] (an [int]). *)
Record t_enum_value := {
  ev_get_name : string;
  ev_has_value : bool;
  ev_get_value : Z
}.

(** [t_enum]: [get_name()], [get_constants()]. *)
Record t_enum := {
  enum_get_name : string;
  enum_get_constants : list t_enum_value
}.

(** [t_base_type::t_base], and the types of the IDL. A type that belongs to
    another program than the one being generated ([program != NULL &&
    program != program_]) carries the Go module of that program
    ([get_real_go_module]). *)
Inductive t_base :=
| TYPE_VOID | TYPE_STRING | TYPE_BOOL | TYPE_BYTE
| TYPE_I16 | TYPE_I32 | TYPE_I64 | TYPE_DOUBLE.

Inductive t_type :=
| t_base_type (base : t_base) (is_binary : bool)
| t_enum_ref (foreign_module : option string) (name : string)
| t_struct_ref (foreign_module : option string) (name : string) (is_xception : bool)
| t_typedef (foreign_module : option string) (symbolic : string) (type : t_type)
| t_list (elem_type : t_type)
| t_set (elem_type : t_type)
| t_map (key_type val_type : t_type).

Definition is_void (t : t_type) : bool :=
  match t with t_base_type TYPE_VOID _ => true | _ => false end.
Definition is_enum (t : t_type) : bool :=
  match t with t_enum_ref _ _ => true | _ => false end.
Definition is_container (t : t_type) : bool :=
  match t with t_list _ | t_set _ | t_map _ _ => true | _ => false end.

(** Modelled from the spec: [t_generator::get_true_type], which the generator
    calls and does not define; "true type resolution (following aliases to
    their base)". *)
Fixpoint get_true_type (t : t_type) : t_type :=
  match t with
  | t_typedef _ _ u => get_true_type u
  | _ => t
  end.

(** [t_const_value]: the value tree of a constant or of a field default. *)
#[warnings="-register-all"]
Inductive t_const_value :=
| CV_INTEGER (i : Z)
| CV_DOUBLE
| CV_STRING (s : string)
| CV_IDENTIFIER (s : string)
| CV_LIST (l : list t_const_value)
| CV_MAP (m : list (t_const_value * t_const_value)).

Definition get_integer (v : t_const_value) : Z :=
  match v with CV_INTEGER i => i | _ => 0%Z end.

(** [t_field::e_req] and [t_field]; [field_get_key] is an [int32_t],
    [field_get_value] is [None] for the NULL of a field without default. *)
Inductive e_req := T_REQUIRED | T_OPTIONAL | T_OPT_IN_REQ_OUT.

Record t_field := {
  field_get_name : string;
  field_get_key : Z;
  field_get_type : t_type;
  field_get_req : e_req;
  field_get_value : option t_const_value
}.

(** [t_struct]: [get_members()] is the declaration order,
    [get_sorted_members()] the same fields in ascending key order. *)
Record t_struct := {
  struct_get_name : string;
  struct_get_members : list t_field;
  struct_get_sorted_members : list t_field
}.

(** The invariant [t_struct] keeps of its two views: the sorted view has
    strictly ascending keys (keys are unique) and holds the same fields. *)
Definition struct_inv (s : t_struct) : Prop :=
  StronglySorted Z.lt (map field_get_key (struct_get_sorted_members s))
  /\ Permutation (struct_get_members s) (struct_get_sorted_members s).

(** Keys are [int32_t] values. *)
Definition is_int32 (z : Z) : Prop := (-2147483648 <= z <= 2147483647)%Z.

(** [t_function] and [t_service]. *)
Record t_function := {
  fn_get_name : string;
  fn_get_returntype : t_type;
  fn_get_arglist : t_struct;
  fn_get_xceptions : t_struct;
  fn_is_oneway : bool
}.

Record t_service := {
  svc_get_name : string;
  svc_get_functions : list t_function
}.

(* ================================================================== *)
(** * The generated Go code, as far as it is analysed                   *)
(* ================================================================== *)

(** What one turn of the loop of [generate_enum] sends to its three streams:
    the constant declaration, the [case] of [String()] and the [case] of
    [FromString]. *)
Record enum_entry := {
  ee_iter_name : string;        (* the constant is <type>_<iter_name> *)
  ee_value : Z;                 (* ... <type> = <value> *)
  ee_string : string;           (* body of the literal String() returns *)
  ee_labels : list string       (* bodies of the literals FromString accepts *)
}.

Record go_enum := {
  ge_type : string;             (* tenum_name *)
  ge_entries : list enum_entry
}.

(** The Go meaning of the generated
<<
    func (p T) String() string { switch p { case T_A: return "..." ... }; return "<UNSET>" }
>>  *)
Fixpoint eval_String_cases (entries : list enum_entry) (p : Z) : string :=
  match entries with
  | [] => go_string_value "<UNSET>"
  | e :: rest =>
      if Z.eqb p (ee_value e) then go_string_value (ee_string e)
      else eval_String_cases rest p
  end.

Definition eval_String (g : go_enum) (p : Z) : string :=
  eval_String_cases (ge_entries g) p.

(** A Go [error] value: [nil] or an error with a message. *)
Definition go_error := option string.

(** The Go meaning of the generated
<<
    func TFromString(s string) (T, error) {
      switch s { case "...": return T_A, nil ... }
      return T(math.MinInt32 - 1), fmt.Errorf("not a valid T string")
    }
>>
    [fmt.Errorf] is called with a format and no further argument, and the
    format has no verb: the message is the format. *)
Fixpoint eval_FromString_cases (type : string) (entries : list enum_entry)
    (s : string) : Z * go_error :=
  match entries with
  | [] => (unset_sentinel,
           Some (go_string_value ("not a valid " ++ type ++ " string")))
  | e :: rest =>
      if existsb (fun l => String.eqb s (go_string_value l)) (ee_labels e)
      then (ee_value e, None)
      else eval_FromString_cases type rest s
  end.

Definition eval_FromString (g : go_enum) (s : string) : Z * go_error :=
  eval_FromString_cases (ge_type g) (ge_entries g) s.

(** ** Generated struct types *)

(** A line of the field block of a generated [type T struct { ... }]:
<<
    // unused field # <pos>
    <Name> <type> `thrift:"<name>,<pos>[,required]"`
    <Name> <type>
>>  *)
Inductive decl_line :=
| unused_field (pos : Z)
| tagged_field (f : t_field) (pos : Z)
| plain_field (f : t_field).

(** A field initialiser of the generated constructor [NewT()]:
<<
    <publicized_name>: <rendered default>,
    <publicized_name>: math.MinInt32 - 1, // unset sentinal value
>>  *)
Inductive init_line :=
| init_default (publicized_name rendered : string)
| init_sentinel (publicized_name : string).


(** The [return] of a generated [func (p *T) IsSet<Name>() bool]:
<<
    return p.<Name> != nil
    return p.<Name> != <string literal>
    return p.<Name> != true|false
    return p.<Name> != <integer>
    return p.<Name> != <double>
    return int64(p.<Name>) != math.MinInt32 - 1
    return p.<Name> != nil && len(p.<Name>) > 0
>>  *)
Inductive isset_check :=
| check_not_nil
| check_not_string (default : option t_const_value)
| check_not_bool (b : bool)
| check_not_int (i : Z)
| check_not_double (default : option t_const_value)
| check_not_sentinel
| check_not_nil_and_not_empty.

(** A generated presence query: the field it is written for, the Go name
    [<Name>] it has in its own name and reads the field by, and its
    [return]. *)
Record isset_helper := {
  ih_field : t_field;
  ih_name : string;
  ih_check : isset_check
}.



(** ** Generated Write *)

(** A branch of the [switch { ... }] in the [Write] of a result struct:
<<
    case p.<Name> != nil:
      if err := p.<method>(oprot); err != nil { return err }
    default:
      if err := p.<method>(oprot); err != nil { return err }
>>  *)
Inductive write_branch :=
| case_not_nil (f : t_field) (method : string)
| case_default (f : t_field) (method : string).

Definition branch_field (b : write_branch) : t_field :=
  match b with case_not_nil f _ | case_default f _ => f end.
Definition branch_method (b : write_branch) : string :=
  match b with case_not_nil _ m | case_default _ m => m end.
Definition is_default (b : write_branch) : bool :=
  match b with case_default _ _ => true | case_not_nil _ _ => false end.

(** What [Write] does between [WriteStructBegin] and [WriteFieldStop]: the
    switch, or one
<<
    if err := p.<method>(oprot); err != nil { return err }
>>  per field. *)
Inductive write_body :=
| write_switch (branches : list write_branch)
| write_each (calls : list (t_field * string)).

(** The statements that write one value, the texts of their error messages
    left out:
<<
    if err := <prefix>.Write(oprot); err != nil { ... }

    if err := oprot.<method>(<conversion>(<name>)); err != nil { ... }

    if err := oprot.WriteMapBegin(<key_enum>, <val_enum>, len(<prefix>)); ...
    for k,v := range <prefix> { <k> <v> }
    if err := oprot.WriteMapEnd(); ...
>>
    and likewise a set, with [for v, _ := range], and a list, with
    [for _, v := range]. [WriteBinary] is called without conversion. *)
Inductive write_code :=
| wc_struct (prefix : string)
| wc_value (method conversion name : string)
| wc_map (prefix key_enum val_enum : string) (k v : write_code)
| wc_set (prefix elem_enum : string) (e : write_code)
| wc_list (prefix elem_enum : string) (e : write_code).

(** A generated per-field writer:
<<
    func (p *T) <fw_method>(oprot thrift.TProtocol) (err error) {
      if p.<fw_name> != nil {                  ( with fw_nil_guard )
        if p.IsSet<fw_name>() {                ( with fw_isset_guard )
          if err := oprot.WriteFieldBegin("<name>", <fw_type_enum>, <field id>); ...
          <fw_body>
          if err := oprot.WriteFieldEnd(); ...
        }
      }
      return err
    }
>>  *)
Record field_writer := {
  fw_field : t_field;
  fw_method : string;
  fw_nil_guard : bool;
  fw_isset_guard : bool;
  fw_name : string;
  fw_type_enum : string;
  fw_body : write_code
}.

Record go_writer := {
  gw_body : write_body;
  gw_field_writers : list field_writer
}.

(** The per-field writers a run of the generated [Write] calls, in order.
    [non_nil] tells which fields of the record hold a non-nil value, [fails]
    which writers return an error. A Go [switch] without condition runs the
    first [case] whose expression holds, the [default] if none does, and
    never falls through. *)
Fixpoint exec_each (fails : string -> bool) (calls : list (t_field * string))
    : list string :=
  match calls with
  | [] => []
  | (_, m) :: rest => if fails m then [m] else m :: exec_each fails rest
  end.

Definition case_holds (non_nil : t_field -> bool) (b : write_branch) : bool :=
  match b with
  | case_not_nil f _ => non_nil f
  | case_default _ _ => false
  end.

Definition exec_switch (non_nil : t_field -> bool)
    (branches : list write_branch) : list string :=
  match find (case_holds non_nil) branches with
  | Some b => [branch_method b]
  | None =>
      match find is_default branches with
      | Some b => [branch_method b]
      | None => []
      end
  end.

Definition exec_write (non_nil : t_field -> bool) (fails : string -> bool)
    (body : write_body) : list string :=
  match body with
  | write_switch branches => exec_switch non_nil branches
  | write_each calls => exec_each fails calls
  end.

(** ** Generated client and processor *)

(** A statement of the body of a generated public client method:
<<
    if err = p.send<Name>(<args>); err != nil { return }
    return p.recv<Name>()
    return
>>  *)
Inductive client_stmt :=
| send_or_return (funname : string) (args : list string)
| return_recv (funname : string)
| return_bare.

(** The methods of the client a run of the public method calls. *)
Inductive client_call :=
| call_send (funname : string)
| call_recv (funname : string).

Fixpoint exec_client (send_fails : bool) (body : list client_stmt)
    : list client_call :=
  match body with
  | [] => []
  | send_or_return funname _ :: rest =>
      call_send funname :: (if send_fails then [] else exec_client send_fails rest)
  | return_recv funname :: _ => [call_recv funname]
  | return_bare :: _ => []
  end.

(** The message types of the runtime library, and the calls on the output
    protocol the generated [Process] makes:
<<
    oprot.WriteMessageBegin("<name>", thrift.<TYPE>, seqId)
    <receiver>.Write(oprot)
    oprot.WriteMessageEnd()
    oprot.Flush()
>>  *)
Inductive msg_type := thrift_CALL | thrift_REPLY | thrift_EXCEPTION.

Inductive oprot_call :=
| WriteMessageBegin (name : string) (mtype : msg_type)
| Write_to_oprot (receiver : string)
| WriteMessageEnd
| Flush.

(** The statements of the body of a generated [Process], in the units the
    generator writes them in. *)
Inductive process_stmt :=
| ps_prologue
    (* seqId := request.SeqId(); iprot := request.In(); oprot := request.Out() *)
| ps_read_args (argsname : string) (on_error : list oprot_call)
    (* args := New<argsname>()
       if err = args.Read(iprot); err != nil {
         iprot.ReadMessageEnd(); x := ...PROTOCOL_ERROR...; <on_error>; return }
       iprot.ReadMessageEnd() *)
| ps_pre_handle (args : list string)
    (* if p.listener != nil { p.listener.PreHandle(request, <args>) } *)
| ps_new_result (resultname : string)
    (* result := New<resultname>(); var callbackError error *)
| ps_call_handler (result_args : string) (method : string) (args : list string)
    (* (func() { defer (func() { if r := recover(); r != nil {
         callbackError = goerr.New(r, 0) } })()
         <result_args>callbackError = p.handler.<method>(<args>) })() *)
| ps_post_handle (result_args : string)
    (* if p.listener != nil { p.listener.PostHandle(request, <result_args>callbackError)
         defer p.listener.Completed(request, callbackError) } *)
| ps_callback_error (fname : string) (on_error : list oprot_call)
    (* if callbackError != nil { x := ...INTERNAL_ERROR...; <on_error>; return } *)
| ps_reply_first (c : oprot_call)
    (* if err2 := <c>; err2 != nil { err = err2 } *)
| ps_reply_next (c : oprot_call)
    (* if err2 := <c>; err == nil && err2 != nil { err = err2 } *)
| ps_epilogue.
    (* if err != nil { return }; return true, err *)

(** What a run of the generated [Process] does that a peer or the handler
    can see: the call of the handler and the calls on the output protocol,
    in order. [args_ok] tells whether [args.Read] succeeds, [handler_ok]
    whether the handler returns without error and without panic. *)
Inductive event :=
| ev_handler (method : string)
| ev_wire (c : oprot_call).

Fixpoint run_process (args_ok handler_ok : bool) (body : list process_stmt)
    : list event :=
  match body with
  | [] => []
  | ps_read_args _ on_error :: rest =>
      if args_ok then run_process args_ok handler_ok rest
      else map ev_wire on_error
  | ps_call_handler _ method _ :: rest =>
      ev_handler method :: run_process args_ok handler_ok rest
  | ps_callback_error _ on_error :: rest =>
      if handler_ok then run_process args_ok handler_ok rest
      else map ev_wire on_error
  | ps_reply_first c :: rest | ps_reply_next c :: rest =>
      ev_wire c :: run_process args_ok handler_ok rest
  | ps_epilogue :: _ => []
  | _ :: rest => run_process args_ok handler_ok rest
  end.

(** The calls on the output protocol after the handler has been called. *)
Fixpoint after_handler (trace : list event) : list oprot_call :=
  match trace with
  | [] => []
  | ev_handler _ :: rest =>
      flat_map (fun e => match e with ev_wire c => [c] | ev_handler _ => [] end) rest
  | ev_wire _ :: rest => after_handler rest
  end.

(** ** Helpers *)

Fixpoint mapM {A B : Type} (f : A -> option B) (l : list A) : option (list B) :=
  match l with
  | [] => Some []
  | a :: rest =>
      match f a with
      | Some b =>
          match mapM f rest with
          | Some bs => Some (b :: bs)
          | None => None
          end
      | None => None
      end
  end.

(* ================================================================== *)
(** * The generator                                                     *)
(* ================================================================== *)

Section Generator.

(** Two helpers of the base class [t_generator], which the generator
    calls and does not define: [escape_string], and [indent()] as a
    function of the nesting depth reached by [indent_up()]. *)
Variable escape_string : string -> string.
Variable indent : nat -> string.

(** [render_const_value], the text of a constant: it is written with
    [get_escaped_string] of the base class and with the text the output
    stream gives a [double], neither of which the generator defines, so it
    is a parameter here; [None] is a [throw]. *)
Variable render_const_value : t_type -> t_const_value -> string -> option string.

(** ** generate_enum *)

(** The loop over [constants], started with [int value = -1]. *)
Fixpoint enum_loop (tenum_name : string) (value : Z)
    (constants : list t_enum_value) : list enum_entry :=
  match constants with
  | [] => []
  | c :: rest =>
      let value :=
        if ev_has_value c then ev_get_value c else wrap32 (value + 1) in
      let iter_std_name := escape_string (ev_get_name c) in
      let iter_name := ev_get_name c in
      {| ee_iter_name := iter_name;
         ee_value := value;
         ee_string := tenum_name ++ "_" ++ iter_std_name;
         ee_labels :=
           if negb (String.eqb iter_std_name (escape_string iter_name))
           then [tenum_name ++ "_" ++ iter_std_name; escape_string iter_name]
           else [tenum_name ++ "_" ++ iter_std_name] |}
      :: enum_loop tenum_name value rest
  end.

Definition generate_enum (tenum : t_enum) : option go_enum :=
  match publicize (enum_get_name tenum) with
  | Some tenum_name =>
      Some {| ge_type := tenum_name;
              ge_entries := enum_loop tenum_name (-1) (enum_get_constants tenum) |}
  | None => None
  end.

(** The text [generate_enum] writes to [f_types_] (the declaration has no
    doc text). *)
Definition render_const (t : string) (e : enum_entry) : string :=
  indent 0 ++ "  " ++ t ++ "_" ++ ee_iter_name e ++ " " ++ t ++ " = "
  ++ show_int (ee_value e) ++ endl.

Definition render_to_string_case (t : string) (e : enum_entry) : string :=
  indent 0 ++ "  case " ++ t ++ "_" ++ ee_iter_name e ++ ": return " ++ dq
  ++ ee_string e ++ dq ++ endl.

Definition render_from_string_case (t : string) (e : enum_entry) : string :=
  match ee_labels e with
  | [l1; l2] =>
      indent 0 ++ "  case " ++ dq ++ l1 ++ dq ++ ", " ++ dq ++ l2 ++ dq
      ++ ": return " ++ t ++ "_" ++ ee_iter_name e ++ ", nil " ++ endl
  | _ =>
      indent 0 ++ "  case " ++ dq ++ ee_string e ++ dq ++ ": return "
      ++ t ++ "_" ++ ee_iter_name e ++ ", nil " ++ endl
  end.

Definition render_enum (g : go_enum) : string :=
  let t := ge_type g in
  let to_string_mapping :=
    indent 0 ++ "func (p " ++ t ++ ") String() string {" ++ endl
    ++ indent 0 ++ "  switch p {" ++ endl
    ++ String.concat "" (map (render_to_string_case t) (ge_entries g))
    ++ indent 0 ++ "  }" ++ endl
    ++ indent 0 ++ "  return " ++ dq ++ "<UNSET>" ++ dq ++ endl
    ++ indent 0 ++ "}" ++ endl in
  let from_string_mapping :=
    indent 0 ++ "func " ++ t ++ "FromString(s string) (" ++ t ++ ", error) {" ++ endl
    ++ indent 0 ++ "  switch s {" ++ endl
    ++ String.concat "" (map (render_from_string_case t) (ge_entries g))
    ++ indent 0 ++ "  }" ++ endl
    ++ indent 0 ++ "  return " ++ t ++ "(math.MinInt32 - 1),"
    ++ " fmt.Errorf(" ++ dq ++ "not a valid " ++ t ++ " string" ++ dq ++ ")" ++ endl
    ++ indent 0 ++ "}" ++ endl in
  "type " ++ t ++ " int64" ++ endl
  ++ "const (" ++ endl
  ++ String.concat "" (map (render_const t) (ge_entries g))
  ++ ")" ++ endl ++ endl
  ++ to_string_mapping ++ endl
  ++ from_string_mapping ++ endl ++ endl.

(** ** Types *)

Definition type_name (ttype : t_type) : string :=
  let qualified (program : option string) (name : string) :=
    match program with
    | Some module =>
        let module :=
          match Str.rfind "." module with
          | Some dot => Str.substr_from (dot + 1) module
          | None => module
          end in
        module ++ "." ++ name
    | None => name
    end in
  match ttype with
  | t_enum_ref program name => qualified program name
  | t_struct_ref program name _ => qualified program name
  | t_typedef program symbolic _ => qualified program symbolic
  | _ => EmptyString
  end.

(** [type_to_go_type], with [type_to_go_key_type] written out where it is
    called; [None] is a [throw]. *)
Fixpoint type_to_go_type (type : t_type) : option string :=
  let key_type (k : t_type) (go : option string) : option string :=
    if is_container (get_true_type k) then None else go in
  match type with
  | t_base_type TYPE_VOID _ => None
  | t_base_type TYPE_STRING is_binary =>
      Some (if is_binary then "[]byte" else "string")
  | t_base_type TYPE_BOOL _ => Some "bool"
  | t_base_type TYPE_BYTE _ => Some "int8"
  | t_base_type TYPE_I16 _ => Some "int16"
  | t_base_type TYPE_I32 _ => Some "int32"
  | t_base_type TYPE_I64 _ => Some "int64"
  | t_base_type TYPE_DOUBLE _ => Some "float64"
  | t_enum_ref _ _ => publicize (type_name type)
  | t_struct_ref _ _ _ =>
      match publicize (type_name type) with
      | Some n => Some ("*" ++ n)
      | None => None
      end
  | t_map k v =>
      match key_type k (type_to_go_type k), type_to_go_type v with
      | Some keyType, Some valueType => Some ("map[" ++ keyType ++ "]" ++ valueType)
      | _, _ => None
      end
  | t_set e =>
      match key_type e (type_to_go_type e) with
      | Some elemType => Some ("map[" ++ elemType ++ "]bool")
      | None => None
      end
  | t_list e =>
      match type_to_go_type e with
      | Some elemType => Some ("[]" ++ elemType)
      | None => None
      end
  | t_typedef _ _ _ => publicize (type_name type)
  end.

(** [can_be_nil]; [None] is a [throw]. *)
Definition can_be_nil (type : t_type) : option bool :=
  match get_true_type type with
  | t_base_type TYPE_VOID _ => None
  | t_base_type TYPE_STRING is_binary => Some is_binary
  | t_base_type _ _ => Some false
  | t_enum_ref _ _ => Some false
  | t_struct_ref _ _ _ => Some true
  | t_map _ _ => Some true
  | t_set _ => Some true
  | t_list _ => Some true
  | t_typedef _ _ _ => None
  end.

(** ** generate_go_struct_definition: the field block *)

(** The inner loop
<<
    for (; sorted_keys_pos != key; sorted_keys_pos++)
>>
    makes [(key - sorted_keys_pos) mod 2^32] steps on an [int] that wraps
    around, which is [key - sorted_keys_pos] steps when the position is not
    above the key. *)
Definition gap_positions (sorted_keys_pos key : Z) : list Z :=
  map (fun k => wrap32 (sorted_keys_pos + Z.of_nat k))
      (seq 0 (Z.to_nat ((key - sorted_keys_pos) mod 4294967296))).

Fixpoint sorted_decl_lines (sorted_keys_pos : Z) (sorted_members : list t_field)
    : list decl_line :=
  match sorted_members with
  | [] => []
  | m :: rest =>
      map unused_field
          (filter (fun pos => negb (Z.eqb pos 0))
                  (gap_positions sorted_keys_pos (field_get_key m)))
      ++ tagged_field m (field_get_key m)
      :: sorted_decl_lines (wrap32 (field_get_key m + 1)) rest
  end.

Definition struct_decl_lines (tstruct : t_struct) : list decl_line :=
  let members := struct_get_members tstruct in
  let sorted_members := struct_get_sorted_members tstruct in
  match sorted_members with
  | [] => sorted_decl_lines 0 sorted_members
  | m0 :: _ =>
      if Z.leb 0 (field_get_key m0)
      then sorted_decl_lines 0 sorted_members
      else map plain_field members
  end.

(** The text of one line of the field block, at the nesting depth 1 the
    block is written at; [None] where [type_to_go_type] throws or
    [publicize] has no result. *)
Definition render_decl_line (l : decl_line) : option string :=
  match l with
  | unused_field pos =>
      Some (indent 1 ++ "// unused field # " ++ show_int pos ++ endl)
  | tagged_field m pos =>
      match type_to_go_type (field_get_type m),
            publicize (variable_name_to_go_name (field_get_name m)) with
      | Some goType, Some name =>
          Some (indent 1 ++ name ++ " " ++ goType ++ " `thrift:" ++ dq
                ++ escape_string (field_get_name m) ++ "," ++ show_int pos
                ++ match field_get_req m with
                   | T_REQUIRED => ",required"
                   | _ => EmptyString
                   end
                ++ dq ++ "`" ++ endl)
      | _, _ => None
      end
  | plain_field m =>
      match publicize (field_get_name m), type_to_go_type (field_get_type m) with
      | Some name, Some goType => Some (indent 1 ++ name ++ " " ++ goType ++ endl)
      | _, _ => None
      end
  end.

Definition generate_struct_fields (tstruct : t_struct) : option (list string) :=
  mapM render_decl_line (struct_decl_lines tstruct).

(** ** generate_go_struct_definition: the constructor *)

(** [render_field_default_value]. *)
Definition render_field_default_value (tfield : t_field) (name : string)
    : option string :=
  let type := get_true_type (field_get_type tfield) in
  match field_get_value tfield with
  | Some value => render_const_value type value name
  | None => Some "nil"
  end.

(** One turn of the loop that writes the initialisers:
<<
    const string base_field_name = m->get_name();
    const string escaped_field_name = escape_string(base_field_name);
    const string go_safe_name = variable_name_to_go_name(escaped_field_name);
    const string publicized_name = publicize(go_safe_name);
    const t_type* type = get_true_type(m->get_type());
    const bool has_default_value = m->get_value() != NULL;
    const bool type_is_enum = type->is_enum();
    if (has_default_value) {
        ... publicized_name << ": " << render_field_default_value(m, base_field_name) << "," ...
    } else if (type_is_enum) {
        ... publicized_name << ": math.MinInt32 - 1, // unset sentinal value" ...
    }
>>
    [publicize] is called for every member, whether it gets an initialiser
    or not. *)
Definition constructor_init (m : t_field) : option (list init_line) :=
  let base_field_name := field_get_name m in
  let escaped_field_name := escape_string base_field_name in
  let go_safe_name := variable_name_to_go_name escaped_field_name in
  match publicize go_safe_name with
  | Some publicized_name =>
      let type := get_true_type (field_get_type m) in
      match field_get_value m with
      | Some _ =>
          match render_field_default_value m base_field_name with
          | Some rendered => Some [init_default publicized_name rendered]
          | None => None
          end
      | None =>
          Some (if is_enum type then [init_sentinel publicized_name] else [])
      end
  | None => None
  end.

Definition constructor_inits (tstruct : t_struct) : option (list init_line) :=
  match mapM constructor_init (struct_get_members tstruct) with
  | Some inits => Some (List.concat inits)
  | None => None
  end.

(** The text of an initialiser. *)
Definition render_init_line (i : init_line) : string :=
  match i with
  | init_default publicized_name rendered =>
      endl ++ indent 0 ++ publicized_name ++ ": " ++ rendered ++ "," ++ endl
  | init_sentinel publicized_name =>
      endl ++ indent 0 ++ publicized_name
      ++ ": math.MinInt32 - 1, // unset sentinal value" ++ endl
  end.

(** ** generate_isset_helpers *)

Definition isset_check_of (f : t_field) : option isset_check :=
  let type := get_true_type (field_get_type f) in
  let field_default_value := field_get_value f in
  match type with
  | t_base_type TYPE_STRING is_binary =>
      if is_binary then Some check_not_nil
      else Some (check_not_string field_default_value)
  | t_base_type TYPE_BOOL _ =>
      Some (check_not_bool
              match field_default_value with
              | Some v => Z.ltb 0 (get_integer v)
              | None => false
              end)
  | t_base_type TYPE_BYTE _ | t_base_type TYPE_I16 _
  | t_base_type TYPE_I32 _ | t_base_type TYPE_I64 _ =>
      Some (check_not_int
              match field_default_value with
              | Some v => get_integer v
              | None => 0%Z
              end)
  | t_base_type TYPE_DOUBLE _ => Some (check_not_double field_default_value)
  | t_base_type TYPE_VOID _ => None
  | t_enum_ref _ _ => Some check_not_sentinel
  | t_struct_ref _ _ _ => Some check_not_nil
  | t_list _ | t_set _ =>
      match field_default_value with
      | Some (CV_LIST (_ :: _)) => Some check_not_nil
      | _ => Some check_not_nil_and_not_empty
      end
  | t_map _ _ =>
      match field_default_value with
      | Some (CV_MAP (_ :: _)) => Some check_not_nil
      | _ => Some check_not_nil_and_not_empty
      end
  | t_typedef _ _ _ => None
  end.

Definition has_isset_helper (f : t_field) : bool :=
  match field_get_req f with
  | T_OPTIONAL => true
  | _ => is_enum (get_true_type (field_get_type f))
  end.

(** The loop over the members:
<<
    if (f->get_req() == t_field::T_OPTIONAL || type->is_enum()) {
        const string field_name(publicize(variable_name_to_go_name(escape_string(f->get_name()))));
        ... "func (p *" << tstruct_name << ") IsSet" << field_name << "() bool {" ...
        ... the return that goes with the type, which throws on void ...
    }
>>  *)
Fixpoint isset_loop (fields : list t_field) : option (list isset_helper) :=
  match fields with
  | [] => Some []
  | f :: rest =>
      if has_isset_helper f then
        match publicize (variable_name_to_go_name (escape_string (field_get_name f))),
              isset_check_of f with
        | Some field_name, Some c =>
            match isset_loop rest with
            | Some hs =>
                Some ({| ih_field := f; ih_name := field_name; ih_check := c |} :: hs)
            | None => None
            end
        | _, _ => None
        end
      else isset_loop rest
  end.

Definition generate_isset_helpers (tstruct : t_struct) : option (list isset_helper) :=
  isset_loop (struct_get_members tstruct).

(** The text of a presence query on an enum field. *)
Definition render_isset_sentinel (tstruct_name field_name : string) : string :=
  indent 0 ++ "func (p *" ++ tstruct_name ++ ") IsSet" ++ field_name
  ++ "() bool {" ++ endl
  ++ indent 1 ++ "return int64(p." ++ field_name ++ ") != "
  ++ "math.MinInt32 - 1" ++ endl
  ++ indent 0 ++ "}" ++ endl ++ endl.

(** ** generate_go_struct_writer *)

(** The name of the per-field method: a negative key gives an underscore
    and its negation ([field_id *= -1] on an [int32_t]). *)
Definition field_id_of (key : Z) : Z :=
  if Z.ltb key 0 then wrap32 (key * -1) else key.

Definition field_method (field_method_prefix : string) (key : Z) : string :=
  (if Z.ltb key 0 then field_method_prefix ++ "_" else field_method_prefix)
  ++ show_int (field_id_of key).

(** A branch of the switch of a result writer:
<<
    if (can_be_nil(f->get_type()) && field_id != 0) {
        ... "case p." << publicize(variable_name_to_go_name(field_name)) << " != nil:" ...
    } else {
        ... "default:" ...
    }
>>
    [None] where [can_be_nil] throws or [publicize] has no result. *)
Definition switch_branch (f : t_field) : option write_branch :=
  let field_id := field_id_of (field_get_key f) in
  let method := field_method "writeField" (field_get_key f) in
  match can_be_nil (field_get_type f) with
  | Some nilable =>
      if nilable && negb (Z.eqb field_id 0) then
        match publicize (variable_name_to_go_name (field_get_name f)) with
        | Some name => Some (case_not_nil f method)
        | None => None
        end
      else Some (case_default f method)
  | None => None
  end.

(** ** type_to_enum *)

(** [type_to_enum]; [None] is a [throw]. *)
Definition type_to_enum (type : t_type) : option string :=
  match get_true_type type with
  | t_base_type TYPE_VOID _ => None
  | t_base_type TYPE_STRING is_binary =>
      Some (if is_binary then "thrift.BINARY" else "thrift.STRING")
  | t_base_type TYPE_BOOL _ => Some "thrift.BOOL"
  | t_base_type TYPE_BYTE _ => Some "thrift.BYTE"
  | t_base_type TYPE_I16 _ => Some "thrift.I16"
  | t_base_type TYPE_I32 _ => Some "thrift.I32"
  | t_base_type TYPE_I64 _ => Some "thrift.I64"
  | t_base_type TYPE_DOUBLE _ => Some "thrift.DOUBLE"
  | t_enum_ref _ _ => Some "thrift.I32"
  | t_struct_ref _ _ _ => Some "thrift.STRUCT"
  | t_map _ _ => Some "thrift.MAP"
  | t_set _ => Some "thrift.SET"
  | t_list _ => Some "thrift.LIST"
  | t_typedef _ _ _ => None
  end.

(** ** generate_serialize_field *)

(** The [switch (tbase)] of [generate_serialize_field]. *)
Definition write_call (tbase : t_base) (is_binary : bool)
    : option (string * string) :=
  match tbase with
  | TYPE_VOID => None
  | TYPE_STRING =>
      Some (if is_binary then ("WriteBinary", "") else ("WriteString", "string"))
  | TYPE_BOOL => Some ("WriteBool", "bool")
  | TYPE_BYTE => Some ("WriteByte", "byte")
  | TYPE_I16 => Some ("WriteI16", "int16")
  | TYPE_I32 => Some ("WriteI32", "int32")
  | TYPE_I64 => Some ("WriteI64", "int64")
  | TYPE_DOUBLE => Some ("WriteDouble", "float64")
  end.

(** [generate_serialize_field], with [generate_serialize_struct],
    [generate_serialize_container] and the three [_element] functions
    written out where they are called. The field is handed over as its type
    and its name; the function works on [get_true_type] of the type, which
    is what the case of a typedef does. The fields of the elements of a
    container have the empty name. [None] is a [throw]. *)
Fixpoint generate_serialize_field (type : t_type) (tfield_name prefix : string)
    {struct type} : option write_code :=
  match publicize (variable_name_to_go_name tfield_name) with
  | None => None
  | Some go_name =>
      let name := prefix ++ go_name in
      match type with
      | t_typedef _ _ true_type =>
          generate_serialize_field true_type tfield_name prefix
      | t_base_type tbase is_binary =>
          match write_call tbase is_binary with
          | Some (method, conversion) => Some (wc_value method conversion name)
          | None => None
          end
      | t_enum_ref _ _ => Some (wc_value "WriteI32" "int32" name)
      | t_struct_ref _ _ _ => Some (wc_struct name)
      | t_map key_type val_type =>
          match type_to_enum key_type, type_to_enum val_type,
                generate_serialize_field key_type "" "k",
                generate_serialize_field val_type "" "v" with
          | Some key_enum, Some val_enum, Some k, Some v =>
              Some (wc_map name key_enum val_enum k v)
          | _, _, _, _ => None
          end
      | t_set elem_type =>
          match type_to_enum elem_type,
                generate_serialize_field elem_type "" "v" with
          | Some elem_enum, Some e => Some (wc_set name elem_enum e)
          | _, _ => None
          end
      | t_list elem_type =>
          match type_to_enum elem_type,
                generate_serialize_field elem_type "" "v" with
          | Some elem_enum, Some e => Some (wc_list name elem_enum e)
          | _, _ => None
          end
      end
  end.

(** ** generate_go_struct_writer: the per-field writers *)

(** Is the type free of void, behind typedefs and inside containers: the
    types [generate_serialize_field] goes through on. *)
Fixpoint can_serialize (type : t_type) : bool :=
  match type with
  | t_typedef _ _ u => can_serialize u
  | t_base_type TYPE_VOID _ => false
  | t_base_type _ _ => true
  | t_enum_ref _ _ => true
  | t_struct_ref _ _ _ => true
  | t_list e => can_serialize e
  | t_set e => can_serialize e
  | t_map k v => can_serialize k && can_serialize v
  end.

(** The per-field writer of a field:
<<
    field_can_be_nil = can_be_nil(f->get_type());
    ...
    if (field_can_be_nil) {
        ... "if p." << publicize(variable_name_to_go_name(field_name)) << " != nil {" ...
    }
    if (field_required == t_field::T_OPTIONAL || f->get_type()->is_enum()) {
        ... "if p.IsSet" << publicize(variable_name_to_go_name(field_name)) << "() {" ...
    }
    ... "oprot.WriteFieldBegin(" ... type_to_enum(f->get_type()) << ", " << field_id ...
    generate_serialize_field(out, f, "p.");
>>
    The name in the guards is the one [generate_serialize_field] makes
    again, whatever the guards, so a field whose name has no public form
    has no writer. [None] where [can_be_nil], [type_to_enum] or
    [generate_serialize_field] throws or [publicize] has no result. *)
Definition field_writer_head (f : t_field) : option field_writer :=
  match can_be_nil (field_get_type f),
        publicize (variable_name_to_go_name (field_get_name f)),
        type_to_enum (field_get_type f),
        generate_serialize_field (field_get_type f) (field_get_name f) "p." with
  | Some field_can_be_nil, Some name, Some type_enum, Some body =>
      Some {| fw_field := f;
              fw_method := field_method "writeField" (field_get_key f);
              fw_nil_guard := field_can_be_nil;
              fw_isset_guard :=
                match field_get_req f with
                | T_OPTIONAL => true
                | _ => is_enum (field_get_type f)
                end;
              fw_name := name;
              fw_type_enum := type_enum;
              fw_body := body |}
  | _, _, _, _ => None
  end.

Definition generate_go_struct_writer (tstruct : t_struct) (is_result : bool)
    : option go_writer :=
  let fields := struct_get_sorted_members tstruct in
  let body :=
    if is_result && negb (Nat.eqb (length fields) 0) then
      match mapM switch_branch (rev fields) with
      | Some branches => Some (write_switch branches)
      | None => None
      end
    else
      Some (write_each
              (map (fun f => (f, field_method "writeField" (field_get_key f)))
                   fields)) in
  match body with
  | Some body =>
      match mapM field_writer_head fields with
      | Some writers => Some {| gw_body := body; gw_field_writers := writers |}
      | None => None
      end
  | None => None
  end.

(** The text of the body of [Write], at nesting depth 1. *)
Definition render_write_call (method : string) : string :=
  "if err := p." ++ method ++ "(oprot); err != nil { return err }" ++ endl.

Definition render_write_branch (b : write_branch) : option string :=
  match b with
  | case_not_nil f method =>
      match publicize (variable_name_to_go_name (field_get_name f)) with
      | Some name =>
          Some (indent 1 ++ "case p." ++ name ++ " != nil:" ++ endl
                ++ indent 1 ++ "  " ++ render_write_call method)
      | None => None
      end
  | case_default _ method =>
      Some (indent 1 ++ "default:" ++ endl
            ++ indent 1 ++ "  " ++ render_write_call method)
  end.

Definition render_write_body (body : write_body) : option string :=
  match body with
  | write_switch branches =>
      match mapM render_write_branch branches with
      | Some ls =>
          Some (indent 1 ++ "switch {" ++ endl
                ++ String.concat "" ls
                ++ indent 1 ++ "}" ++ endl)
      | None => None
      end
  | write_each calls =>
      Some (String.concat ""
              (map (fun c => indent 1 ++ render_write_call (snd c)) calls))
  end.

(** ** generate_go_function_helpers: the result struct of a function *)

(** Modelled from the spec: [t_struct::append], which the generator calls and
    does not define. A record has its "ordered field list in declaration
    order, and a second view sorted ascending by key", and "field keys [are]
    unique per record": a field whose key is taken is not added. *)
Fixpoint insert_by_key (f : t_field) (sorted_members : list t_field)
    : list t_field :=
  match sorted_members with
  | [] => [f]
  | g :: rest =>
      if Z.ltb (field_get_key f) (field_get_key g)
      then f :: sorted_members
      else g :: insert_by_key f rest
  end.

Definition append (tstruct : t_struct) (f : t_field) : t_struct :=
  if existsb (fun g => Z.eqb (field_get_key g) (field_get_key f))
       (struct_get_sorted_members tstruct)
  then tstruct
  else {| struct_get_name := struct_get_name tstruct;
          struct_get_members := struct_get_members tstruct ++ [f];
          struct_get_sorted_members :=
            insert_by_key f (struct_get_sorted_members tstruct) |}.

(** [t_struct result(program_, name + "_result")], with the field
    [t_field success(returntype, "success", 0)] unless the function returns
    void, and then the fields of the declared exceptions. *)
Definition result_struct (tfunction : t_function) : t_struct :=
  let result :=
    {| struct_get_name := fn_get_name tfunction ++ "_result";
       struct_get_members := [];
       struct_get_sorted_members := [] |} in
  let success :=
    {| field_get_name := "success"; field_get_key := 0;
       field_get_type := fn_get_returntype tfunction;
       field_get_req := T_OPT_IN_REQ_OUT; field_get_value := None |} in
  let result :=
    if negb (is_void (fn_get_returntype tfunction))
    then append result success else result in
  fold_left append (struct_get_members (fn_get_xceptions tfunction)) result.

(** The [Write] part of
    [generate_go_struct_definition(f_service_, &result, false, true)]. *)
Definition generate_result_writer (tfunction : t_function) : option go_writer :=
  generate_go_struct_writer (result_struct tfunction) true.

(** ** generate_service_client: the public method of a function *)

Definition client_method_body (f : t_function) : option (list client_stmt) :=
  let fields := struct_get_members (fn_get_arglist f) in
  match publicize (fn_get_name f) with
  | Some funname =>
      Some [ send_or_return funname
               (map (fun fld => variable_name_to_go_name (field_get_name fld)) fields);
             if negb (fn_is_oneway f) then return_recv funname else return_bare ]
  | None => None
  end.

Definition render_client_stmt (st : client_stmt) : string :=
  match st with
  | send_or_return funname args =>
      indent 1 ++ "if err = p.send" ++ funname ++ "("
      ++ String.concat ", " args ++ "); err != nil { return }" ++ endl
  | return_recv funname => indent 1 ++ "return p.recv" ++ funname ++ "()" ++ endl
  | return_bare => indent 1 ++ "return" ++ endl
  end.

(** ** generate_process_function *)

Definition go_field_names (fields : list t_field) : option (list string) :=
  mapM (fun fld => publicize (variable_name_to_go_name (field_get_name fld))) fields.

Definition exception_reply (fname : string) : list oprot_call :=
  [ WriteMessageBegin (escape_string fname) thrift_EXCEPTION;
    Write_to_oprot "x"; WriteMessageEnd; Flush ].

Definition process_result_args (tfunction : t_function) : option string :=
  if negb (fn_is_oneway tfunction) then
    match go_field_names (struct_get_members (fn_get_xceptions tfunction)) with
    | Some xs =>
        Some ((if negb (is_void (fn_get_returntype tfunction))
               then "result.Success, " else EmptyString)
              ++ String.concat EmptyString (map (fun x => "result." ++ x ++ ", ") xs))
    | None => None
    end
  else Some EmptyString.

Definition generate_process_function (tservice : t_service)
    (tfunction : t_function) : option (string * list process_stmt) :=
  match privatize (svc_get_name tservice), publicize (fn_get_name tfunction),
        go_field_names (struct_get_members (fn_get_arglist tfunction)),
        process_result_args tfunction with
  | Some pService, Some fName, Some args, Some result_args =>
      let processorName := pService ++ "Processor" ++ fName in
      let argsname := fName ++ "Args" in
      let resultname := fName ++ "Result" in
      let args := map (fun a => "args." ++ a) args in
      Some (processorName,
            [ ps_prologue;
              ps_read_args argsname (exception_reply (fn_get_name tfunction));
              ps_pre_handle args;
              ps_new_result resultname;
              ps_call_handler result_args fName args;
              ps_post_handle result_args;
              ps_callback_error (escape_string (fn_get_name tfunction))
                (exception_reply (fn_get_name tfunction));
              ps_reply_first
                (WriteMessageBegin (escape_string (fn_get_name tfunction)) thrift_REPLY);
              ps_reply_next (Write_to_oprot "result");
              ps_reply_next WriteMessageEnd;
              ps_reply_next Flush;
              ps_epilogue ])
  | _, _, _, _ => None
  end.

(** The text of the statements of [Process]; [d] is the nesting depth. *)
Definition render_oprot_call (c : oprot_call) : string :=
  match c with
  | WriteMessageBegin name mtype =>
      "oprot.WriteMessageBegin(" ++ dq ++ name ++ dq ++ ", thrift."
      ++ match mtype with
         | thrift_CALL => "CALL"
         | thrift_REPLY => "REPLY"
         | thrift_EXCEPTION => "EXCEPTION"
         end
      ++ ", seqId)"
  | Write_to_oprot receiver => receiver ++ ".Write(oprot)"
  | WriteMessageEnd => "oprot.WriteMessageEnd()"
  | Flush => "oprot.Flush()"
  end.

Definition render_on_error (d : nat) (on_error : list oprot_call) : string :=
  String.concat EmptyString
    (map (fun c => indent d ++ "  " ++ render_oprot_call c ++ endl) on_error).

Definition render_process_stmt (st : process_stmt) : string :=
  match st with
  | ps_prologue =>
      indent 1 ++ "seqId := request.SeqId()" ++ endl
      ++ indent 1 ++ "iprot := request.In()" ++ endl
      ++ indent 1 ++ "oprot := request.Out()" ++ endl
  | ps_read_args argsname on_error =>
      indent 1 ++ "args := New" ++ argsname ++ "()" ++ endl
      ++ indent 1 ++ "if err = args.Read(iprot); err != nil {" ++ endl
      ++ indent 1 ++ "  iprot.ReadMessageEnd()" ++ endl
      ++ indent 1 ++ "  x := thrift.NewTApplicationException(thrift.PROTOCOL_ERROR, err.Error())" ++ endl
      ++ render_on_error 1 on_error
      ++ indent 1 ++ "  return" ++ endl
      ++ indent 1 ++ "}" ++ endl
      ++ indent 1 ++ "iprot.ReadMessageEnd()" ++ endl
  | ps_pre_handle args =>
      indent 1 ++ "if p.listener != nil {" ++ endl
      ++ indent 1 ++ "  p.listener.PreHandle(request"
      ++ String.concat EmptyString (map (fun a => ", " ++ a) args) ++ ")" ++ endl
      ++ indent 1 ++ "}" ++ endl
  | ps_new_result resultname =>
      indent 1 ++ "result := New" ++ resultname ++ "()" ++ endl
      ++ indent 1 ++ "var callbackError error" ++ endl
  | ps_call_handler result_args method args =>
      indent 1 ++ "(func() {" ++ endl
      ++ indent 2 ++ "defer (func() {" ++ endl
      ++ indent 3 ++ "if r := recover(); r != nil {" ++ endl
      ++ indent 4 ++ "callbackError = goerr.New(r, 0)" ++ endl
      ++ indent 3 ++ "}" ++ endl
      ++ indent 2 ++ "})()" ++ endl
      ++ indent 2 ++ result_args ++ "callbackError = p.handler." ++ method ++ "("
      ++ String.concat ", " args ++ ")" ++ endl
      ++ indent 1 ++ "})()" ++ endl
  | ps_post_handle result_args =>
      indent 1 ++ "if p.listener != nil {" ++ endl
      ++ indent 1 ++ "  p.listener.PostHandle(request, " ++ result_args
      ++ "callbackError)" ++ endl
      ++ indent 1 ++ "  defer p.listener.Completed(request, callbackError)" ++ endl
      ++ indent 1 ++ "}" ++ endl
  | ps_callback_error fname on_error =>
      indent 1 ++ "if callbackError != nil {" ++ endl
      ++ indent 1 ++ "  x := thrift.NewTApplicationException(thrift.INTERNAL_ERROR, "
      ++ dq ++ "Internal error processing " ++ fname ++ ": " ++ dq
      ++ " + callbackError.Error())" ++ endl
      ++ render_on_error 1 on_error
      ++ indent 1 ++ "  return" ++ endl
      ++ indent 1 ++ "}" ++ endl
  | ps_reply_first c =>
      indent 1 ++ "if err2 := " ++ render_oprot_call c ++ "; err2 != nil {" ++ endl
      ++ indent 1 ++ "  err = err2" ++ endl
      ++ indent 1 ++ "}" ++ endl
  | ps_reply_next c =>
      indent 1 ++ "if err2 := " ++ render_oprot_call c
      ++ "; err == nil && err2 != nil {" ++ endl
      ++ indent 1 ++ "  err = err2" ++ endl
      ++ indent 1 ++ "}" ++ endl
  | ps_epilogue =>
      indent 1 ++ "if err != nil {" ++ endl
      ++ indent 1 ++ "  return" ++ endl
      ++ indent 1 ++ "}" ++ endl
      ++ indent 1 ++ "return true, err" ++ endl
  end.

Definition render_process_function (tservice : t_service)
    (tfunction : t_function) : option string :=
  match generate_process_function tservice tfunction,
        publicize (svc_get_name tservice) with
  | Some (processorName, body), Some handlerType =>
      Some (indent 0 ++ "type " ++ processorName ++ " struct {" ++ endl
            ++ indent 0 ++ "  handler " ++ handlerType ++ endl
            ++ indent 0 ++ "  listener thrift.THandlerListener" ++ endl
            ++ indent 0 ++ "}" ++ endl ++ endl
            ++ indent 0 ++ "func (p *" ++ processorName
            ++ ") Process(request thrift.Request) (success bool, err thrift.TException) {"
            ++ endl
            ++ String.concat EmptyString (map render_process_stmt body)
            ++ indent 0 ++ "}" ++ endl ++ endl)
  | _, _ => None
  end.

End Generator.

(** The indentation of [t_generator]: two blanks a level; and an
    [escape_string] for names that hold nothing to escape. *)
Fixpoint indent2 (n : nat) : string :=
  match n with O => EmptyString | S n => "  " ++ indent2 n end.
Definition escape_plain (s : string) : string := s.

(** service Notifier { oneway void ping(1: i32 n) } *)
Definition no_fields (name : string) : t_struct :=
  {| struct_get_name := name;
     struct_get_members := [];
     struct_get_sorted_members := [] |}.

Definition ping : t_function :=
  let n := {| field_get_name := "n"; field_get_key := 1;
              field_get_type := t_base_type TYPE_I32 false;
              field_get_req := T_OPT_IN_REQ_OUT; field_get_value := None |} in
  {| fn_get_name := "ping";
     fn_get_returntype := t_base_type TYPE_VOID false;
     fn_get_arglist :=
       {| struct_get_name := "ping_args";
          struct_get_members := [n];
          struct_get_sorted_members := [n] |};
     fn_get_xceptions := no_fields "ping_xceptions";
     fn_is_oneway := true |}.

(** i32 lookup(1: string key) throws (1: NotFound nf) *)
Definition lookup : t_function :=
  let key := {| field_get_name := "key"; field_get_key := 1;
                field_get_type := t_base_type TYPE_STRING false;
                field_get_req := T_OPT_IN_REQ_OUT; field_get_value := None |} in
  let nf := {| field_get_name := "nf"; field_get_key := 1;
               field_get_type := t_struct_ref None "NotFound" true;
               field_get_req := T_OPT_IN_REQ_OUT; field_get_value := None |} in
  {| fn_get_name := "lookup";
     fn_get_returntype := t_base_type TYPE_I32 false;
     fn_get_arglist :=
       {| struct_get_name := "lookup_args";
          struct_get_members := [key];
          struct_get_sorted_members := [key] |};
     fn_get_xceptions :=
       {| struct_get_name := "lookup_xceptions";
          struct_get_members := [nf];
          struct_get_sorted_members := [nf] |};
     fn_is_oneway := false |}.

Definition Notifier : t_service :=
  {| svc_get_name := "Notifier"; svc_get_functions := [ping] |}.

(** enum Color { RED, GREEN, BLUE = 5 } *)
Definition Color : t_enum :=
  {| enum_get_name := "Color";
     enum_get_constants :=
       [ {| ev_get_name := "RED";   ev_has_value := false; ev_get_value := 0 |};
         {| ev_get_name := "GREEN"; ev_has_value := false; ev_get_value := 0 |};
         {| ev_get_name := "BLUE";  ev_has_value := true;  ev_get_value := 5 |} ] |}.

(* ================================================================== *)
(** * Notions the properties are stated with                            *)
(* ================================================================== *)

(** One left-to-right pass over a segment: an underscore followed by a
    character that [trigger] accepts gives way to that character in upper
    case, and the pass goes on behind it. *)
Fixpoint collapse (trigger : ascii -> bool) (s : string) : string :=
  match s with
  | String a (String b rest as tl) =>
      if Ascii.eqb a "_"%char && trigger b
      then String (toupper b) (collapse trigger rest)
      else String a (collapse trigger tl)
  | _ => s
  end.

(** No underscore of [s] is followed by an upper-case letter. *)
Fixpoint no_underscore_upper (s : string) : bool :=
  match s with
  | String a (String b _ as tl) =>
      negb (Ascii.eqb a "_"%char && isupper b) && no_underscore_upper tl
  | _ => true
  end.

(** The positions [a], [a + 1], ... , [a + n - 1]. *)
Definition zrange (a : Z) (n : nat) : list Z :=
  map (fun k => (a + Z.of_nat k)%Z) (seq 0 n).

(** One more than the highest key of the fields, 0 if there is none. *)
Definition key_bound (fields : list t_field) : Z :=
  fold_right (fun f acc => Z.max (field_get_key f + 1) acc) 0%Z fields.

(** What a walk over the key positions leaves at position [p]: the
    declaration of the field with key [p] if there is one, else an unused
    marker, but none at position 0. *)
Definition walk_line (fields : list t_field) (p : Z) : list decl_line :=
  match find (fun f => Z.eqb (field_get_key f) p) fields with
  | Some f => [tagged_field f p]
  | None => if Z.eqb p 0 then [] else [unused_field p]
  end.

Definition walk_positions (fields : list t_field) : list decl_line :=
  flat_map (walk_line fields) (zrange 0 (Z.to_nat (key_bound fields))).

(** The sorted view is empty or starts at a key that is not negative. *)
Definition starts_nonneg (sorted_members : list t_field) : bool :=
  match sorted_members with
  | [] => true
  | m0 :: _ => Z.leb 0 (field_get_key m0)
  end.


(** struct Gap { 1: i32 a, 3: string c } and
    struct Neg { -1: i32 y, -2: i32 x }, the latter declared in this order. *)
Definition fld (name : string) (key : Z) (type : t_type) : t_field :=
  {| field_get_name := name; field_get_key := key; field_get_type := type;
     field_get_req := T_OPT_IN_REQ_OUT; field_get_value := None |}.

(** struct Paint { 1: required Color color, 2: optional i32 layers,
                   3: string name } *)
Definition Paint_color : t_field :=
  {| field_get_name := "color"; field_get_key := 1;
     field_get_type := t_enum_ref None "Color";
     field_get_req := T_REQUIRED; field_get_value := None |}.
Definition Paint_layers : t_field :=
  {| field_get_name := "layers"; field_get_key := 2;
     field_get_type := t_base_type TYPE_I32 false;
     field_get_req := T_OPTIONAL; field_get_value := None |}.
Definition Paint_name : t_field := fld "name" 3 (t_base_type TYPE_STRING false).
Definition Paint : t_struct :=
  {| struct_get_name := "Paint";
     struct_get_members := [Paint_color; Paint_layers; Paint_name];
     struct_get_sorted_members := [Paint_color; Paint_layers; Paint_name] |}.

Definition Gap : t_struct :=
  let a := fld "a" 1 (t_base_type TYPE_I32 false) in
  let c := fld "c" 3 (t_base_type TYPE_STRING false) in
  {| struct_get_name := "Gap";
     struct_get_members := [a; c];
     struct_get_sorted_members := [a; c] |}.

Definition Neg : t_struct :=
  let y := fld "y" (-1) (t_base_type TYPE_I32 false) in
  let x := fld "x" (-2) (t_base_type TYPE_I32 false) in
  {| struct_get_name := "Neg";
     struct_get_members := [y; x];
     struct_get_sorted_members := [x; y] |}.

(* ================================================================== *)
(** * More of the generator                                             *)
(* ================================================================== *)

(** ** new_prefix *)

(** [new_prefix]:
<<
    if (value.size() <= 0) return value;
    string::size_type dot_pos = value.rfind('.');
    if (dot_pos != string::npos) {
      return value.substr(0, dot_pos + 1) + "New" + publicize(value.substr(dot_pos + 1));
    }
    return "New" + publicize(value);
>>  *)
Definition new_prefix (value : string) : option string :=
  if Nat.leb (Str.size value) 0 then Some value
  else
    match Str.rfind "."%char value with
    | Some dot_pos =>
        match publicize (Str.substr_from (dot_pos + 1) value) with
        | Some p => Some (Str.substr 0 (dot_pos + 1) value ++ "New" ++ p)
        | None => None
        end
    | None =>
        match publicize value with
        | Some p => Some ("New" ++ p)
        | None => None
        end
    end.

(** What [publicize] makes of a segment without dot. *)
Definition capitalized (segment : string) : string :=
  match segment with
  | EmptyString => EmptyString
  | String c rest => String (toupper c) (collapse islower rest)
  end.

(** ** The names of the constructor of a result struct *)

(** [generate_go_struct_definition] declares the constructor of a struct as
<<
    std::string tstruct_name(publicize(tstruct->get_name()));
    ... "func New" << tstruct_name << "() *" << tstruct_name << " {" ...
>>  *)
Definition declared_constructor (tstruct : t_struct) : option string :=
  match publicize (struct_get_name tstruct) with
  | Some tstruct_name => Some ("New" ++ tstruct_name)
  | None => None
  end.

(** The [recv] half of the client calls it as
<<
    std::string resultname = publicize(f->get_name()) + "Result";
    ... result << " := New" << publicize(resultname) << "()" ...
>>  *)
Definition client_result_constructor (f : t_function) : option string :=
  match publicize (fn_get_name f) with
  | Some n =>
      match publicize (n ++ "Result") with
      | Some resultname => Some ("New" ++ resultname)
      | None => None
      end
  | None => None
  end.

(** ... and [generate_process_function] as ["result := New" << resultname],
    the [ps_new_result] of the body it generates. *)
Fixpoint process_result_constructor (body : list process_stmt) : option string :=
  match body with
  | [] => None
  | ps_new_result resultname :: _ => Some ("New" ++ resultname)
  | _ :: rest => process_result_constructor rest
  end.

(** ** generate_go_struct_reader: the dispatch on the field id *)

(** A [case] of the [switch fieldId { ... }] of the generated [Read]:
<<
    case <label>:
      if err := p.<method>(iprot); err != nil { return err }
>>
    written for every member, in declaration order, with
<<
    field_id = f->get_key();
    string field_method_prefix("readField");
    if (field_id < 0) { field_method_prefix += "_"; field_id *= -1; }
    ... out << "case " << field_id << ":" ...
    thriftFieldTypeId = type_to_enum(f->get_type());
    ... "if err := p." << field_method_prefix << field_id << "(iprot); ..." ...
>>
    [thriftFieldTypeId] is not written, but [type_to_enum] can throw. *)
Record read_case := {
  rc_field : t_field;
  rc_label : Z;
  rc_method : string
}.

Definition reader_case (f : t_field) : option read_case :=
  match type_to_enum (field_get_type f) with
  | Some thriftFieldTypeId =>
      Some {| rc_field := f;
              rc_label := field_id_of (field_get_key f);
              rc_method := field_method "readField" (field_get_key f) |}
  | None => None
  end.

Definition reader_cases (tstruct : t_struct) : option (list read_case) :=
  mapM reader_case (struct_get_members tstruct).

(** What the generated [Read] does with a field header of id [fieldId]:
    it calls the per-field reader of the first [case] with that label, or
    takes the [default:] branch, which skips the field with
    [iprot.Skip(fieldTypeId)]; for a struct without members the generator
    writes no [switch] at all ([first] stays [true]), and the field is
    neither read nor skipped before [ReadFieldEnd]. *)
Inductive read_action :=
| call_reader (method : string)
| skip_field
| no_switch.

Fixpoint dispatch_cases (cases : list read_case) (fieldId : Z) : read_action :=
  match cases with
  | [] => skip_field
  | c :: rest =>
      if Z.eqb fieldId (rc_label c) then call_reader (rc_method c)
      else dispatch_cases rest fieldId
  end.

Definition dispatch (cases : list read_case) (fieldId : Z) : read_action :=
  match cases with
  | [] => no_switch
  | _ :: _ => dispatch_cases cases fieldId
  end.

(** The id a generated per-field writer puts on the wire:
<<
    field_id = f->get_key();
    if (field_id < 0) { field_method_prefix += "_"; field_id *= -1; }
    ... "if err := oprot.WriteFieldBegin(" << escape_field_name << ", "
        << type_to_enum(f->get_type()) << ", " << field_id << "); ..."
>>  *)
Definition written_field_id (w : field_writer) : Z :=
  field_id_of (field_get_key (fw_field w)).

(** ** init_generator: the package directory and the package name *)

(** [s.find(c)]: the first position of [c]; [None] is [string::npos]. *)
Fixpoint find_char (c : ascii) (s : string) : option nat :=
  match s with
  | EmptyString => None
  | String a r =>
      if Ascii.eqb a c then Some 0
      else match find_char c r with
           | Some i => Some (S i)
           | None => None
           end
  end.

(** The state of the first loop of [init_generator]: what is left of
    [module], [package_dir_], [package_name_], and the directories made so
    far. *)
Record package_state := {
  ps_module : string;
  ps_package_dir : string;
  ps_package_name : string;
  ps_mkdir : list string
}.

(** <<
    while (true) {
        MKDIR(package_dir_.c_str());
        if (module.empty()) break;
        string::size_type pos = module.find('.');
        if (pos == string::npos) {
            package_dir_ += "/"; package_dir_ += module;
            package_name_ = module; module.clear();
        } else {
            package_dir_ += "/"; package_dir_ += module.substr(0, pos);
            module.erase(0, pos + 1);
        }
    }
>>  *)
Fixpoint package_loop (fuel : nat) (st : package_state) : option package_state :=
  match fuel with
  | O => None
  | S fuel' =>
      let st := {| ps_module := ps_module st;
                   ps_package_dir := ps_package_dir st;
                   ps_package_name := ps_package_name st;
                   ps_mkdir := ps_mkdir st ++ [ps_package_dir st] |} in
      if Nat.eqb (Str.size (ps_module st)) 0 then Some st
      else
        match find_char "."%char (ps_module st) with
        | None =>
            package_loop fuel'
              {| ps_module := EmptyString;
                 ps_package_dir := (ps_package_dir st ++ "/") ++ ps_module st;
                 ps_package_name := ps_module st;
                 ps_mkdir := ps_mkdir st |}
        | Some pos =>
            package_loop fuel'
              {| ps_module := Str.substr_from (pos + 1) (ps_module st);
                 ps_package_dir :=
                   (ps_package_dir st ++ "/") ++ Str.substr 0 pos (ps_module st);
                 ps_package_name := ps_package_name st;
                 ps_mkdir := ps_mkdir st |}
        end
  end.

(** [init_generator], as far as the package goes: [module] is
    [get_real_go_module(program_)], [out_dir] is [get_out_dir()], and
    [package_name_] starts as the empty string. *)
Definition init_generator (module out_dir : string) : option package_state :=
  package_loop (S (S (Str.size module)))
    {| ps_module := module;
       ps_package_dir := out_dir;
       ps_package_name := EmptyString;
       ps_mkdir := [] |}.

(** The loop of [render_includes] over the module of an included program:
<<
    size_t found = 0;
    for (size_t j = 0; j < go_module.size(); j++) {
        if (go_module[j] == '.') { go_module[j] = '/'; found = j + 1; }
    }
    result += TAB QUOTE + gen_package_prefix_ + go_module + QUOTE NEWLINE;
    unused_prot += "var _ = " + go_module.substr(found) + ".GoUnusedProtection__" NEWLINE;
>>
    [j] is the number of characters behind it, [done] these characters once
    changed. *)
Fixpoint include_loop (j found : nat) (done rest : string) : string * nat :=
  match rest with
  | EmptyString => (done, found)
  | String a r =>
      if Ascii.eqb a "."%char
      then include_loop (S j) (j + 1) (done ++ "/") r
      else include_loop (S j) found (done ++ String a EmptyString) r
  end.

Definition include_import_path (gen_package_prefix go_module : string) : string :=
  gen_package_prefix ++ fst (include_loop 0 0 EmptyString go_module).

Definition include_package (go_module : string) : string :=
  let '(slashed, found) := include_loop 0 0 EmptyString go_module in
  Str.substr_from found slashed.

(** The module of a type of another program, as [type_name] writes it in
    front of the name of the type. *)
Definition type_name_qualifier (module : string) : string :=
  match Str.rfind "."%char module with
  | Some dot => Str.substr_from (dot + 1) module
  | None => module
  end.

(** The part of a name behind its last dot, the whole name if it has no
    dot; and the name with a slash for every dot. *)
Fixpoint final_segment (s : string) : string :=
  match s with
  | EmptyString => EmptyString
  | String a r => if Str.contains "."%char r then final_segment r
                  else if Ascii.eqb a "."%char then r else s
  end.

Fixpoint dots_to_slashes (s : string) : string :=
  match s with
  | EmptyString => EmptyString
  | String a r =>
      String (if Ascii.eqb a "."%char then "/"%char else a) (dots_to_slashes r)
  end.

(** Is the last character of [s] a dot. *)
Fixpoint ends_with_dot (s : string) : bool :=
  match s with
  | EmptyString => false
  | String a r =>
      match r with
      | EmptyString => Ascii.eqb a "."%char
      | String _ _ => ends_with_dot r
      end
  end.

(** ** generate_deserialize_field *)

(** Modelled from the spec: [t_generator::tmp], "a single run-scoped
    counter; next(prefix) -> prefix + counter; counter += 1". *)
Definition tmp (name : string) (counter : nat) : string * nat :=
  (name ++ show_int (Z.of_nat counter), S counter).

(** The statements that read one value, the texts of their error messages
    left out:
<<
    <prefix> := <constructor>()               ( = without declare )
    if err := <prefix>.Read(iprot); err != nil { ... }

    var <declared name> <declared type>       ( with declare only )
    if v, err := iprot.<method>(); err != nil { ... } else {
      <name> = <wrap>(v)                      ( = v without wrap )
    }

    _, _, size, err := iprot.ReadMapBegin()
    <prefix> := make(map[<key_type>]<val_type>, size)
    for i := 0; i < size; i ++ {
      <k> <v>
      <prefix>[<key>] = <val>
    }
    if err := iprot.ReadMapEnd(); ...
>>
    and likewise a set, with [make(map[<elem_type>]bool, size)] and
    [<prefix>[<elem>] = true], and a list, with [make(<list_type>, 0, size)]
    and [<prefix> = append(<prefix>, <elem>)]. *)
Inductive read_code :=
| rd_struct (declare : bool) (prefix constructor : string)
| rd_value (declared : option (string * string)) (method name wrap : string)
| rd_map (declare : bool) (prefix key_type val_type key val : string)
         (k v : read_code)
| rd_set (declare : bool) (prefix elem_type elem : string) (e : read_code)
| rd_list (declare : bool) (prefix list_type elem : string) (e : read_code).

(** The [switch (tbase)] of [generate_deserialize_field]. *)
Definition read_call (tbase : t_base) (is_binary : bool) : option string :=
  match tbase with
  | TYPE_VOID => None
  | TYPE_STRING => Some (if is_binary then "ReadBinary" else "ReadString")
  | TYPE_BOOL => Some "ReadBool"
  | TYPE_BYTE => Some "ReadByte"
  | TYPE_I16 => Some "ReadI16"
  | TYPE_I32 => Some "ReadI32"
  | TYPE_I64 => Some "ReadI64"
  | TYPE_DOUBLE => Some "ReadDouble"
  end.

Definition is_typedef (t : t_type) : bool :=
  match t with t_typedef _ _ _ => true | _ => false end.

(** The branch of a base type or an enum:
<<
    if (declare) {
        out << "var " << tfield->get_name() << " " << type_to_go_type(tfield->get_type()) << endl;
    }
    ...
    if (type->is_enum() || orig_type->is_typedef()) {
        wrap = publicize(type_name(orig_type));
    } else if (type->get_base() == t_base_type::TYPE_BYTE) {
        wrap = "int8";
    }
>>  *)
Definition deserialize_value (orig_type : t_type) (tfield_name : string)
    (declare : bool) (name method : string) (type_is_enum base_is_byte : bool)
    : option read_code :=
  let declared :=
    if declare then
      match type_to_go_type orig_type with
      | Some go_type => Some (Some (tfield_name, go_type))
      | None => None
      end
    else Some None in
  let wrap :=
    if type_is_enum || is_typedef orig_type then publicize (type_name orig_type)
    else if base_is_byte then Some "int8"
    else Some "" in
  match declared, wrap with
  | Some declared, Some wrap => Some (rd_value declared method name wrap)
  | _, _ => None
  end.

(** [generate_deserialize_field] at a field of type [orig_type] and name
    [tfield_name], with [generate_deserialize_struct],
    [generate_deserialize_container] and the three [_element] functions
    written out where they are called. [type] is what is left of
    [orig_type] on the way to [get_true_type(orig_type)]; [counter] is the
    counter of [tmp] before, and the result has the counter after. [None] is
    a [throw]. *)
Fixpoint deserialize_field (orig_type type : t_type) (tfield_name : string)
    (declare : bool) (prefix : string) (counter : nat) {struct type}
    : option (read_code * nat) :=
  match publicize (variable_name_to_go_name tfield_name) with
  | None => None
  | Some go_name =>
      let name := prefix ++ go_name in
      match type with
      | t_typedef _ _ true_type =>
          deserialize_field orig_type true_type tfield_name declare prefix counter
      | t_base_type tbase is_binary =>
          match read_call tbase is_binary with
          | Some method =>
              match deserialize_value orig_type tfield_name declare name method
                      false
                      match tbase with TYPE_BYTE => true | _ => false end with
              | Some code => Some (code, counter)
              | None => None
              end
          | None => None
          end
      | t_enum_ref _ _ =>
          match deserialize_value orig_type tfield_name declare name "ReadI32"
                  true false with
          | Some code => Some (code, counter)
          | None => None
          end
      | t_struct_ref _ _ _ =>
          match new_prefix (type_name type) with
          | Some constructor => Some (rd_struct declare name constructor, counter)
          | None => None
          end
      | t_map key_type val_type =>
          match type_to_go_type key_type, type_to_go_type val_type with
          | Some key_go, Some val_go =>
              let '(key, counter) := tmp "_key" counter in
              let '(val, counter) := tmp "_val" counter in
              match deserialize_field key_type key_type key true "" counter with
              | Some (k, counter) =>
                  match deserialize_field val_type val_type val true "" counter with
                  | Some (v, counter) =>
                      Some (rd_map declare name key_go val_go key val k v, counter)
                  | None => None
                  end
              | None => None
              end
          | _, _ => None
          end
      | t_set elem_type =>
          match type_to_go_type elem_type with
          | Some elem_go =>
              let '(elem, counter) := tmp "_elem" counter in
              match deserialize_field elem_type elem_type elem true "" counter with
              | Some (e, counter) =>
                  Some (rd_set declare name elem_go elem e, counter)
              | None => None
              end
          | None => None
          end
      | t_list elem_type =>
          match type_to_go_type type with
          | Some list_go =>
              let '(elem, counter) := tmp "_elem" counter in
              match deserialize_field elem_type elem_type elem true "" counter with
              | Some (e, counter) =>
                  Some (rd_list declare name list_go elem e, counter)
              | None => None
              end
          | None => None
          end
      end
  end.

Definition generate_deserialize_field (orig_type : t_type)
    (tfield_name : string) (declare : bool) (prefix : string) (counter : nat)
    : option (read_code * nat) :=
  deserialize_field orig_type orig_type tfield_name declare prefix counter.

(** ** What goes over the wire *)

(** The protocol calls of a value, by kind: [wire_value "I32"] stands for
    [WriteI32] on the way out and [ReadI32] on the way in. *)
Inductive wire :=
| wire_value (kind : string)
| wire_struct
| wire_map (k v : wire)
| wire_set (e : wire)
| wire_list (e : wire).

Fixpoint wire_of_write (c : write_code) : wire :=
  match c with
  | wc_struct _ => wire_struct
  | wc_value method _ _ => wire_value (Str.substr_from (Str.size "Write") method)
  | wc_map _ _ _ k v => wire_map (wire_of_write k) (wire_of_write v)
  | wc_set _ _ e => wire_set (wire_of_write e)
  | wc_list _ _ e => wire_list (wire_of_write e)
  end.

Fixpoint wire_of_read (c : read_code) : wire :=
  match c with
  | rd_struct _ _ _ => wire_struct
  | rd_value _ method _ _ => wire_value (Str.substr_from (Str.size "Read") method)
  | rd_map _ _ _ _ _ _ k v => wire_map (wire_of_read k) (wire_of_read v)
  | rd_set _ _ _ _ e => wire_set (wire_of_read e)
  | rd_list _ _ _ _ e => wire_list (wire_of_read e)
  end.

(** The type code of the Go library that goes with a kind of call, and
    whether a code written in a header is that code, case apart
    ([thrift.DOUBLE] for [WriteDouble]). *)
Definition wire_enum (w : wire) : string :=
  match w with
  | wire_value kind => "thrift." ++ kind
  | wire_struct => "thrift.STRUCT"
  | wire_map _ _ => "thrift.MAP"
  | wire_set _ => "thrift.SET"
  | wire_list _ => "thrift.LIST"
  end.

Definition names_wire (enum : string) (w : wire) : bool :=
  String.eqb (Str.transform_tolower enum) (Str.transform_tolower (wire_enum w)).

(** Every container header of [c] names the calls that write its elements. *)
Fixpoint headers_agree (c : write_code) : bool :=
  match c with
  | wc_map _ key_enum val_enum k v =>
      names_wire key_enum (wire_of_write k) && names_wire val_enum (wire_of_write v)
      && headers_agree k && headers_agree v
  | wc_set _ elem_enum e => names_wire elem_enum (wire_of_write e) && headers_agree e
  | wc_list _ elem_enum e => names_wire elem_enum (wire_of_write e) && headers_agree e
  | _ => true
  end.

(** The variable a piece of reading code leaves the value in; does the
    piece declare that variable; and the temporaries of a piece. *)
Definition read_target (c : read_code) : string :=
  match c with
  | rd_struct _ prefix _ => prefix
  | rd_value _ _ name _ => name
  | rd_map _ prefix _ _ _ _ _ _ => prefix
  | rd_set _ prefix _ _ _ => prefix
  | rd_list _ prefix _ _ _ => prefix
  end.

Definition declares_target (c : read_code) : bool :=
  match c with
  | rd_struct declare _ _ => declare
  | rd_value (Some (declared, _)) _ name _ => String.eqb declared name
  | rd_value None _ _ _ => false
  | rd_map declare _ _ _ _ _ _ _ => declare
  | rd_set declare _ _ _ _ => declare
  | rd_list declare _ _ _ _ => declare
  end.

(** Every statement that puts an element into a container takes it from
    the variable the code of the element declares and fills. *)
Fixpoint well_scoped (c : read_code) : bool :=
  match c with
  | rd_map _ _ _ _ key val k v =>
      String.eqb (read_target k) key && declares_target k
      && String.eqb (read_target v) val && declares_target v
      && well_scoped k && well_scoped v
  | rd_set _ _ _ elem e =>
      String.eqb (read_target e) elem && declares_target e && well_scoped e
  | rd_list _ _ _ elem e =>
      String.eqb (read_target e) elem && declares_target e && well_scoped e
  | _ => true
  end.

Fixpoint temporaries (c : read_code) : list string :=
  match c with
  | rd_map _ _ _ _ key val k v =>
      key :: val :: (temporaries k ++ temporaries v)%list
  | rd_set _ _ _ elem e => elem :: temporaries e
  | rd_list _ _ _ elem e => elem :: temporaries e
  | _ => []
  end.

(** ** argument_list, function_signature, function_signature_if *)

(** The loop of [argument_list]:
<<
    for (f_iter = fields.begin(); f_iter != fields.end(); ++f_iter) {
        if (first) { first = false; } else { result += ", "; }
        result += variable_name_to_go_name(f->get_name()) + " " + type_to_go_type(f->get_type());
    }
>>  *)
Fixpoint argument_loop (first : bool) (result : string) (fields : list t_field)
    : option string :=
  match fields with
  | [] => Some result
  | f :: rest =>
      let result := if first then result else result ++ ", " in
      match type_to_go_type (field_get_type f) with
      | Some go_type =>
          argument_loop false
            (result ++ (variable_name_to_go_name (field_get_name f) ++ " " ++ go_type))
            rest
      | None => None
      end
  end.

Definition argument_list (tstruct : t_struct) : option string :=
  argument_loop true "" (struct_get_members tstruct).

(** [function_signature]:
<<
    return publicize(prefix + tfunction->get_name()) +
           "(" + argument_list(tfunction->get_arglist()) + ")";
>>  *)
Definition function_signature (tfunction : t_function) (prefix : string)
    : option string :=
  match publicize (prefix ++ fn_get_name tfunction),
        argument_list (fn_get_arglist tfunction) with
  | Some name, Some arguments => Some (name ++ "(" ++ arguments ++ ")")
  | _, _ => None
  end.

(** [function_signature_if]:
<<
    string signature = publicize(prefix + tfunction->get_name()) + "(";
    signature += argument_list(tfunction->get_arglist()) + ") (";
    string errs = argument_list(exceptions);
    if (!ret->is_void()) {
        signature += "r " + type_to_go_type(ret);
        if (addError || errs.size() == 0) { signature += ", "; }
    }
    if (errs.size() > 0) {
        signature += errs;
        if (addError) { signature += ", "; }
    }
    if (addError) { signature += "err error"; }
    signature += ")";
>>  *)
Definition function_signature_if (tfunction : t_function) (prefix : string)
    (addError : bool) : option string :=
  match publicize (prefix ++ fn_get_name tfunction),
        argument_list (fn_get_arglist tfunction),
        argument_list (fn_get_xceptions tfunction) with
  | Some name, Some arguments, Some errs =>
      let signature := name ++ "(" in
      let signature := signature ++ (arguments ++ ") (") in
      let ret := fn_get_returntype tfunction in
      let with_return :=
        if negb (is_void ret) then
          match type_to_go_type ret with
          | Some go_type =>
              let signature := signature ++ ("r " ++ go_type) in
              Some (if addError || Nat.eqb (Str.size errs) 0
                    then signature ++ ", " else signature)
          | None => None
          end
        else Some signature in
      match with_return with
      | Some signature =>
          let signature :=
            if Nat.ltb 0 (Str.size errs) then
              let signature := signature ++ errs in
              if addError then signature ++ ", " else signature
            else signature in
          let signature :=
            if addError then signature ++ "err error" else signature in
          Some (signature ++ ")")
      | None => None
      end
  | _, _, _ => None
  end.

(** The results of the [recv] half of a client method, between the
    parentheses, in [generate_service_client]:
<<
    ... "func (p *" << serviceName << "Client) recv" << publicize(f->get_name()) << "() (";
    if (!f->get_returntype()->is_void()) {
        f_service_ << "value " << type_to_go_type(f->get_returntype()) << ", ";
    }
    string errs = argument_list(exceptions);
    if (errs.size()) { f_service_ << errs << ", "; }
    f_service_ << "err error) {" << endl;
>>  *)
Definition recv_results (f : t_function) : option string :=
  let value :=
    if negb (is_void (fn_get_returntype f)) then
      match type_to_go_type (fn_get_returntype f) with
      | Some go_type => Some ("value " ++ go_type ++ ", ")
      | None => None
      end
    else Some "" in
  match value, argument_list (fn_get_xceptions f) with
  | Some value, Some errs =>
      Some (value
            ++ (if negb (Nat.eqb (Str.size errs) 0) then errs ++ ", " else "")
            ++ "err error")
  | _, _ => None
  end.

(** The declaration of one argument, as [argument_list] writes it. *)
Definition argument (f : t_field) : option string :=
  match type_to_go_type (field_get_type f) with
  | Some go_type =>
      Some (variable_name_to_go_name (field_get_name f) ++ " " ++ go_type)
  | None => None
  end.

(** ** generate_service_server: the processors of the functions *)

(** The processor types that the constructor of the processor of a service
    puts into the processor map, one for each function:
<<
    string serviceName(publicize(tservice->get_name()));
    string pServiceName(privatize(serviceName));
    ...
    for (f_iter = functions.begin(); f_iter != functions.end(); ++f_iter) {
        ... "&" << pServiceName << "Processor" << publicize(f->get_name())
            << "{handler:handler, listener:listener}" ...
    }
>>
    on both branches, of a service that extends another and of one that
    does not. *)
Definition registered_processors (tservice : t_service) : option (list string) :=
  match publicize (svc_get_name tservice) with
  | Some serviceName =>
      match privatize serviceName with
      | Some pServiceName =>
          mapM (fun f =>
                  match publicize (fn_get_name f) with
                  | Some fName => Some (pServiceName ++ "Processor" ++ fName)
                  | None => None
                  end)
               (svc_get_functions tservice)
      | None => None
      end
  | None => None
  end.

(** No underscore of [s] is followed by an underscore. *)
Fixpoint no_double_underscore (s : string) : bool :=
  match s with
  | String a (String b _ as tl) =>
      negb (Ascii.eqb a "_"%char && Ascii.eqb b "_"%char) && no_double_underscore tl
  | _ => true
  end.

(** The Go type of the container that a piece of reading code makes:
    [make(map[<key_type>]<val_type>, size)], [make(map[<elem_type>]bool, size)]
    or [make(<list_type>, 0, size)]. *)
Definition allocated_type (c : read_code) : option string :=
  match c with
  | rd_map _ _ key_type val_type _ _ _ _ =>
      Some ("map[" ++ key_type ++ "]" ++ val_type)
  | rd_set _ _ elem_type _ _ => Some ("map[" ++ elem_type ++ "]bool")
  | rd_list _ _ list_type _ _ => Some list_type
  | _ => None
  end.

(** The field has a [case] of its own in the switch of a result writer: it
    can be nil and its key is not 0. *)
Definition nil_guarded (f : t_field) : bool :=
  match can_be_nil (field_get_type f) with
  | Some true => negb (Z.eqb (field_get_key f) 0)
  | _ => false
  end.


Definition decl_line_name (l : decl_line) : option string :=
  match l with
  | unused_field _ => None
  | tagged_field m _ => publicize (variable_name_to_go_name (field_get_name m))
  | plain_field m => publicize (field_get_name m)
  end.


(** struct Reserved { Color type }: the field has no key of its own and
    gets the key -1. *)
Definition Reserved_type : t_field := fld "type" (-1) (t_enum_ref None "Color").
Definition Reserved : t_struct :=
  {| struct_get_name := "Reserved";
     struct_get_members := [Reserved_type];
     struct_get_sorted_members := [Reserved_type] |}.

(** A [render_const_value] for the examples: the integer constants of the
    integer types, [out << value->get_integer()]. *)
Definition render_const_integer (type : t_type) (value : t_const_value)
    (name : string) : option string :=
  match type, value with
  | t_base_type (TYPE_BYTE | TYPE_I16 | TYPE_I32 | TYPE_I64) _, CV_INTEGER i =>
      Some (show_int i)
  | _, _ => None
  end.

(** [t] is a name [tmp] gave out to the reading code between the counters
    [lo] and [hi]. *)
Definition tmp_between (lo hi : nat) (t : string) : Prop :=
  exists name i, In name ["_key"; "_val"; "_elem"] /\ lo <= i < hi
                 /\ t = fst (tmp name i).

(** The characters of [s] are decimal digits. *)
Fixpoint all_digits (s : string) : bool :=
  match s with
  | EmptyString => true
  | String a r =>
      Nat.leb 48 (nat_of_ascii a) && Nat.leb (nat_of_ascii a) 57 && all_digits r
  end.

(** No underscore of [s] is followed by a lower-case letter. *)
Fixpoint no_underscore_lower (s : string) : bool :=
  match s with
  | String a (String b _ as tl) =>
      negb (Ascii.eqb a "_"%char && islower b) && no_underscore_lower tl
  | _ => true
  end.

(* ================================================================== *)
(** * Properties                                                        *)
(* ================================================================== *)

(** ** Strings *)

Section StringFacts.

Lemma size_app (s t : string) : Str.size (s ++ t) = Str.size s + Str.size t.
Proof. induction s as [|a s IH]; simpl; [reflexivity | now rewrite <- IH]. Qed.

Lemma app_assoc_str (s t u : string) : (s ++ t) ++ u = s ++ (t ++ u).
Proof. induction s as [|a s IH]; simpl; [reflexivity | now rewrite IH]. Qed.

Lemma app_empty_r (s : string) : s ++ "" = s.
Proof. induction s as [|a s IH]; simpl; [reflexivity | now rewrite IH]. Qed.

Lemma at_app (pre : string) (a : ascii) (r : string) :
  Str.at_ (Str.size pre) (pre ++ String a r) = Some a.
Proof. induction pre as [|x pre IH]; simpl; [reflexivity | exact IH]. Qed.

Lemma substring_all (s : string) : substring 0 (Str.size s) s = s.
Proof. induction s as [|a s IH]; simpl; [reflexivity | now rewrite IH]. Qed.

Lemma substring_prefix (pre t : string) :
  substring 0 (Str.size pre) (pre ++ t) = pre.
Proof.
  induction pre as [|x pre IH]; simpl.
  - now destruct t.
  - now rewrite IH.
Qed.

Lemma substring_skip (pre t : string) (n : nat) :
  substring (Str.size pre) n (pre ++ t) = substring 0 n t.
Proof. induction pre as [|x pre IH]; simpl; [reflexivity | exact IH]. Qed.

Lemma substr_from_app (pre t : string) :
  Str.substr_from (Str.size pre) (pre ++ t) = t.
Proof.
  unfold Str.substr_from. rewrite size_app, substring_skip.
  replace (Str.size pre + Str.size t - Str.size pre) with (Str.size t) by lia.
  apply substring_all.
Qed.

Lemma replace_2_1_app (pre : string) (a b c : ascii) (r : string) :
  Str.replace_2_1 (Str.size pre) c (pre ++ String a (String b r))
  = pre ++ String c r.
Proof.
  unfold Str.replace_2_1, Str.substr. rewrite substring_prefix. f_equal. f_equal.
  change (pre ++ String a (String b r))
    with (pre ++ (String a (String b "") ++ r)).
  rewrite <- app_assoc_str.
  replace (Str.size pre + 2) with (Str.size (pre ++ String a (String b "")))
    by (rewrite size_app; reflexivity).
  apply substr_from_app.
Qed.

Lemma rfind_absent (c : ascii) (s : string) :
  Str.contains c s = false -> Str.rfind c s = None.
Proof.
  induction s as [|a s IH]; simpl; [reflexivity|].
  intros H. apply orb_false_iff in H as [Ha Hs].
  now rewrite (IH Hs), Ha.
Qed.

Lemma rfind_last (c : ascii) (q seg : string) :
  Str.contains c seg = false ->
  Str.rfind c (q ++ String c seg) = Some (Str.size q).
Proof.
  intros H. induction q as [|a q IH]; simpl.
  - now rewrite (rfind_absent _ _ H), Ascii.eqb_refl.
  - now rewrite IH.
Qed.

End StringFacts.

(** ** The underscore loop computes the one-pass collapse *)

Lemma below_size_minus_1_spec (i : nat) (s : string) :
  Str.size s <> 0 -> below_size_minus_1 i s = Nat.ltb (S i) (Str.size s).
Proof.
  unfold below_size_minus_1. destruct (Str.size s) as [|n]; [congruence|].
  intros _. reflexivity.
Qed.

Lemma underscore_loop_collapse (trigger : ascii -> bool) (fuel : nat)
    (pre rest : string) :
  pre <> "" -> Str.size rest < fuel ->
  underscore_loop trigger fuel (Str.size pre) (pre ++ rest)
  = Some (pre ++ collapse trigger rest).
Proof.
  revert pre rest. induction fuel as [|fuel IH]; intros pre rest Hpre Hfuel; [lia|].
  assert (Hsz : Str.size pre <> 0) by (destruct pre; [congruence | discriminate]).
  cbn [underscore_loop]. rewrite below_size_minus_1_spec by (rewrite size_app; lia).
  rewrite size_app.
  destruct rest as [|a [|b r]].
  - replace (Nat.ltb (S (Str.size pre)) (Str.size pre + Str.size "")) with false
      by (symmetry; apply Nat.ltb_ge; simpl; lia).
    reflexivity.
  - replace (Nat.ltb (S (Str.size pre)) (Str.size pre + Str.size (String a ""))) with false
      by (symmetry; apply Nat.ltb_ge; simpl; lia).
    reflexivity.
  - replace (Nat.ltb (S (Str.size pre)) (Str.size pre + Str.size (String a (String b r))))
      with true by (symmetry; apply Nat.ltb_lt; simpl; lia).
    rewrite at_app.
    replace (Str.size pre + 1) with (Str.size (pre ++ String a ""))
      by (rewrite size_app; reflexivity).
    replace (pre ++ String a (String b r)) with ((pre ++ String a "") ++ String b r)
      at 1 by (now rewrite app_assoc_str).
    rewrite at_app.
    simpl in Hfuel.
    destruct (Ascii.eqb a "_" && trigger b) eqn:E.
    + rewrite size_app. simpl Str.size at 2.
      rewrite replace_2_1_app.
      replace (pre ++ String (toupper b) r)
        with ((pre ++ String (toupper b) "") ++ r) by (now rewrite app_assoc_str).
      replace (Str.size pre + 1) with (Str.size (pre ++ String (toupper b) ""))
        by (rewrite size_app; reflexivity).
      rewrite IH.
      * cbn [collapse]. rewrite E. now rewrite app_assoc_str.
      * destruct pre; [congruence | discriminate].
      * lia.
    + replace (pre ++ String a (String b r)) with ((pre ++ String a "") ++ String b r)
        by (now rewrite app_assoc_str).
      rewrite IH.
      * cbn [collapse]. rewrite E. now rewrite app_assoc_str.
      * destruct pre; [congruence | discriminate].
      * simpl. lia.
Qed.

Lemma toupper_fixes_upper (c : ascii) : isupper c = true -> toupper c = c.
Proof.
  destruct c as [[] [] [] [] [] [] [] []]; vm_compute; congruence.
Qed.

Lemma tolower_fixes_lower (c : ascii) : islower c = true -> tolower c = c.
Proof.
  destruct c as [[] [] [] [] [] [] [] []]; vm_compute; congruence.
Qed.

Lemma set_first_upper (c : ascii) (r : string) :
  set_first isupper toupper (String c r) = String (toupper c) r.
Proof.
  unfold set_first. destruct (isupper c) eqn:E; simpl; [|reflexivity].
  now rewrite toupper_fixes_upper.
Qed.

Lemma set_first_lower (c : ascii) (r : string) :
  set_first islower tolower (String c r) = String (tolower c) r.
Proof.
  unfold set_first. destruct (islower c) eqn:E; simpl; [|reflexivity].
  now rewrite tolower_fixes_lower.
Qed.

(** The closed form of [publicize] on a name split at its last dot. *)
Lemma publicize_segment (c : ascii) (rest : string) :
  Str.contains "." (String c rest) = false ->
  publicize (String c rest) = Some (String (toupper c) (collapse islower rest)).
Proof.
  intros Hdot. unfold publicize. simpl Nat.leb. cbv iota.
  rewrite (rfind_absent _ _ Hdot). cbv beta iota zeta.
  rewrite set_first_upper.
  change (String (toupper c) rest) with (String (toupper c) "" ++ rest) at 2.
  change 1 with (Str.size (String (toupper c) "")).
  rewrite underscore_loop_collapse; [reflexivity | discriminate | simpl; lia].
Qed.

Lemma publicize_qualified (q : string) (c : ascii) (rest : string) :
  Str.contains "." (String c rest) = false ->
  publicize (q ++ String "." (String c rest))
  = Some (q ++ String "." (String (toupper c) (collapse islower rest))).
Proof.
  intros Hdot. unfold publicize.
  assert (Hsz : Nat.leb (Str.size (q ++ String "." (String c rest))) 0 = false).
  { rewrite size_app. simpl. apply Nat.leb_gt. lia. }
  rewrite Hsz, (rfind_last _ _ _ Hdot).
  replace (q ++ String "." (String c rest))
    with ((q ++ String "." "") ++ String c rest) by (now rewrite app_assoc_str).
  replace (Str.size q + 1) with (Str.size (q ++ String "." ""))
    by (rewrite size_app; reflexivity).
  unfold Str.substr. rewrite substring_prefix, substr_from_app, app_empty_r.
  rewrite set_first_upper.
  change (String (toupper c) rest) with (String (toupper c) "" ++ rest) at 2.
  change 1 with (Str.size (String (toupper c) "")).
  rewrite underscore_loop_collapse; [| discriminate | simpl; lia].
  simpl. now rewrite !app_assoc_str.
Qed.

Lemma publicize_trailing_dot (q : string) : publicize (q ++ ".") = None.
Proof.
  unfold publicize.
  assert (Hsz : Nat.leb (Str.size (q ++ ".")) 0 = false).
  { rewrite size_app. simpl. apply Nat.leb_gt. lia. }
  rewrite Hsz, (rfind_last "." q "" eq_refl).
  replace (Str.size q + 1) with (Str.size (q ++ "."))
    by (rewrite size_app; reflexivity).
  pose proof (substr_from_app (q ++ ".") "") as Hs.
  rewrite app_empty_r in Hs. rewrite Hs. reflexivity.
Qed.

Lemma privatize_closed (c : ascii) (rest : string) :
  privatize (String c rest) = Some (String (tolower c) (collapse isalpha rest)).
Proof.
  unfold privatize. simpl Nat.leb. cbv iota zeta.
  rewrite set_first_lower.
  change (String (tolower c) rest) with (String (tolower c) "" ++ rest) at 2.
  change 1 with (Str.size (String (tolower c) "")).
  rewrite underscore_loop_collapse; [reflexivity | discriminate | simpl; lia].
Qed.

Lemma isalpha_not_upper (b : ascii) : isupper b = false -> isalpha b = islower b.
Proof. unfold isalpha. now intros ->. Qed.

Lemma collapse_cons (trigger : ascii -> bool) (a b : ascii) (r : string) :
  collapse trigger (String a (String b r))
  = if Ascii.eqb a "_" && trigger b
    then String (toupper b) (collapse trigger r)
    else String a (collapse trigger (String b r)).
Proof. reflexivity. Qed.

Lemma no_underscore_upper_cons (a b : ascii) (r : string) :
  no_underscore_upper (String a (String b r))
  = negb (Ascii.eqb a "_" && isupper b) && no_underscore_upper (String b r).
Proof. reflexivity. Qed.

Lemma no_underscore_upper_tail (b : ascii) (r : string) :
  no_underscore_upper (String b r) = true -> no_underscore_upper r = true.
Proof.
  destruct r as [|x r]; [reflexivity|].
  rewrite no_underscore_upper_cons. intros H.
  now apply andb_true_iff in H as [_ H].
Qed.

Lemma collapse_alpha_lower (s : string) :
  no_underscore_upper s = true -> collapse isalpha s = collapse islower s.
Proof.
  remember (Str.size s) as n eqn:Hn. revert s Hn.
  induction n as [n IH] using lt_wf_ind. intros s Hn H.
  destruct s as [|a [|b r]]; try reflexivity.
  rewrite no_underscore_upper_cons in H. apply andb_true_iff in H as [H1 H2].
  rewrite !collapse_cons.
  assert (IHtl : collapse isalpha (String b r) = collapse islower (String b r)).
  { apply (IH (Str.size (String b r))); [subst; simpl; lia | reflexivity | exact H2]. }
  assert (IHr : collapse isalpha r = collapse islower r).
  { apply (IH (Str.size r)); [subst; simpl; lia | reflexivity |].
    now apply no_underscore_upper_tail in H2. }
  rewrite IHtl, IHr.
  destruct (Ascii.eqb a "_"); [|reflexivity].
  cbn [andb negb] in H1 |- *. apply negb_true_iff in H1.
  now rewrite (isalpha_not_upper _ H1).
Qed.

Example publicize_my_field_name : publicize "my_field_name" = Some "MyFieldName".
Proof. reflexivity. Qed.
Example publicize_module : publicize "shared.my_t" = Some "shared.MyT".
Proof. reflexivity. Qed.
Example privatize_ex : privatize "My_service" = Some "myService".
Proof. reflexivity. Qed.
Example go_name_Type : variable_name_to_go_name "Type" = "type_a1".
Proof. reflexivity. Qed.

(** ** Keyword safety *)

Lemma contains_app (c : ascii) (s t : string) :
  Str.contains c (s ++ t) = Str.contains c s || Str.contains c t.
Proof.
  induction s as [|a s IH]; simpl; [reflexivity|].
  now rewrite IH, orb_assoc.
Qed.

Lemma suffixed_not_reserved (s : string) : is_reserved (s ++ "_a1") = false.
Proof.
  unfold is_reserved.
  assert (H : forall w, In w reserved_words -> Str.contains "_" w = false).
  { intros w Hw. simpl in Hw.
    repeat (destruct Hw as [<- | Hw]; [reflexivity|]). destruct Hw. }
  induction reserved_words as [|w ws IH]; [reflexivity|].
  simpl. rewrite IH by (intros; apply H; now right).
  rewrite orb_false_r. apply String.eqb_neq. intros E.
  specialize (H w (or_introl eq_refl)).
  rewrite <- E, contains_app in H. simpl in H.
  now rewrite orb_true_r in H.
Qed.

Lemma variable_name_to_go_name_cases (value : string) :
  variable_name_to_go_name value
  = if is_reserved (Str.transform_tolower value)
    then Str.transform_tolower value ++ "_a1"
    else value.
Proof.
  destruct value as [|c r]; [reflexivity|].
  unfold variable_name_to_go_name, is_reserved, reserved_words.
  destruct c as [[] [] [] [] [] [] [] []]; cbn;
    repeat match goal with
           | |- context [String.eqb ?a ?b] => destruct (String.eqb a b)
           end; reflexivity.
Qed.

(** ** Enums *)

Example render_Color :
  option_map (render_enum indent2) (generate_enum escape_plain Color)
  = Some (
    "type Color int64" ++ endl ++
    "const (" ++ endl ++
    "  Color_RED Color = 0" ++ endl ++
    "  Color_GREEN Color = 1" ++ endl ++
    "  Color_BLUE Color = 5" ++ endl ++
    ")" ++ endl ++ endl ++
    "func (p Color) String() string {" ++ endl ++
    "  switch p {" ++ endl ++
    "  case Color_RED: return " ++ dq ++ "Color_RED" ++ dq ++ endl ++
    "  case Color_GREEN: return " ++ dq ++ "Color_GREEN" ++ dq ++ endl ++
    "  case Color_BLUE: return " ++ dq ++ "Color_BLUE" ++ dq ++ endl ++
    "  }" ++ endl ++
    "  return " ++ dq ++ "<UNSET>" ++ dq ++ endl ++
    "}" ++ endl ++ endl ++
    "func ColorFromString(s string) (Color, error) {" ++ endl ++
    "  switch s {" ++ endl ++
    "  case " ++ dq ++ "Color_RED" ++ dq ++ ": return Color_RED, nil " ++ endl ++
    "  case " ++ dq ++ "Color_GREEN" ++ dq ++ ": return Color_GREEN, nil " ++ endl ++
    "  case " ++ dq ++ "Color_BLUE" ++ dq ++ ": return Color_BLUE, nil " ++ endl ++
    "  }" ++ endl ++
    "  return Color(math.MinInt32 - 1), fmt.Errorf(" ++ dq
      ++ "not a valid Color string" ++ dq ++ ")" ++ endl ++
    "}" ++ endl ++ endl ++ endl).
Proof. vm_compute. reflexivity. Qed.

Section EnumFacts.

Variable escape_string : string -> string.

Lemma wrap32_id (z : Z) :
  (MinInt32 <= z <= INT_MAX)%Z -> wrap32 z = z.
Proof.
  unfold wrap32, MinInt32, INT_MAX. intros H.
  rewrite Z.mod_small; lia.
Qed.

Lemma enum_loop_length (t : string) (v0 : Z) (cs : list t_enum_value) :
  length (enum_loop escape_string t v0 cs) = length cs.
Proof.
  revert v0. induction cs as [|c cs IH]; intros v0; simpl; [reflexivity|].
  now rewrite IH.
Qed.

(** The value of a member follows from the member itself and the value of
    the member before it. *)
Lemma enum_loop_first (t : string) (v0 : Z) (c : t_enum_value)
    (cs : list t_enum_value) :
  map ee_value (enum_loop escape_string t v0 (c :: cs))
  = (if ev_has_value c then ev_get_value c else wrap32 (v0 + 1))
    :: map ee_value
         (enum_loop escape_string t
            (if ev_has_value c then ev_get_value c else wrap32 (v0 + 1)) cs).
Proof. reflexivity. Qed.

Lemma enum_loop_next (t : string) (cs : list t_enum_value) :
  forall (v0 : Z) (i : nat) (c : t_enum_value) (v : Z),
    nth_error cs (S i) = Some c ->
    nth_error (map ee_value (enum_loop escape_string t v0 cs)) i = Some v ->
    nth_error (map ee_value (enum_loop escape_string t v0 cs)) (S i)
    = Some (if ev_has_value c then ev_get_value c else wrap32 (v + 1)).
Proof.
  induction cs as [|c0 cs IH]; intros v0 i c v Hc Hv; [discriminate|].
  rewrite enum_loop_first in *.
  destruct i as [|i].
  - destruct cs as [|c1 cs]; [discriminate|].
    simpl in Hc, Hv. injection Hc as <-. injection Hv as <-.
    rewrite enum_loop_first. reflexivity.
  - simpl in Hc, Hv |- *. now apply IH.
Qed.

Lemma eval_String_unset (entries : list enum_entry) (p : Z) :
  (forall e, In e entries -> ee_value e <> p) ->
  eval_String_cases entries p = "<UNSET>".
Proof.
  induction entries as [|e rest IH]; intros H; simpl; [reflexivity|].
  destruct (Z.eqb_spec p (ee_value e)) as [E|E].
  - exfalso. apply (H e); [now left | congruence].
  - apply IH. intros e' He'. apply H. now right.
Qed.

Lemma eval_FromString_unmatched (t : string) (entries : list enum_entry)
    (s : string) :
  (forall e l, In e entries -> In l (ee_labels e) -> go_string_value l <> s) ->
  eval_FromString_cases t entries s
  = (unset_sentinel, Some (go_string_value ("not a valid " ++ t ++ " string"))).
Proof.
  induction entries as [|e rest IH]; intros H; simpl; [reflexivity|].
  destruct (existsb _ (ee_labels e)) eqn:E.
  - apply existsb_exists in E as [l [Hl Heq]].
    apply String.eqb_eq in Heq. exfalso.
    apply (H e l); [now left | exact Hl | congruence].
  - apply IH. intros e' l He'. apply H. now right.
Qed.

End EnumFacts.

(* ------------------------------------------------------------------ *)
(** ** Claims on identifiers                                            *)
(* ------------------------------------------------------------------ *)

(** C7. [variable_name_to_go_name] returns its input unchanged unless the
    lower-cased input is one of the reserved words the function lists; then
    it returns the lower-cased input with the suffix [_a1], which is never a
    reserved word itself. [Type] maps to [type_a1]. *)
Theorem variable_name_to_go_name_reserved (value : string) :
  variable_name_to_go_name value
  = (if is_reserved (Str.transform_tolower value)
     then Str.transform_tolower value ++ "_a1"
     else value)
  /\ is_reserved (Str.transform_tolower value ++ "_a1") = false
  /\ variable_name_to_go_name "Type" = "type_a1".
Proof.
  split; [apply variable_name_to_go_name_cases|].
  split; [apply suffixed_not_reserved | reflexivity].
Qed.

(** C8, as amended. For a name whose final segment (the part behind the last
    dot, the whole name if it has no dot) is not empty, [publicize] keeps the
    prefix up to that dot, puts the first character of the final segment in
    upper case and runs one left-to-right pass over the rest of the segment
    in which an underscore followed by a lower-case letter gives way to that
    letter in upper case. The pass starts at the second character of the
    segment: an underscore that opens the segment stays.
    [my_field_name] maps to [MyFieldName]. *)
Theorem publicize_final_segment (prefix : string) (c : ascii) (rest : string) :
  prefix = "" \/ (exists q, prefix = q ++ ".") ->
  Str.contains "." (String c rest) = false ->
  publicize (prefix ++ String c rest)
  = Some (prefix ++ String (toupper c) (collapse islower rest))
  /\ publicize "my_field_name" = Some "MyFieldName".
Proof.
  intros Hprefix Hdot. split; [|reflexivity].
  destruct Hprefix as [-> | [q ->]].
  - now apply publicize_segment.
  - rewrite !app_assoc_str. simpl. now apply publicize_qualified.
Qed.

Lemma publicize_final_segment_witness :
  publicize ("shared." ++ "my_type") = Some ("shared." ++ "MyType")
  /\ publicize "my_field_name" = Some "MyFieldName".
Proof.
  apply (publicize_final_segment "shared." "m" "y_type").
  - right. exists "shared". reflexivity.
  - reflexivity.
Defined.

(** C8 as stated fails: the underscore that opens [_ab] is followed by a
    lower-case letter and stays, and a name that ends in a dot has an empty
    final segment, on which the loop reads past the end of the string. *)
Lemma publicize_leading_underscore_kept :
  publicize "_ab" = Some "_ab" /\ publicize "pkg." = None.
Proof. split; reflexivity. Qed.

(** C9, as amended. [privatize] puts the first character of the whole name
    in lower case and runs the underscore pass over the rest of the whole
    name: a dot is a character like any other. On a name in which no
    underscore is followed by an upper-case letter the pass is the one of
    [publicize]; so, on such a name without a dot, the two results differ in
    the case of the first character only. *)
Theorem privatize_mirrors_publicize (c : ascii) (rest : string) :
  no_underscore_upper rest = true ->
  privatize (String c rest) = Some (String (tolower c) (collapse islower rest))
  /\ (Str.contains "." (String c rest) = false ->
      publicize (String c rest) = Some (String (toupper c) (collapse islower rest))).
Proof.
  intros H. split.
  - rewrite privatize_closed. now rewrite collapse_alpha_lower.
  - apply publicize_segment.
Qed.

Lemma privatize_mirrors_publicize_witness :
  privatize "My_service" = Some "myService"
  /\ publicize "My_service" = Some "MyService".
Proof.
  destruct (privatize_mirrors_publicize "M" "y_service" eq_refl) as [H1 H2].
  split; [exact H1 | exact (H2 eq_refl)].
Defined.

(** C9 as stated fails: [privatize] has no handling of the module prefix. On
    [A.B] it lower-cases the first character of the prefix and leaves the
    final segment alone, where the mirror image of [publicize] would give
    [A.b]. *)
Lemma privatize_ignores_module_prefix :
  privatize "A.B" = Some "a.B" /\ publicize "A.B" = Some "A.B".
Proof. split; reflexivity. Qed.

(* ------------------------------------------------------------------ *)
(** ** Claims on enums                                                  *)
(* ------------------------------------------------------------------ *)

(** C4, as amended. A member without explicit value gets the value of the
    member before it plus one, as long as that value is an [int] below
    [INT_MAX], and 0 if it is the first member; a member with an explicit
    value gets that value. [Color { RED, GREEN, BLUE = 5 }] generates
    [Color_RED = 0], [Color_GREEN = 1], [Color_BLUE = 5], and
    [ColorFromString] maps the string [Color_BLUE], the name of the
    constant, to the constant of value 5. *)
Theorem enum_values_assigned (escape_string : string -> string)
    (tenum : t_enum) (tenum_name : string) :
  publicize (enum_get_name tenum) = Some tenum_name ->
  (exists g, generate_enum escape_string tenum = Some g
     /\ ge_type g = tenum_name
     /\ length (ge_entries g) = length (enum_get_constants tenum)
     /\ (forall c, nth_error (enum_get_constants tenum) 0 = Some c ->
           ev_has_value c = false ->
           nth_error (map ee_value (ge_entries g)) 0 = Some 0%Z)
     /\ (forall i c v,
           nth_error (enum_get_constants tenum) (S i) = Some c ->
           ev_has_value c = false ->
           nth_error (map ee_value (ge_entries g)) i = Some v ->
           (MinInt32 <= v < INT_MAX)%Z ->
           nth_error (map ee_value (ge_entries g)) (S i) = Some (v + 1)%Z)
     /\ (forall i c,
           nth_error (enum_get_constants tenum) i = Some c ->
           ev_has_value c = true ->
           nth_error (map ee_value (ge_entries g)) i = Some (ev_get_value c)))
  /\ (exists g, generate_enum escape_plain Color = Some g
        /\ map (fun e => (ge_type g ++ "_" ++ ee_iter_name e, ee_value e)) (ge_entries g)
           = [("Color_RED", 0%Z); ("Color_GREEN", 1%Z); ("Color_BLUE", 5%Z)]
        /\ eval_FromString g "Color_BLUE" = (5%Z, None)).
Proof.
  intros Hname. split; [|eexists; split; [reflexivity | split; reflexivity]].
  unfold generate_enum. rewrite Hname. eexists. split; [reflexivity|].
  cbn [ge_type ge_entries].
  split; [reflexivity|]. split; [apply enum_loop_length|].
  split; [|split].
  - intros c Hc Hv. destruct (enum_get_constants tenum) as [|c0 cs]; [discriminate|].
    injection Hc as ->. rewrite enum_loop_first, Hv. reflexivity.
  - intros i c v Hc Hv Hnth Hrange.
    rewrite (enum_loop_next _ _ _ _ _ _ _ Hc Hnth), Hv.
    rewrite wrap32_id; [reflexivity | unfold MinInt32, INT_MAX in *; lia].
  - intros i c Hc Hv. revert i Hc. generalize (-1)%Z.
    induction (enum_get_constants tenum) as [|c0 cs IH]; intros v0 i Hc.
    + destruct i; discriminate.
    + rewrite enum_loop_first. destruct i as [|i].
      * injection Hc as ->. now rewrite Hv.
      * simpl. now apply IH.
Qed.

Lemma enum_values_assigned_witness :
  exists g, generate_enum escape_plain Color = Some g
    /\ nth_error (map ee_value (ge_entries g)) 1 = Some 1%Z.
Proof.
  destruct (enum_values_assigned escape_plain Color "Color" eq_refl)
    as [[g [Hg [_ [_ [_ [Hnext _]]]]]] _].
  exists g. split; [exact Hg|].
  injection Hg as <-.
  apply (Hnext 0 {| ev_get_name := "GREEN"; ev_has_value := false; ev_get_value := 0 |} 0%Z);
    [reflexivity | reflexivity | reflexivity | unfold MinInt32, INT_MAX; lia].
Defined.

(** C4 as stated fails: [ColorFromString] knows the constant under the name
    [Color_BLUE] only and answers the bare [BLUE] with the unset value and
    an error; and the member behind one of value [INT_MAX] does not get
    that value plus one. *)
Lemma FromString_rejects_bare_name :
  (exists g, generate_enum escape_plain Color = Some g
     /\ eval_FromString g "BLUE" = (unset_sentinel, Some "not a valid Color string"))
  /\ map ee_value
       (enum_loop escape_plain "E" (-1)
          [ {| ev_get_name := "A"; ev_has_value := true; ev_get_value := 2147483647 |};
            {| ev_get_name := "B"; ev_has_value := false; ev_get_value := 0 |} ])
     = [2147483647%Z; (-2147483648)%Z].
Proof. split; [eexists; split; reflexivity | reflexivity]. Qed.

(** C6, as amended. On a string that is none of the strings its [case]s
    list, the generated [FromString] returns the unset value
    [math.MinInt32 - 1] and an error whose message is the fixed text
    [not a valid <Type> string]; the string that was passed in has no part
    in it. *)
Theorem FromString_unrecognized (escape_string : string -> string)
    (tenum : t_enum) (tenum_name : string) :
  publicize (enum_get_name tenum) = Some tenum_name ->
  exists g, generate_enum escape_string tenum = Some g
    /\ forall s,
         (forall e l, In e (ge_entries g) -> In l (ee_labels e) ->
                      go_string_value l <> s) ->
         eval_FromString g s
         = (unset_sentinel,
            Some (go_string_value ("not a valid " ++ tenum_name ++ " string"))).
Proof.
  intros Hname. unfold generate_enum. rewrite Hname.
  eexists. split; [reflexivity|]. intros s Hs.
  now apply eval_FromString_unmatched.
Qed.

Lemma FromString_unrecognized_witness :
  exists g, generate_enum escape_plain Color = Some g
    /\ eval_FromString g "PURPLE"
       = (unset_sentinel, Some "not a valid Color string").
Proof.
  destruct (FromString_unrecognized escape_plain Color "Color" eq_refl)
    as [g [Hg H]].
  exists g. split; [exact Hg|].
  apply (H "PURPLE"). injection Hg as <-.
  intros e l He Hl. simpl in He.
  repeat (destruct He as [<- | He];
          [simpl in Hl; destruct Hl as [<- | []]; discriminate|]).
  destruct He.
Defined.

(** C6 as stated fails: the message of the error returned for [PURPLE] is
    [not a valid Color string], in which [PURPLE] does not occur. *)
Lemma FromString_error_omits_candidate :
  exists g msg, generate_enum escape_plain Color = Some g
    /\ eval_FromString g "PURPLE" = (unset_sentinel, Some msg)
    /\ msg = "not a valid Color string"
    /\ String.index 0 "PURPLE" msg = None.
Proof. eexists. eexists. repeat split. Qed.

(** C10. Applied to a value that is the value of none of the declared
    constants, the generated [String()] returns [<UNSET>]. *)
Theorem String_of_undeclared_value (escape_string : string -> string)
    (tenum : t_enum) (tenum_name : string) :
  publicize (enum_get_name tenum) = Some tenum_name ->
  exists g, generate_enum escape_string tenum = Some g
    /\ forall p,
         (forall e, In e (ge_entries g) -> ee_value e <> p) ->
         eval_String g p = "<UNSET>".
Proof.
  intros Hname. unfold generate_enum. rewrite Hname.
  eexists. split; [reflexivity|]. intros p Hp.
  now apply eval_String_unset.
Qed.

Lemma String_of_undeclared_value_witness :
  exists g, generate_enum escape_plain Color = Some g
    /\ eval_String g 7 = "<UNSET>".
Proof.
  destruct (String_of_undeclared_value escape_plain Color "Color" eq_refl)
    as [g [Hg H]].
  exists g. split; [exact Hg|].
  apply H. injection Hg as <-.
  intros e He. simpl in He.
  repeat (destruct He as [<- | He]; [discriminate|]).
  destruct He.
Defined.

(* ------------------------------------------------------------------ *)
(** ** Claims on services                                               *)
(* ------------------------------------------------------------------ *)

Section ServiceFacts.

Variable escape_string : string -> string.

(** The public client method of a one-way function calls [send] and, whether
    that fails or not, no [recv]. *)
Lemma oneway_client_never_receives (f : t_function) (funname : string) :
  fn_is_oneway f = true ->
  publicize (fn_get_name f) = Some funname ->
  exists body,
    client_method_body f = Some body
    /\ forall send_fails, exec_client send_fails body = [call_send funname].
Proof.
  intros Hone Hname. unfold client_method_body. rewrite Hone, Hname.
  eexists. split; [reflexivity|]. now intros [].
Qed.

(** The [Process] of any function, one-way or not, answers a handled call
    with a reply envelope. *)
Lemma process_always_replies (tservice : t_service) (tfunction : t_function)
    (processorName : string) (body : list process_stmt) :
  generate_process_function escape_string tservice tfunction
  = Some (processorName, body) ->
  after_handler (run_process true true body)
  = [ WriteMessageBegin (escape_string (fn_get_name tfunction)) thrift_REPLY;
      Write_to_oprot "result"; WriteMessageEnd; Flush ].
Proof.
  unfold generate_process_function.
  destruct (privatize (svc_get_name tservice)); [|discriminate].
  destruct (publicize (fn_get_name tfunction)); [|discriminate].
  destruct (go_field_names _); [|discriminate].
  destruct (process_result_args tfunction); [|discriminate].
  intros [= <- <-]. reflexivity.
Qed.

End ServiceFacts.

(** The text of the [Process] of the one-way [ping] holds the reply block. *)
Example render_ping_process_reply :
  match render_process_function escape_plain indent2 Notifier ping with
  | Some text =>
      match String.index 0
              ("  if err2 := oprot.WriteMessageBegin(" ++ dq ++ "ping" ++ dq
               ++ ", thrift.REPLY, seqId); err2 != nil {" ++ endl
               ++ "    err = err2" ++ endl
               ++ "  }" ++ endl
               ++ "  if err2 := result.Write(oprot); err == nil && err2 != nil {" ++ endl
               ++ "    err = err2" ++ endl
               ++ "  }" ++ endl
               ++ "  if err2 := oprot.WriteMessageEnd(); err == nil && err2 != nil {" ++ endl
               ++ "    err = err2" ++ endl
               ++ "  }" ++ endl
               ++ "  if err2 := oprot.Flush(); err == nil && err2 != nil {" ++ endl
               ++ "    err = err2" ++ endl
               ++ "  }" ++ endl) text with
      | Some _ => true
      | None => false
      end
  | None => false
  end = true.
Proof. vm_compute. reflexivity. Qed.

(** C1, evaluated on [oneway void ping(1: i32 n)]. The public client method
    calls [sendPing] and no [recvPing]; the generated [Process] however,
    after the call of the handler, writes the reply envelope all the same:
    the [REPLY] message begin, the result struct, the message end and the
    flush. *)
Theorem oneway_process_sends_reply :
  option_map (exec_client false) (client_method_body ping)
  = Some [call_send "Ping"]
  /\ option_map (fun pb => after_handler (run_process true true (snd pb)))
       (generate_process_function escape_plain Notifier ping)
     = Some [ WriteMessageBegin "ping" thrift_REPLY;
              Write_to_oprot "result"; WriteMessageEnd; Flush ].
Proof. split; reflexivity. Qed.

(* ------------------------------------------------------------------ *)
(** ** Claims on structs                                                *)
(* ------------------------------------------------------------------ *)

Section StructFacts.

Variable escape_string : string -> string.
Variable render_const_value : t_type -> t_const_value -> string -> option string.

Lemma zrange_S (a : Z) (n : nat) : zrange a (S n) = a :: zrange (a + 1) n.
Proof.
  unfold zrange. cbn [seq map]. f_equal; [lia|].
  rewrite <- seq_shift, map_map. apply map_ext. intros k. lia.
Qed.

Lemma zrange_app (a : Z) (n m : nat) :
  zrange a (n + m) = (zrange a n ++ zrange (a + Z.of_nat n) m)%list.
Proof.
  revert a. induction n as [|n IH]; intros a.
  - simpl. f_equal. lia.
  - change (S n + m) with (S (n + m)). rewrite !zrange_S, IH. simpl.
    do 3 f_equal. lia.
Qed.

Lemma in_zrange (a : Z) (n : nat) (p : Z) :
  In p (zrange a n) <-> (a <= p < a + Z.of_nat n)%Z.
Proof.
  unfold zrange. rewrite in_map_iff. split.
  - intros [k [<- Hk]]. apply in_seq in Hk. lia.
  - intros H. exists (Z.to_nat (p - a)). split; [lia|]. apply in_seq. lia.
Qed.

Lemma gap_positions_exact (pos key : Z) :
  (0 <= pos <= key)%Z -> (key <= INT_MAX)%Z ->
  gap_positions pos key = zrange pos (Z.to_nat (key - pos)).
Proof.
  intros H1 H2. unfold gap_positions, zrange, INT_MAX in *.
  rewrite Z.mod_small by lia.
  apply map_ext_in. intros k Hk. apply in_seq in Hk.
  apply wrap32_id. unfold MinInt32, INT_MAX. lia.
Qed.

Lemma key_bound_above (fields : list t_field) (f : t_field) :
  In f fields -> (field_get_key f < key_bound fields)%Z.
Proof.
  induction fields as [|g fields IH]; intros H; [destruct H|].
  simpl. destruct H as [-> | H]; [lia|]. specialize (IH H). lia.
Qed.

Lemma key_bound_nonneg (fields : list t_field) : (0 <= key_bound fields)%Z.
Proof. induction fields as [|g fields IH]; simpl; lia. Qed.

Lemma markers_flat_map (l : list Z) :
  flat_map (fun p => if Z.eqb p 0 then [] else [unused_field p]) l
  = map unused_field (filter (fun pos => negb (Z.eqb pos 0)) l).
Proof.
  induction l as [|p l IH]; simpl; [reflexivity|].
  destruct (Z.eqb p 0); simpl; now rewrite IH.
Qed.

Lemma flat_map_ext_in {A B : Type} (f g : A -> list B) (l : list A) :
  (forall a, In a l -> f a = g a) -> flat_map f l = flat_map g l.
Proof.
  induction l as [|a l IH]; intros H; simpl; [reflexivity|].
  rewrite (H a (or_introl eq_refl)), IH; [reflexivity|].
  intros b Hb. apply H. now right.
Qed.

Lemma find_key_none (fields : list t_field) (p : Z) :
  (forall f, In f fields -> field_get_key f <> p) ->
  find (fun f => Z.eqb (field_get_key f) p) fields = None.
Proof.
  induction fields as [|g fields IH]; intros H; simpl; [reflexivity|].
  destruct (Z.eqb_spec (field_get_key g) p) as [E|E].
  - exfalso. now apply (H g); [left|].
  - apply IH. intros f Hf. apply H. now right.
Qed.

(** The loop over the sorted members is the walk over the positions. *)
Lemma sorted_decl_lines_walk (fields : list t_field) :
  forall pos : Z,
    (0 <= pos)%Z ->
    StronglySorted Z.lt (map field_get_key fields) ->
    (forall f, In f fields -> (pos <= field_get_key f <= INT_MAX)%Z) ->
    sorted_decl_lines pos fields
    = flat_map (walk_line fields)
        (zrange pos (Z.to_nat (key_bound fields - pos))).
Proof.
  induction fields as [|m rest IH]; intros pos Hpos Hsorted Hkeys.
  - change (key_bound []) with 0%Z.
    replace (Z.to_nat (0 - pos)) with 0 by lia. reflexivity.
  - assert (Hm := Hkeys m (or_introl eq_refl)).
    simpl map in Hsorted. apply StronglySorted_inv in Hsorted as [Hrest Hlt].
    rewrite Forall_forall in Hlt.
    assert (Hlt' : forall f, In f rest -> (field_get_key m < field_get_key f)%Z).
    { intros f Hf. apply Hlt. now apply in_map. }
    assert (Hb : (field_get_key m + 1 <= key_bound (m :: rest))%Z) by (simpl; lia).
    replace (Z.to_nat (key_bound (m :: rest) - pos))
      with (Z.to_nat (field_get_key m - pos)
            + (1 + Z.to_nat (key_bound (m :: rest) - (field_get_key m + 1))))
      by lia.
    rewrite zrange_app, flat_map_app.
    replace (pos + Z.of_nat (Z.to_nat (field_get_key m - pos)))%Z
      with (field_get_key m) by lia.
    change (1 + ?n) with (S n). rewrite zrange_S.
    cbn [sorted_decl_lines flat_map].
    assert (Hw : walk_line (m :: rest) (field_get_key m)
                 = [tagged_field m (field_get_key m)]).
    { unfold walk_line. cbn [find]. now rewrite Z.eqb_refl. }
    rewrite Hw. cbn [app]. f_equal; [|f_equal].
    + rewrite gap_positions_exact by lia.
      rewrite <- markers_flat_map. apply flat_map_ext_in.
      intros p Hp. apply in_zrange in Hp. unfold walk_line.
      rewrite find_key_none; [reflexivity|].
      intros f [<- | Hf]; [lia | specialize (Hlt' f Hf); lia].
    + destruct rest as [|m' rest'].
      * simpl. replace (Z.to_nat _) with 0 by lia. reflexivity.
      * assert (Hm' := Hkeys m' (or_intror (or_introl eq_refl))).
        assert (Hmm' := Hlt' m' (or_introl eq_refl)).
        rewrite wrap32_id by (unfold MinInt32, INT_MAX in *; lia).
        rewrite IH; [| lia | exact Hrest |].
        -- assert (Hb' := key_bound_above (m' :: rest') m' (or_introl eq_refl)).
           replace (key_bound (m :: m' :: rest')) with (key_bound (m' :: rest'))
             by (change (key_bound (m :: m' :: rest'))
                   with (Z.max (field_get_key m + 1) (key_bound (m' :: rest')));
                 lia).
           apply flat_map_ext_in. intros p Hp. apply in_zrange in Hp.
           unfold walk_line. cbn [find].
           destruct (Z.eqb_spec (field_get_key m) p); [lia | reflexivity].
        -- intros f Hf. specialize (Hlt' f Hf).
           specialize (Hkeys f (or_intror Hf)). lia.
Qed.

Lemma struct_decl_lines_nonneg (tstruct : t_struct) :
  starts_nonneg (struct_get_sorted_members tstruct) = true ->
  struct_decl_lines tstruct
  = sorted_decl_lines 0 (struct_get_sorted_members tstruct).
Proof.
  unfold struct_decl_lines, starts_nonneg.
  destruct (struct_get_sorted_members tstruct) as [|m0 ms]; [reflexivity|].
  now intros ->.
Qed.

Lemma struct_decl_lines_negative (tstruct : t_struct) :
  starts_nonneg (struct_get_sorted_members tstruct) = false ->
  struct_decl_lines tstruct = map plain_field (struct_get_members tstruct).
Proof.
  unfold struct_decl_lines, starts_nonneg.
  destruct (struct_get_sorted_members tstruct) as [|m0 ms]; [discriminate|].
  now intros ->.
Qed.

Lemma sorted_keys_above_first (fields : list t_field) :
  StronglySorted Z.lt (map field_get_key fields) ->
  starts_nonneg fields = true ->
  forall f, In f fields -> (0 <= field_get_key f)%Z.
Proof.
  destruct fields as [|m0 ms]; intros Hs Hn f Hf; [destruct Hf|].
  simpl in Hn. apply Z.leb_le in Hn.
  simpl map in Hs. apply StronglySorted_inv in Hs as [_ Hlt].
  rewrite Forall_forall in Hlt.
  destruct Hf as [<- | Hf]; [exact Hn|].
  specialize (Hlt _ (in_map field_get_key _ _ Hf)). lia.
Qed.

(** [mapM] succeeds where its function does, element by element. *)
Lemma mapM_Forall2 {A B : Type} (f : A -> option B) (l : list A) (bs : list B) :
  mapM f l = Some bs <-> Forall2 (fun a b => f a = Some b) l bs.
Proof.
  revert bs. induction l as [|a l IH]; intros bs; simpl.
  - split; [intros [= <-]; constructor | intros H; now inversion H].
  - destruct (f a) as [b|] eqn:Ea.
    + destruct (mapM f l) as [bs'|] eqn:El.
      * split.
        -- intros [= <-]. constructor; [exact Ea | now apply IH].
        -- intros H. inversion H as [|? b' ? bs'' Hb Hrest]; subst.
           apply IH in Hrest. congruence.
      * split; [discriminate|].
        intros H. inversion H as [|? b' ? bs'' Hb Hrest]; subst.
        apply IH in Hrest. discriminate.
    + split; [discriminate|].
      intros H. inversion H; subst. congruence.
Qed.

Lemma mapM_defined {A B : Type} (f : A -> option B) (l : list A) :
  (forall a, In a l -> f a <> None) -> exists bs, mapM f l = Some bs.
Proof.
  induction l as [|a l IH]; intros H; simpl; [eauto|].
  destruct (f a) as [b|] eqn:Ea; [|now destruct (H a (or_introl eq_refl))].
  destruct IH as [bs ->]; [intros x Hx; apply H; now right | eauto].
Qed.

Lemma get_true_type_no_typedef (t : t_type) :
  match get_true_type t with t_typedef _ _ _ => False | _ => True end.
Proof. induction t; simpl; auto. Qed.







Lemma field_id_zero (key : Z) :
  is_int32 key -> (field_id_of key = 0%Z <-> key = 0%Z).
Proof.
  unfold is_int32, field_id_of, wrap32. intros H.
  destruct (Z.ltb_spec key 0); [|tauto].
  split; [|lia]. intros E.
  destruct (Z.eq_dec key (-2147483648)) as [-> | Hne]; [discriminate|].
  rewrite Z.mod_small in E; lia.
Qed.

Lemma exec_each_all (calls : list (t_field * string)) :
  exec_each (fun _ => false) calls = map snd calls.
Proof.
  induction calls as [|[f m] calls IH]; simpl; [reflexivity | now rewrite IH].
Qed.

Lemma exec_switch_at_most_one (non_nil : t_field -> bool)
    (branches : list write_branch) :
  length (exec_switch non_nil branches) <= 1.
Proof.
  unfold exec_switch.
  destruct (find (case_holds non_nil) branches); [simpl; lia|].
  destruct (find is_default branches); simpl; lia.
Qed.

Lemma switch_branch_spec (f : t_field) (b : write_branch) :
  switch_branch f = Some b ->
  branch_field b = f
  /\ branch_method b = field_method "writeField" (field_get_key f)
  /\ (is_default b = false <->
      can_be_nil (field_get_type f) = Some true
      /\ field_id_of (field_get_key f) <> 0%Z).
Proof.
  unfold switch_branch.
  destruct (can_be_nil (field_get_type f)) as [[|]|]; [| |discriminate].
  - destruct (Z.eqb_spec (field_id_of (field_get_key f)) 0) as [E|E];
      cbn [andb negb].
    + intros [= <-]. simpl. split; [reflexivity|]. split; [reflexivity|].
      split; [discriminate | intros [_ H]; contradiction].
    + destruct (publicize (variable_name_to_go_name (field_get_name f)));
        [|discriminate].
      intros [= <-]. simpl. split; [reflexivity|]. split; [reflexivity|].
      split; auto.
  - cbn [andb]. intros [= <-]. simpl. split; [reflexivity|].
    split; [reflexivity|].
    split; [discriminate | intros [H _]; discriminate].
Qed.

Lemma find_map_rel {A B : Type} (g : A -> B) (P : A -> bool) (Q : B -> bool)
    (l : list A) :
  (forall a, In a l -> P a = Q (g a)) ->
  find Q (map g l) = option_map g (find P l).
Proof.
  induction l as [|a l IH]; intros H; [reflexivity|].
  cbn [map find]. rewrite <- (H a (or_introl eq_refl)).
  destruct (P a); [reflexivity|]. apply IH. intros x Hx. apply H. now right.
Qed.

Lemma is_default_nil_guarded (b : write_branch) :
  is_int32 (field_get_key (branch_field b)) ->
  (is_default b = false <->
   can_be_nil (field_get_type (branch_field b)) = Some true
   /\ field_id_of (field_get_key (branch_field b)) <> 0%Z) ->
  is_default b = negb (nil_guarded (branch_field b)).
Proof.
  intros Hint [H1 H2]. unfold nil_guarded.
  pose proof (field_id_zero _ Hint) as Hz.
  destruct (is_default b).
  - destruct (can_be_nil (field_get_type (branch_field b))) as [[|]|];
      try reflexivity.
    destruct (Z.eqb_spec (field_get_key (branch_field b)) 0) as [E|E];
      [reflexivity|].
    assert (true = false); [|discriminate]. apply H2. split; [reflexivity|].
    tauto.
  - destruct (H1 eq_refl) as [-> Hne].
    destruct (Z.eqb_spec (field_get_key (branch_field b)) 0) as [E|E];
      [|reflexivity].
    exfalso. tauto.
Qed.

(** A run of the switch: the first branch whose field has a [case] of its
    own and is not nil; without one, the first [default]. *)
Lemma exec_switch_run (non_nil : t_field -> bool) (branches : list write_branch) :
  (forall b, In b branches ->
     branch_method b = field_method "writeField" (field_get_key (branch_field b))
     /\ is_default b = negb (nil_guarded (branch_field b))) ->
  exec_switch non_nil branches
  = match find (fun f => nil_guarded f && non_nil f)
               (map branch_field branches) with
    | Some f => [field_method "writeField" (field_get_key f)]
    | None =>
        match find (fun f => negb (nil_guarded f)) (map branch_field branches) with
        | Some f => [field_method "writeField" (field_get_key f)]
        | None => []
        end
    end.
Proof.
  intros H.
  rewrite (find_map_rel branch_field (case_holds non_nil)
             (fun f => nil_guarded f && non_nil f)).
  2:{ intros b Hb. destruct (H b Hb) as [_ Hd].
      destruct b as [f m|f m]; cbn [case_holds branch_field is_default] in *.
      - apply (f_equal negb) in Hd. rewrite negb_involutive in Hd.
        cbn [negb] in Hd. now rewrite <- Hd.
      - apply (f_equal negb) in Hd. rewrite negb_involutive in Hd.
        cbn [negb] in Hd. now rewrite <- Hd. }
  rewrite (find_map_rel branch_field is_default (fun f => negb (nil_guarded f)))
    by (intros b Hb; now destruct (H b Hb)).
  unfold exec_switch.
  destruct (find (case_holds non_nil) branches) as [b|] eqn:E; cbn [option_map].
  - apply find_some in E as [Hb _]. now destruct (H b Hb) as [-> _].
  - destruct (find is_default branches) as [b|] eqn:E'; cbn [option_map];
      [|reflexivity].
    apply find_some in E' as [Hb _]. now destruct (H b Hb) as [-> _].
Qed.

End StructFacts.

(** C3. Where the sorted view is empty or starts at a key that is not
    negative, the field block is the walk over the positions from 0 to the
    highest key: the declaration of its field at the position of a key, an
    unused marker at every other position but 0. So every position between
    two keys that is not a key has its marker, in place between the
    declarations around it. Where the lowest key is negative the block has
    the fields in declaration order and no marker. For the keys 1 and 3 the
    marker of 2 stands between the two declarations; for the keys -2 and -1
    the block is the declaration order. *)
Theorem struct_decl_gap_markers (tstruct : t_struct) :
  struct_inv tstruct ->
  (forall f, In f (struct_get_sorted_members tstruct) ->
             is_int32 (field_get_key f)) ->
  (starts_nonneg (struct_get_sorted_members tstruct) = true ->
     struct_decl_lines tstruct
     = walk_positions (struct_get_sorted_members tstruct)
     /\ forall p,
          (0 < p < key_bound (struct_get_sorted_members tstruct))%Z ->
          ~ In p (map field_get_key (struct_get_sorted_members tstruct)) ->
          In (unused_field p) (struct_decl_lines tstruct))
  /\ (starts_nonneg (struct_get_sorted_members tstruct) = false ->
        struct_decl_lines tstruct
        = map plain_field (struct_get_members tstruct))
  /\ struct_decl_lines Gap
     = [ tagged_field (fld "a" 1 (t_base_type TYPE_I32 false)) 1;
         unused_field 2;
         tagged_field (fld "c" 3 (t_base_type TYPE_STRING false)) 3 ]
  /\ struct_decl_lines Neg
     = [ plain_field (fld "y" (-1) (t_base_type TYPE_I32 false));
         plain_field (fld "x" (-2) (t_base_type TYPE_I32 false)) ].
Proof.
  intros [Hsorted _] Hint.
  split; [|split; [apply struct_decl_lines_negative | split; reflexivity]].
  intros Hnn.
  assert (Hwalk : struct_decl_lines tstruct
                  = walk_positions (struct_get_sorted_members tstruct)).
  { rewrite (struct_decl_lines_nonneg _ Hnn).
    rewrite sorted_decl_lines_walk; [| lia | exact Hsorted |].
    - unfold walk_positions. now rewrite Z.sub_0_r.
    - intros f Hf. split; [now apply (sorted_keys_above_first _ Hsorted Hnn)|].
      apply (Hint f Hf). }
  split; [exact Hwalk|].
  intros p Hp Hnot. rewrite Hwalk. unfold walk_positions.
  apply in_flat_map. exists p. split.
  - apply in_zrange.
    pose proof (key_bound_nonneg (struct_get_sorted_members tstruct)). lia.
  - unfold walk_line. rewrite find_key_none.
    + destruct (Z.eqb_spec p 0); [lia | now left].
    + intros f Hf E. apply Hnot. rewrite <- E. now apply in_map.
Qed.

Lemma Gap_inv : struct_inv Gap.
Proof.
  split; [|apply Permutation_refl].
  simpl. repeat constructor.
Defined.

Lemma Neg_inv : struct_inv Neg.
Proof.
  split; [|apply perm_swap].
  simpl. repeat constructor.
Defined.

Lemma struct_decl_gap_markers_witness :
  In (unused_field 2) (struct_decl_lines Gap)
  /\ struct_decl_lines Neg = map plain_field (struct_get_members Neg).
Proof.
  split.
  - assert (Hint : forall f, In f (struct_get_sorted_members Gap) ->
                             is_int32 (field_get_key f)).
    { intros f [<- | [<- | []]]; unfold is_int32; simpl; lia. }
    destruct (struct_decl_gap_markers Gap Gap_inv Hint) as [H _].
    destruct (H eq_refl) as [_ Hm]. apply (Hm 2%Z).
    + simpl. lia.
    + simpl. intros [E | [E | []]]; discriminate.
  - assert (Hint : forall f, In f (struct_get_sorted_members Neg) ->
                             is_int32 (field_get_key f)).
    { intros f [<- | [<- | []]]; unfold is_int32; simpl; lia. }
    destruct (struct_decl_gap_markers Neg Neg_inv Hint) as [_ [H _]].
    exact (H eq_refl).
Defined.

Example render_Gap_fields :
  generate_struct_fields escape_plain indent2 Gap
  = Some [ "  A int32 `thrift:" ++ dq ++ "a,1" ++ dq ++ "`" ++ endl;
           "  // unused field # 2" ++ endl;
           "  C string `thrift:" ++ dq ++ "c,3" ++ dq ++ "`" ++ endl ].
Proof. vm_compute. reflexivity. Qed.

Example render_Neg_fields :
  generate_struct_fields escape_plain indent2 Neg
  = Some [ "  Y int32" ++ endl; "  X int32" ++ endl ].
Proof. vm_compute. reflexivity. Qed.



(** What the last part of C5 excludes: in the plain block a field whose
    name is a word of Go is declared under one name, and initialised and
    queried under another. *)
Example Reserved_declares_other_name :
  map decl_line_name (struct_decl_lines Reserved) = [Some "Type"]
  /\ constructor_inits escape_plain render_const_integer Reserved
     = Some [init_sentinel "TypeA1"]
  /\ option_map (map ih_name) (generate_isset_helpers escape_plain Reserved)
     = Some ["TypeA1"].
Proof. repeat split; vm_compute; reflexivity. Qed.

(** The result record of a function keeps the invariant of [t_struct]. *)
Section ResultStruct.

Lemma insert_by_key_perm (f : t_field) (l : list t_field) :
  Permutation (f :: l) (insert_by_key f l).
Proof.
  induction l as [|g rest IH]; simpl; [apply Permutation_refl|].
  destruct (Z.ltb (field_get_key f) (field_get_key g)); [apply Permutation_refl|].
  eapply perm_trans; [apply perm_swap | now apply perm_skip].
Qed.

Lemma insert_by_key_sorted (f : t_field) (l : list t_field) :
  StronglySorted Z.lt (map field_get_key l) ->
  ~ In (field_get_key f) (map field_get_key l) ->
  StronglySorted Z.lt (map field_get_key (insert_by_key f l)).
Proof.
  induction l as [|g rest IH]; intros Hs Hn; simpl; [repeat constructor|].
  simpl map in Hs. apply StronglySorted_inv in Hs as [Hrest Hall].
  destruct (Z.ltb_spec (field_get_key f) (field_get_key g)) as [Hlt|Hge].
  - simpl. constructor; [constructor; assumption|].
    constructor; [exact Hlt|].
    eapply Forall_impl; [|exact Hall]. intros k Hk. simpl in Hk. lia.
  - simpl. constructor.
    + apply IH; [exact Hrest|]. intros Hin. apply Hn. now right.
    + apply Forall_forall. intros k Hk.
      apply in_map_iff in Hk as [x [<- Hx]].
      apply (Permutation_in _ (Permutation_sym (insert_by_key_perm f rest))) in Hx.
      destruct Hx as [<- | Hx].
      * assert (field_get_key g <> field_get_key f)
          by (intros E; apply Hn; left; exact E).
        lia.
      * rewrite Forall_forall in Hall. apply Hall. now apply in_map.
Qed.

Lemma append_inv (tstruct : t_struct) (f : t_field) :
  struct_inv tstruct -> struct_inv (append tstruct f).
Proof.
  intros [Hs Hp]. unfold append.
  destruct (existsb _ (struct_get_sorted_members tstruct)) eqn:E; [now split|].
  split; simpl.
  - apply insert_by_key_sorted; [exact Hs|].
    intros Hin. apply in_map_iff in Hin as [g [Hg Hin]].
    assert (existsb (fun g => Z.eqb (field_get_key g) (field_get_key f))
              (struct_get_sorted_members tstruct) = true); [|congruence].
    apply existsb_exists. exists g. split; [exact Hin | now apply Z.eqb_eq].
  - eapply perm_trans; [apply Permutation_sym, Permutation_cons_append|].
    eapply perm_trans; [apply perm_skip, Hp | apply insert_by_key_perm].
Qed.

Lemma result_struct_inv (tfunction : t_function) :
  struct_inv (result_struct tfunction).
Proof.
  unfold result_struct.
  set (empty := {| struct_get_name := _; struct_get_members := [];
                   struct_get_sorted_members := [] |}).
  assert (Hempty : struct_inv empty).
  { split; [constructor | apply Permutation_refl]. }
  set (start := if negb (is_void (fn_get_returntype tfunction)) then _ else _).
  assert (Hstart : struct_inv start).
  { subst start. destruct (negb _); [now apply append_inv | exact Hempty]. }
  clearbody start. clear Hempty empty.
  revert start Hstart.
  induction (struct_get_members (fn_get_xceptions tfunction)) as [|x xs IH];
    intros start Hstart; simpl; [exact Hstart|].
  apply IH. now apply append_inv.
Qed.

End ResultStruct.

(** [type_to_enum] and [generate_serialize_field] throw on void only. *)
Lemma type_to_enum_none (t : t_type) :
  type_to_enum t = None <-> is_void (get_true_type t) = true.
Proof.
  unfold type_to_enum. pose proof (get_true_type_no_typedef t) as H.
  destruct (get_true_type t) as [[] b| | | | | |]; cbn [is_void];
    split; try discriminate; try reflexivity; contradiction.
Qed.

Lemma type_to_enum_true_type (t : t_type) :
  type_to_enum (get_true_type t) = type_to_enum t.
Proof. induction t; try reflexivity. exact IHt. Qed.

Lemma void_cannot_serialize (t : t_type) :
  is_void (get_true_type t) = true -> can_serialize t = false.
Proof.
  induction t as [[] b| | | | | |]; cbn [get_true_type is_void can_serialize];
    try discriminate; auto.
Qed.

Lemma element_name : publicize (variable_name_to_go_name "") = Some "".
Proof. reflexivity. Qed.

Lemma serialize_field_none (type : t_type) :
  forall tfield_name prefix go_name,
    publicize (variable_name_to_go_name tfield_name) = Some go_name ->
    (generate_serialize_field type tfield_name prefix = None
     <-> can_serialize type = false).
Proof.
  assert (Henum : forall t, can_serialize t = true -> type_to_enum t <> None).
  { intros t Ht E. apply type_to_enum_none, void_cannot_serialize in E.
    congruence. }
  assert (Hvoid : forall t, type_to_enum t = None -> can_serialize t = false).
  { intros t E. now apply void_cannot_serialize, type_to_enum_none. }
  induction type as [tbase b| | | m sy u IH|e IH|e IH|k IHk v IHv];
    intros tfield_name prefix go_name Hname;
    cbn [generate_serialize_field can_serialize]; rewrite Hname.
  - destruct tbase, b; cbn [write_call can_serialize]; split; congruence.
  - split; discriminate.
  - split; discriminate.
  - now apply (IH _ _ go_name).
  - specialize (IH "" "v" "" element_name).
    destruct (type_to_enum e) eqn:E.
    + destruct (generate_serialize_field e "" "v"); [|tauto].
      split; [discriminate|]. intros H. apply IH in H. discriminate.
    + split; [intros _; now apply Hvoid | reflexivity].
  - specialize (IH "" "v" "" element_name).
    destruct (type_to_enum e) eqn:E.
    + destruct (generate_serialize_field e "" "v"); [|tauto].
      split; [discriminate|]. intros H. apply IH in H. discriminate.
    + split; [intros _; now apply Hvoid | reflexivity].
  - specialize (IHk "" "k" "" element_name).
    specialize (IHv "" "v" "" element_name).
    rewrite andb_false_iff.
    destruct (type_to_enum k) eqn:Ek.
    2:{ split; [intros _; left; now apply Hvoid | reflexivity]. }
    destruct (type_to_enum v) eqn:Ev.
    2:{ split; [intros _; right; now apply Hvoid | reflexivity]. }
    destruct (generate_serialize_field k "" "k").
    2:{ split; [intros _; left; now apply IHk | reflexivity]. }
    destruct (generate_serialize_field v "" "v").
    2:{ split; [intros _; right; now apply IHv | reflexivity]. }
    split; [discriminate|]. intros [H|H]; [apply IHk in H | apply IHv in H];
      discriminate.
Qed.

Lemma serialize_field_unnamed (type : t_type) (tfield_name prefix : string) :
  publicize (variable_name_to_go_name tfield_name) = None ->
  generate_serialize_field type tfield_name prefix = None.
Proof.
  intros H. destruct type; cbn [generate_serialize_field]; now rewrite H.
Qed.

Lemma serialize_field_cannot (type : t_type) (tfield_name prefix : string) :
  can_serialize type = false ->
  generate_serialize_field type tfield_name prefix = None.
Proof.
  intros H.
  destruct (publicize (variable_name_to_go_name tfield_name)) as [go_name|] eqn:E.
  - now apply (serialize_field_none type tfield_name prefix go_name E).
  - now apply serialize_field_unnamed.
Qed.

Section WriterFacts.

Lemma can_serialize_not_void (t : t_type) :
  can_serialize t = true -> can_be_nil t <> None.
Proof.
  unfold can_be_nil. induction t as [[] b| | | | | |]; simpl; try discriminate;
    try (intros _; discriminate); auto.
Qed.

Lemma field_writers_defined (fields : list t_field) :
  (forall f, In f fields -> can_serialize (field_get_type f) = true) ->
  (forall f, In f fields ->
             publicize (variable_name_to_go_name (field_get_name f)) <> None) ->
  exists ws, mapM field_writer_head fields = Some ws
    /\ map fw_field ws = fields.
Proof.
  induction fields as [|f fields IH]; intros H Hname; [exists []; auto|].
  destruct IH as [ws [Hws Hmap]];
    [intros g Hg; apply H; now right | intros g Hg; apply Hname; now right|].
  cbn [mapM]. unfold field_writer_head at 1.
  pose proof (H f (or_introl eq_refl)) as Hf.
  pose proof (Hname f (or_introl eq_refl)) as Hn.
  destruct (can_be_nil (field_get_type f)) as [b|] eqn:E;
    [|now destruct (can_serialize_not_void _ Hf)].
  destruct (publicize (variable_name_to_go_name (field_get_name f)))
    as [name|] eqn:En; [|congruence].
  destruct (type_to_enum (field_get_type f)) as [type_enum|] eqn:Ee.
  2:{ apply type_to_enum_none, void_cannot_serialize in Ee. congruence. }
  destruct (generate_serialize_field (field_get_type f) (field_get_name f) "p.")
    as [body|] eqn:Es.
  2:{ apply (serialize_field_none _ _ _ _ En) in Es. congruence. }
  rewrite Hws. eexists. split; [reflexivity|]. simpl. now rewrite Hmap.
Qed.

Lemma switch_branches_defined (fields : list t_field) :
  (forall f, In f fields -> can_be_nil (field_get_type f) <> None) ->
  (forall f, In f fields ->
             publicize (variable_name_to_go_name (field_get_name f)) <> None) ->
  exists bs, mapM switch_branch fields = Some bs
    /\ map branch_field bs = fields
    /\ forall b, In b bs ->
         branch_method b
         = field_method "writeField" (field_get_key (branch_field b))
         /\ (is_default b = false <->
             can_be_nil (field_get_type (branch_field b)) = Some true
             /\ field_id_of (field_get_key (branch_field b)) <> 0%Z).
Proof.
  induction fields as [|f fields IH]; intros H Hname.
  - exists []. split; [reflexivity|]. split; [reflexivity|]. intros b0 [].
  - destruct IH as [bs [Hbs [Hmap Hall]]];
      [intros g Hg; apply H; now right | intros g Hg; apply Hname; now right|].
    cbn [mapM].
    destruct (switch_branch f) as [b|] eqn:E.
    + destruct (switch_branch_spec f b E) as [Hf [Hm Hd]].
      rewrite Hbs. eexists. split; [reflexivity|]. split.
      * simpl. now rewrite Hf, Hmap.
      * intros b' [<- | Hb']; [rewrite Hf; auto | now apply Hall].
    + exfalso. unfold switch_branch in E.
      pose proof (Hname f (or_introl eq_refl)) as Hn.
      destruct (can_be_nil (field_get_type f)) as [nilable|] eqn:E';
        [|now apply (H f (or_introl eq_refl))].
      destruct (nilable && negb (Z.eqb (field_id_of (field_get_key f)) 0));
        [|discriminate].
      destruct (publicize (variable_name_to_go_name (field_get_name f)));
        [discriminate | congruence].
Qed.

End WriterFacts.

(** C2. The generated [Write] goes over the fields in the order of the
    sorted view, that is by ascending key. For a record that is no result it
    calls the writer of every field, in that order and without condition.
    For a result record with at least one field it has a [switch] instead
    whose branches are the fields in reverse key order: a [case] on
    [!= nil] for a field that can be nil and whose key is not 0, the
    [default] for any other field. A run of the switch calls the writer of
    the first field, in reverse key order, that has a [case] of its own and
    is not nil; if there is none, the writer of the first field that has
    the [default], if there is one; and no other writer. (The generation
    goes through when no field is of type void and every field name has a
    public form.) *)
Theorem struct_writer_order (tstruct : t_struct) :
  struct_inv tstruct ->
  (forall f, In f (struct_get_sorted_members tstruct) ->
             is_int32 (field_get_key f)) ->
  (forall f, In f (struct_get_sorted_members tstruct) ->
             can_serialize (field_get_type f) = true) ->
  (forall f, In f (struct_get_sorted_members tstruct) ->
             publicize (variable_name_to_go_name (field_get_name f)) <> None) ->
  StronglySorted Z.lt (map field_get_key (struct_get_sorted_members tstruct))
  /\ (exists w,
        generate_go_struct_writer tstruct false = Some w
        /\ gw_body w
           = write_each
               (map (fun f => (f, field_method "writeField" (field_get_key f)))
                    (struct_get_sorted_members tstruct))
        /\ map fw_field (gw_field_writers w) = struct_get_sorted_members tstruct
        /\ forall non_nil,
             exec_write non_nil (fun _ => false) (gw_body w)
             = map (fun f => field_method "writeField" (field_get_key f))
                   (struct_get_sorted_members tstruct))
  /\ (struct_get_sorted_members tstruct <> [] ->
      exists w branches,
        generate_go_struct_writer tstruct true = Some w
        /\ gw_body w = write_switch branches
        /\ map branch_field branches = rev (struct_get_sorted_members tstruct)
        /\ (forall b, In b branches ->
              branch_method b
              = field_method "writeField" (field_get_key (branch_field b))
              /\ (is_default b = false <->
                  can_be_nil (field_get_type (branch_field b)) = Some true
                  /\ field_get_key (branch_field b) <> 0%Z))
        /\ (forall non_nil fails,
              exec_write non_nil fails (gw_body w)
              = match find (fun f => nil_guarded f && non_nil f)
                           (rev (struct_get_sorted_members tstruct)) with
                | Some f => [field_method "writeField" (field_get_key f)]
                | None =>
                    match find (fun f => negb (nil_guarded f))
                               (rev (struct_get_sorted_members tstruct)) with
                    | Some f => [field_method "writeField" (field_get_key f)]
                    | None => []
                    end
                end)
        /\ forall non_nil fails,
             length (exec_write non_nil fails (gw_body w)) <= 1).
Proof.
  intros [Hsorted _] Hint Hser Hname.
  assert (Hnil : forall f, In f (struct_get_sorted_members tstruct) ->
                   can_be_nil (field_get_type f) <> None).
  { intros f Hf. apply can_serialize_not_void. now apply Hser. }
  destruct (field_writers_defined _ Hser Hname) as [ws [Hws Hwmap]].
  split; [exact Hsorted|]. split.
  - unfold generate_go_struct_writer. cbn [andb]. rewrite Hws.
    eexists. split; [reflexivity|]. cbn [gw_body gw_field_writers].
    split; [reflexivity|]. split; [exact Hwmap|].
    intros non_nil. cbn [exec_write]. rewrite exec_each_all, map_map. reflexivity.
  - intros Hne.
    assert (Hrev : forall f, In f (rev (struct_get_sorted_members tstruct)) ->
                     can_be_nil (field_get_type f) <> None).
    { intros f Hf. apply Hnil. now apply in_rev. }
    assert (Hrevname : forall f, In f (rev (struct_get_sorted_members tstruct)) ->
                         publicize (variable_name_to_go_name (field_get_name f))
                         <> None).
    { intros f Hf. apply Hname. now apply in_rev. }
    destruct (switch_branches_defined _ Hrev Hrevname) as [bs [Hbs [Hbmap Hall]]].
    assert (Hin : forall b, In b bs ->
                    In (branch_field b) (struct_get_sorted_members tstruct)).
    { intros b Hb. apply in_rev. rewrite <- Hbmap. now apply in_map. }
    unfold generate_go_struct_writer.
    replace (Nat.eqb (length (struct_get_sorted_members tstruct)) 0) with false
      by (destruct (struct_get_sorted_members tstruct); [congruence | reflexivity]).
    cbn [andb negb]. rewrite Hbs, Hws.
    eexists. exists bs. split; [reflexivity|]. cbn [gw_body].
    split; [reflexivity|]. split; [exact Hbmap|]. split; [|split].
    + intros b Hb. destruct (Hall b Hb) as [Hm Hd]. split; [exact Hm|].
      rewrite Hd. pose proof (field_id_zero _ (Hint _ (Hin b Hb))). tauto.
    + intros non_nil fails. cbn [exec_write]. rewrite <- Hbmap.
      apply exec_switch_run. intros b Hb. destruct (Hall b Hb) as [Hm Hd].
      split; [exact Hm|].
      exact (is_default_nil_guarded b (Hint _ (Hin b Hb)) Hd).
    + intros non_nil fails. apply exec_switch_at_most_one.
Qed.

Lemma struct_writer_order_witness :
  exists w branches,
    generate_result_writer lookup = Some w
    /\ gw_body w = write_switch branches
    /\ map branch_field branches = rev (struct_get_sorted_members (result_struct lookup))
    /\ map is_default branches = [false; true]
    /\ (forall fails, exec_write (fun _ => true) fails (gw_body w) = ["writeField1"])
    /\ (forall fails, exec_write (fun _ => false) fails (gw_body w) = ["writeField0"]).
Proof.
  pose proof (result_struct_inv lookup) as Hinv.
  assert (Hint : forall f, In f (struct_get_sorted_members (result_struct lookup)) ->
                           is_int32 (field_get_key f)).
  { intros f [<- | [<- | []]]; unfold is_int32; simpl; lia. }
  assert (Hser : forall f, In f (struct_get_sorted_members (result_struct lookup)) ->
                           can_serialize (field_get_type f) = true).
  { intros f [<- | [<- | []]]; reflexivity. }
  assert (Hname : forall f, In f (struct_get_sorted_members (result_struct lookup)) ->
                    publicize (variable_name_to_go_name (field_get_name f)) <> None).
  { intros f [<- | [<- | []]]; discriminate. }
  destruct (struct_writer_order (result_struct lookup) Hinv Hint Hser Hname)
    as [_ [_ Hres]].
  destruct Hres as [w [branches [Hw [Hbody [Hfields [_ [Hrun _]]]]]]];
    [discriminate|].
  exists w, branches. split; [exact Hw|]. split; [exact Hbody|].
  split; [exact Hfields|]. split.
  { unfold generate_result_writer in Hw. vm_compute in Hw. injection Hw as <-.
    simpl in Hbody. injection Hbody as <-. reflexivity. }
  split; intros fails; rewrite Hrun; reflexivity.
Defined.


(** The texts behind the structures above, on the examples. *)
Example render_lookup_result_write :
  match generate_result_writer lookup with
  | Some w => render_write_body indent2 (gw_body w)
  | None => None
  end
  = Some ("  switch {" ++ endl ++
          "  case p.Nf != nil:" ++ endl ++
          "    if err := p.writeField1(oprot); err != nil { return err }" ++ endl ++
          "  default:" ++ endl ++
          "    if err := p.writeField0(oprot); err != nil { return err }" ++ endl ++
          "  }" ++ endl).
Proof. vm_compute. reflexivity. Qed.

Example render_Neg_write :
  match generate_go_struct_writer Neg false with
  | Some w => render_write_body indent2 (gw_body w)
  | None => None
  end
  = Some ("  if err := p.writeField_2(oprot); err != nil { return err }" ++ endl ++
          "  if err := p.writeField_1(oprot); err != nil { return err }" ++ endl).
Proof. vm_compute. reflexivity. Qed.

Example render_ping_client :
  option_map (map (render_client_stmt indent2)) (client_method_body ping)
  = Some [ "  if err = p.sendPing(n); err != nil { return }" ++ endl;
           "  return" ++ endl ].
Proof. vm_compute. reflexivity. Qed.

Example render_lookup_client :
  option_map (map (render_client_stmt indent2)) (client_method_body lookup)
  = Some [ "  if err = p.sendLookup(key); err != nil { return }" ++ endl;
           "  return p.recvLookup()" ++ endl ].
Proof. vm_compute. reflexivity. Qed.

Example render_Paint_color :
  option_map (map (render_init_line indent2))
    (constructor_inits escape_plain render_const_integer Paint)
  = Some [endl ++ "Color: math.MinInt32 - 1, // unset sentinal value" ++ endl]
  /\ option_map (map (fun h => render_isset_sentinel indent2 "Paint" (ih_name h)))
       (option_map (filter (fun h => is_enum (field_get_type (ih_field h))))
          (generate_isset_helpers escape_plain Paint))
     = Some ["func (p *Paint) IsSetColor() bool {" ++ endl ++
             "  return int64(p.Color) != math.MinInt32 - 1" ++ endl ++
             "}" ++ endl ++ endl].
Proof. split; vm_compute; reflexivity. Qed.


(* ================================================================== *)
(** * Further properties                                                *)
(* ================================================================== *)

(** ** Names *)

Lemma rfind_decompose (c : ascii) (s : string) :
  match Str.rfind c s with
  | Some i => exists q seg, s = q ++ String c seg /\ Str.size q = i
                            /\ Str.contains c seg = false
  | None => Str.contains c s = false
  end.
Proof.
  induction s as [|a r IH]; simpl; [reflexivity|].
  destruct (Str.rfind c r) as [i|].
  - destruct IH as [q [seg [-> [<- Hseg]]]].
    exists (String a q), seg. auto.
  - destruct (Ascii.eqb_spec a c) as [->|Hne].
    + exists EmptyString, r. auto.
    + exact IH.
Qed.

Lemma dot_cases (s : string) :
  Str.contains "." s = false
  \/ exists q seg, s = q ++ String "." seg /\ Str.contains "." seg = false.
Proof.
  pose proof (rfind_decompose "." s) as H.
  destruct (Str.rfind "." s); [right | left; exact H].
  destruct H as [q [seg [H1 [_ H2]]]]. eauto.
Qed.

Lemma publicize_dotless (seg : string) :
  Str.contains "." seg = false -> publicize seg = Some (capitalized seg).
Proof.
  destruct seg as [|c rest]; [reflexivity|]. apply publicize_segment.
Qed.

(** X1. [publicize] has no result, its loop reading past the end of the
    string, exactly on the names that end in a dot. *)
Theorem publicize_undefined_iff (value : string) :
  publicize value = None <-> exists q, value = q ++ ".".
Proof.
  split.
  - intros H. destruct (dot_cases value) as [Hd | [q [seg [-> Hd]]]].
    + rewrite (publicize_dotless _ Hd) in H. discriminate.
    + destruct seg as [|c rest]; [now exists q|].
      rewrite (publicize_qualified _ _ _ Hd) in H. discriminate.
  - intros [q ->]. apply publicize_trailing_dot.
Qed.

Lemma toupper_idem (c : ascii) : toupper (toupper c) = toupper c.
Proof. destruct c as [[] [] [] [] [] [] [] []]; reflexivity. Qed.

Lemma islower_toupper (c : ascii) : islower (toupper c) = false.
Proof. destruct c as [[] [] [] [] [] [] [] []]; reflexivity. Qed.

Lemma toupper_dot (c : ascii) : Ascii.eqb (toupper c) "." = Ascii.eqb c ".".
Proof. destruct c as [[] [] [] [] [] [] [] []]; reflexivity. Qed.

Lemma toupper_lower_not_underscore (c : ascii) :
  islower c = true -> Ascii.eqb (toupper c) "_" = false.
Proof. destruct c as [[] [] [] [] [] [] [] []]; vm_compute; congruence. Qed.

Lemma collapse_head (trigger : ascii -> bool) (a : ascii) (r : string) :
  exists h t, collapse trigger (String a r) = String h t
    /\ (h = a \/ exists b, h = toupper b /\ trigger b = true).
Proof.
  destruct r as [|b r]; [exists a, EmptyString; auto|].
  rewrite collapse_cons.
  destruct (Ascii.eqb a "_" && trigger b) eqn:E.
  - apply andb_true_iff in E as [_ E]. eexists. eexists. split; [reflexivity|].
    right. eauto.
  - eexists. eexists. split; [reflexivity|]. now left.
Qed.

Lemma no_underscore_lower_cons (a b : ascii) (r : string) :
  no_underscore_lower (String a (String b r))
  = negb (Ascii.eqb a "_" && islower b) && no_underscore_lower (String b r).
Proof. reflexivity. Qed.

(** Behind the pass no underscore is followed by a lower-case letter ... *)
Lemma collapse_no_underscore_lower (s : string) :
  no_underscore_lower (collapse islower s) = true.
Proof.
  remember (Str.size s) as n eqn:Hn. revert s Hn.
  induction n as [n IH] using lt_wf_ind. intros s Hn.
  destruct s as [|a [|b r]]; try reflexivity.
  rewrite collapse_cons.
  destruct (Ascii.eqb a "_" && islower b) eqn:E.
  - apply andb_true_iff in E as [_ El].
    assert (IHr : no_underscore_lower (collapse islower r) = true)
      by (apply (IH (Str.size r)); [subst; simpl; lia | reflexivity]).
    destruct (collapse islower r) as [|h t] eqn:Er; [reflexivity|].
    rewrite no_underscore_lower_cons, IHr.
    now rewrite (toupper_lower_not_underscore _ El).
  - assert (IHt : no_underscore_lower (collapse islower (String b r)) = true)
      by (apply (IH (Str.size (String b r))); [subst; simpl; lia | reflexivity]).
    destruct (collapse_head islower b r) as [h [t [Eh Hh]]].
    rewrite Eh in *. rewrite no_underscore_lower_cons, IHt, andb_true_r.
    destruct Hh as [-> | [b' [-> _]]]; [now rewrite E|].
    now rewrite islower_toupper, andb_false_r.
Qed.

(** ... and on such a string the pass changes nothing. *)
Lemma collapse_fixed (s : string) :
  no_underscore_lower s = true -> collapse islower s = s.
Proof.
  remember (Str.size s) as n eqn:Hn. revert s Hn.
  induction n as [n IH] using lt_wf_ind. intros s Hn H.
  destruct s as [|a [|b r]]; try reflexivity.
  rewrite no_underscore_lower_cons in H. apply andb_true_iff in H as [H1 H2].
  rewrite collapse_cons. apply negb_true_iff in H1. rewrite H1. f_equal.
  apply (IH (Str.size (String b r))); [subst; simpl; lia | reflexivity | exact H2].
Qed.

Lemma collapse_dotless (s : string) :
  Str.contains "." s = false -> Str.contains "." (collapse islower s) = false.
Proof.
  remember (Str.size s) as n eqn:Hn. revert s Hn.
  induction n as [n IH] using lt_wf_ind. intros s Hn H.
  destruct s as [|a [|b r]]; try exact H.
  rewrite collapse_cons. cbn [Str.contains] in H.
  apply orb_false_iff in H as [Ha H]. apply orb_false_iff in H as [Hb Hr].
  destruct (Ascii.eqb a "_" && islower b).
  - cbn [Str.contains]. rewrite toupper_dot, Hb. cbn [orb].
    apply (IH (Str.size r)); [subst; simpl; lia | reflexivity | exact Hr].
  - cbn [Str.contains]. rewrite Ha. cbn [orb].
    apply (IH (Str.size (String b r))); [subst; simpl; lia | reflexivity |].
    cbn [Str.contains]. now rewrite Hb, Hr.
Qed.

Lemma capitalized_fixed (seg : string) :
  Str.contains "." seg = false ->
  Str.contains "." (capitalized seg) = false
  /\ capitalized (capitalized seg) = capitalized seg.
Proof.
  destruct seg as [|c rest]; [auto|]. intros H. cbn [Str.contains] in H.
  apply orb_false_iff in H as [Hc Hrest]. split.
  - cbn [capitalized Str.contains]. rewrite toupper_dot, Hc. cbn [orb].
    now apply collapse_dotless.
  - cbn [capitalized]. rewrite toupper_idem. f_equal.
    apply collapse_fixed, collapse_no_underscore_lower.
Qed.

(** X2. [publicize] leaves its own results alone: where it has a result,
    applying it to that result gives the result again. *)
Theorem publicize_idempotent (value result : string) :
  publicize value = Some result -> publicize result = Some result.
Proof.
  intros H. destruct (dot_cases value) as [Hd | [q [seg [-> Hd]]]].
  - rewrite (publicize_dotless _ Hd) in H. injection H as <-.
    destruct (capitalized_fixed _ Hd) as [H1 H2].
    now rewrite (publicize_dotless _ H1), H2.
  - destruct seg as [|c rest];
      [now rewrite (publicize_trailing_dot q) in H|].
    rewrite (publicize_qualified _ _ _ Hd) in H. injection H as <-.
    destruct (capitalized_fixed _ Hd) as [H1 H2].
    cbn [capitalized] in H1, H2.
    rewrite (publicize_qualified _ _ _ H1). injection H2 as -> ->.
    reflexivity.
Qed.

Lemma publicize_idempotent_witness :
  publicize "shared.my_type" = Some "shared.MyType"
  /\ publicize "shared.MyType" = Some "shared.MyType".
Proof.
  split; [reflexivity|].
  apply (publicize_idempotent "shared.my_type"). reflexivity.
Defined.

Lemma new_prefix_qualified (q seg : string) :
  Str.contains "." seg = false ->
  new_prefix (q ++ String "." seg) = Some (q ++ "." ++ "New" ++ capitalized seg).
Proof.
  intros Hd. unfold new_prefix.
  assert (Hsz : Nat.leb (Str.size (q ++ String "." seg)) 0 = false).
  { rewrite size_app. simpl. apply Nat.leb_gt. lia. }
  rewrite Hsz, (rfind_last _ _ _ Hd).
  replace (q ++ String "." seg) with ((q ++ ".") ++ seg)
    by (now rewrite app_assoc_str).
  replace (Str.size q + 1) with (Str.size (q ++ "."))
    by (rewrite size_app; reflexivity).
  unfold Str.substr. rewrite substring_prefix, substr_from_app.
  rewrite (publicize_dotless _ Hd). now rewrite !app_assoc_str.
Qed.

(** X3. [new_prefix] has a result on every name, also on a name that ends
    in a dot, where [publicize] has none: it puts [New] behind the last dot
    (in front of a name without dot) and capitalizes what follows as
    [publicize] does. *)
Theorem new_prefix_defined (value : string) :
  exists result,
    new_prefix value = Some result
    /\ (forall q seg, value = q ++ String "." seg ->
          Str.contains "." seg = false ->
          result = q ++ "." ++ "New" ++ capitalized seg)
    /\ (Str.contains "." value = false -> value <> "" ->
          result = "New" ++ capitalized value).
Proof.
  assert (Hex : exists result, new_prefix value = Some result).
  { destruct (dot_cases value) as [Hd | [q [seg [-> Hd]]]].
    - destruct value as [|c rest]; [now exists EmptyString|].
      unfold new_prefix. cbn [Str.size String.length Nat.leb].
      rewrite (rfind_absent _ _ Hd), (publicize_dotless _ Hd). eauto.
    - rewrite (new_prefix_qualified _ _ Hd). eauto. }
  destruct Hex as [result Hr]. exists result. split; [exact Hr|]. split.
  - intros q seg -> Hd. rewrite (new_prefix_qualified _ _ Hd) in Hr. congruence.
  - intros Hd Hne. destruct value as [|c rest]; [congruence|].
    unfold new_prefix in Hr. cbn [Str.size String.length Nat.leb] in Hr.
    rewrite (rfind_absent _ _ Hd), (publicize_dotless _ Hd) in Hr. congruence.
Qed.

Lemma collapse_size (trigger : ascii -> bool) (s : string) :
  Str.size (collapse trigger s) <= Str.size s.
Proof.
  remember (Str.size s) as n eqn:Hn. revert s Hn.
  induction n as [n IH] using lt_wf_ind. intros s Hn.
  destruct s as [|a [|b r]]; [subst; simpl; lia | subst; simpl; lia |].
  rewrite collapse_cons.
  destruct (Ascii.eqb a "_" && trigger b).
  - pose proof (IH (Str.size r) ltac:(subst; simpl; lia) r eq_refl) as H.
    subst. unfold Str.size in *. cbn [String.length] in *. lia.
  - pose proof (IH (Str.size (String b r)) ltac:(subst; simpl; lia) _ eq_refl) as H.
    subst. unfold Str.size in *. cbn [String.length] in *. lia.
Qed.

(** X4. [privatize] has a result on every name (its loop never reads past
    the end, dots or not), and the result is never longer than the name. *)
Theorem privatize_defined (value : string) :
  exists result, privatize value = Some result
    /\ Str.size result <= Str.size value.
Proof.
  destruct value as [|c rest]; [exists EmptyString; auto|].
  rewrite privatize_closed. eexists. split; [reflexivity|].
  pose proof (collapse_size isalpha rest) as H.
  unfold Str.size in *. cbn [String.length] in *. lia.
Qed.

Lemma tolower_idem (c : ascii) : tolower (tolower c) = tolower c.
Proof. destruct c as [[] [] [] [] [] [] [] []]; reflexivity. Qed.

Lemma transform_tolower_idem (s : string) :
  Str.transform_tolower (Str.transform_tolower s) = Str.transform_tolower s.
Proof.
  induction s as [|a s IH]; simpl; [reflexivity|]. now rewrite tolower_idem, IH.
Qed.

Lemma transform_tolower_app (s t : string) :
  Str.transform_tolower (s ++ t)
  = Str.transform_tolower s ++ Str.transform_tolower t.
Proof. induction s as [|a s IH]; simpl; [reflexivity|]. now rewrite IH. Qed.

Lemma reserved_is_lower (s : string) :
  is_reserved s = true -> Str.transform_tolower s = s.
Proof.
  unfold is_reserved. intros H. apply existsb_exists in H as [w [Hw E]].
  apply String.eqb_eq in E. subst w. simpl in Hw.
  repeat (destruct Hw as [<- | Hw]; [reflexivity|]). destruct Hw.
Qed.

(** X5. [variable_name_to_go_name] never returns one of the reserved words
    it lists, and applying it a second time changes nothing. *)
Theorem variable_name_to_go_name_safe (value : string) :
  is_reserved (variable_name_to_go_name value) = false
  /\ variable_name_to_go_name (variable_name_to_go_name value)
     = variable_name_to_go_name value.
Proof.
  rewrite (variable_name_to_go_name_cases value).
  destruct (is_reserved (Str.transform_tolower value)) eqn:E.
  - split; [apply suffixed_not_reserved|].
    rewrite variable_name_to_go_name_cases.
    rewrite transform_tolower_app, transform_tolower_idem.
    change (Str.transform_tolower "_a1") with "_a1".
    now rewrite suffixed_not_reserved.
  - assert (Hv : is_reserved value = false).
    { destruct (is_reserved value) eqn:Ev; [|reflexivity].
      rewrite (reserved_is_lower _ Ev) in E. congruence. }
    split; [exact Hv|].
    rewrite variable_name_to_go_name_cases. now rewrite E.
Qed.

(** ** The constructor of a result struct *)

Lemma collapse_app_pair (trigger : ascii -> bool) (s : string) (b : ascii)
    (t : string) :
  trigger "_"%char = false -> trigger b = true ->
  collapse trigger (s ++ String "_" (String b t))
  = collapse trigger s ++ String (toupper b) (collapse trigger t).
Proof.
  intros Hu Hb.
  remember (Str.size s) as n eqn:Hn. revert s Hn.
  induction n as [n IH] using lt_wf_ind. intros s Hn.
  destruct s as [|a [|a2 r]].
  - cbn [String.append]. rewrite collapse_cons, Hb. reflexivity.
  - cbn [String.append]. rewrite collapse_cons, Hu, andb_false_r.
    rewrite collapse_cons, Hb. reflexivity.
  - cbn [String.append]. rewrite !collapse_cons.
    destruct (Ascii.eqb a "_" && trigger a2).
    + cbn [String.append]. f_equal.
      apply (IH (Str.size r)); [subst; simpl; lia | reflexivity].
    + cbn [String.append]. f_equal.
      apply (IH (Str.size (String a2 r)) ltac:(subst; simpl; lia) (String a2 r) eq_refl).
Qed.

Lemma no_underscore_lower_Result (s : string) :
  no_underscore_lower s = true -> no_underscore_lower (s ++ "Result") = true.
Proof.
  remember (Str.size s) as n eqn:Hn. revert s Hn.
  induction n as [n IH] using lt_wf_ind. intros s Hn H.
  destruct s as [|a [|b r]]; [reflexivity | |].
  - cbn [String.append]. rewrite no_underscore_lower_cons.
    change (islower "R") with false. now rewrite andb_false_r.
  - rewrite no_underscore_lower_cons in H. apply andb_true_iff in H as [H1 H2].
    change (String a (String b r) ++ "Result")
      with (String a (String b (r ++ "Result"))).
    rewrite no_underscore_lower_cons, H1.
    apply (IH (Str.size (String b r)) ltac:(subst; simpl; lia) (String b r) eq_refl H2).
Qed.

Lemma result_struct_name (tfunction : t_function) :
  struct_get_name (result_struct tfunction) = fn_get_name tfunction ++ "_result".
Proof.
  unfold result_struct.
  set (start := if negb (is_void (fn_get_returntype tfunction)) then _ else _).
  assert (Hs : struct_get_name start = fn_get_name tfunction ++ "_result").
  { subst start. destruct (negb _); [|reflexivity].
    unfold append. now destruct (existsb _ _). }
  clearbody start. revert start Hs.
  induction (struct_get_members (fn_get_xceptions tfunction)) as [|x xs IH];
    intros start Hs; simpl; [exact Hs|].
  apply IH. unfold append. now destruct (existsb _ _).
Qed.

(** X6. The three places that name the constructor of the result struct of
    a function agree: the struct definition declares [New] followed by
    [publicize] of [<name>_result], the [recv] half of the client calls
    [New] followed by [publicize] of [publicize(<name>)] and [Result], and
    [Process] calls [New] followed by [publicize(<name>)] and [Result]. (The
    name of the function has a final segment that is not empty.) *)
Theorem result_constructor_names_agree (escape_string : string -> string)
    (tservice : t_service) (f : t_function) (prefix : string) (c : ascii)
    (rest processorName : string) (body : list process_stmt) :
  fn_get_name f = prefix ++ String c rest ->
  prefix = "" \/ (exists q, prefix = q ++ ".") ->
  Str.contains "." (String c rest) = false ->
  generate_process_function escape_string tservice f = Some (processorName, body) ->
  exists constructor,
    declared_constructor (result_struct f) = Some constructor
    /\ client_result_constructor f = Some constructor
    /\ process_result_constructor body = Some constructor.
Proof.
  intros Hname Hprefix Hdot Hgen.
  assert (Hpub : forall seg, Str.contains "." seg = false ->
            publicize (prefix ++ String c seg)
            = Some (prefix ++ String (toupper c) (collapse islower seg))).
  { intros seg Hseg.
    assert (Hd : Str.contains "." (String c seg) = false).
    { cbn [Str.contains] in Hdot |- *. apply orb_false_iff in Hdot as [-> _].
      exact Hseg. }
    destruct Hprefix as [-> | [q ->]].
    - now apply publicize_segment.
    - rewrite !app_assoc_str. now apply publicize_qualified. }
  assert (Hrest : Str.contains "." rest = false).
  { cbn [Str.contains] in Hdot. now apply orb_false_iff in Hdot as [_ ->]. }
  exists ("New" ++ (prefix ++ String (toupper c) (collapse islower rest)) ++ "Result").
  split; [|split].
  - unfold declared_constructor. rewrite result_struct_name, Hname.
    rewrite app_assoc_str. cbn [String.append].
    rewrite Hpub by (rewrite contains_app, Hrest; reflexivity).
    change "_result" with (String "_" (String "r" "esult")).
    rewrite collapse_app_pair by reflexivity.
    change (collapse islower "esult") with "esult".
    now rewrite !app_assoc_str.
  - unfold client_result_constructor. rewrite Hname, (Hpub rest Hrest).
    rewrite app_assoc_str. cbn [String.append].
    destruct Hprefix as [-> | [q ->]].
    + cbn [String.append]. rewrite publicize_segment.
      * rewrite toupper_idem, collapse_fixed; [reflexivity|].
        apply no_underscore_lower_Result, collapse_no_underscore_lower.
      * cbn [Str.contains] in Hdot |- *. apply orb_false_iff in Hdot as [Hc _].
        rewrite toupper_dot, Hc, contains_app, (collapse_dotless _ Hrest).
        reflexivity.
    + rewrite !app_assoc_str. cbn [String.append]. rewrite publicize_qualified.
      * rewrite toupper_idem, collapse_fixed; [reflexivity|].
        apply no_underscore_lower_Result, collapse_no_underscore_lower.
      * cbn [Str.contains] in Hdot |- *. apply orb_false_iff in Hdot as [Hc _].
        rewrite toupper_dot, Hc, contains_app, (collapse_dotless _ Hrest).
        reflexivity.
  - unfold generate_process_function in Hgen. rewrite Hname, (Hpub rest Hrest) in Hgen.
    destruct (privatize (svc_get_name tservice)); [|discriminate].
    destruct (go_field_names _); [|discriminate].
    destruct (process_result_args f); [|discriminate].
    injection Hgen as _ <-. cbn [process_result_constructor].
    now rewrite !app_assoc_str.
Qed.

Lemma result_constructor_names_agree_witness :
  declared_constructor (result_struct lookup) = Some "NewLookupResult"
  /\ client_result_constructor lookup = Some "NewLookupResult".
Proof.
  destruct (result_constructor_names_agree escape_plain Notifier lookup
              "" "l" "ookup" "notifierProcessorLookup"
              (match generate_process_function escape_plain Notifier lookup with
               | Some (_, b) => b
               | None => []
               end) eq_refl (or_introl eq_refl) eq_refl eq_refl)
    as [ctor [H1 [H2 H3]]].
  vm_compute in H3. injection H3 as <-. split; [exact H1 | exact H2].
Defined.

(** ** Enums: String and FromString *)

Section EnumRoundTrip.

Variable escape_string : string -> string.

(** [FromString] has one label a constant, the text [String()] returns for
    it: the test that would add a second label never holds. *)
Lemma enum_loop_labels (t : string) (cs : list t_enum_value) :
  forall v0 e, In e (enum_loop escape_string t v0 cs) ->
               ee_labels e = [ee_string e].
Proof.
  induction cs as [|c cs IH]; intros v0 e He; [destruct He|].
  cbn [enum_loop] in He. destruct He as [<- | He]; [|now apply (IH _ _ He)].
  cbn [ee_labels ee_string]. now rewrite String.eqb_refl.
Qed.

Lemma eval_String_found (entries : list enum_entry) (e : enum_entry) :
  In e entries ->
  exists e1, In e1 entries /\ ee_value e1 = ee_value e
    /\ eval_String_cases entries (ee_value e) = go_string_value (ee_string e1)
    /\ (NoDup (map ee_value entries) -> e1 = e).
Proof.
  induction entries as [|e0 rest IH]; intros He; [destruct He|].
  cbn [eval_String_cases].
  destruct (Z.eqb_spec (ee_value e) (ee_value e0)) as [E|E].
  - exists e0. split; [now left|]. split; [congruence|]. split; [reflexivity|].
    intros Hnd. destruct He as [-> | He]; [reflexivity|].
    cbn [map] in Hnd. apply NoDup_cons_iff in Hnd as [Hnot _].
    exfalso. apply Hnot. rewrite <- E. now apply in_map.
  - destruct He as [-> | He]; [congruence|].
    destruct (IH He) as [e1 [H1 [H2 [H3 H4]]]].
    exists e1. split; [now right|]. split; [exact H2|]. split; [exact H3|].
    intros Hnd. apply H4. cbn [map] in Hnd. now apply NoDup_cons_iff in Hnd.
Qed.

Lemma eval_FromString_found (t : string) (entries : list enum_entry)
    (e1 : enum_entry) :
  (forall e, In e entries -> ee_labels e = [ee_string e]) ->
  NoDup (map (fun e => go_string_value (ee_string e)) entries) ->
  In e1 entries ->
  eval_FromString_cases t entries (go_string_value (ee_string e1))
  = (ee_value e1, None).
Proof.
  induction entries as [|e0 rest IH]; intros Hl Hnd He; [destruct He|].
  cbn [eval_FromString_cases]. rewrite (Hl e0 (or_introl eq_refl)).
  cbn [existsb]. rewrite orb_false_r.
  cbn [map] in Hnd. apply NoDup_cons_iff in Hnd as [Hnot Hnd].
  destruct (String.eqb_spec (go_string_value (ee_string e1))
                            (go_string_value (ee_string e0))) as [E|E].
  - destruct He as [-> | He]; [reflexivity|].
    exfalso. apply Hnot. rewrite <- E.
    now apply (in_map (fun e => go_string_value (ee_string e))).
  - destruct He as [-> | He]; [congruence|].
    apply IH; [intros e He'; apply Hl; now right | exact Hnd | exact He].
Qed.

Lemma eval_FromString_inv (t : string) (entries : list enum_entry)
    (s : string) (v : Z) :
  (forall e, In e entries -> ee_labels e = [ee_string e]) ->
  eval_FromString_cases t entries s = (v, None) ->
  exists e, In e entries /\ ee_value e = v /\ go_string_value (ee_string e) = s.
Proof.
  induction entries as [|e0 rest IH]; intros Hl H; [discriminate|].
  cbn [eval_FromString_cases] in H. rewrite (Hl e0 (or_introl eq_refl)) in H.
  cbn [existsb] in H. rewrite orb_false_r in H.
  destruct (String.eqb_spec s (go_string_value (ee_string e0))) as [E|E].
  - injection H as <-. exists e0. split; [now left | auto].
  - destruct IH as [e [H1 [H2 H3]]]; [intros e He; apply Hl; now right | exact H|].
    exists e. split; [now right | auto].
Qed.

End EnumRoundTrip.

(** X7. Where the texts that [String()] returns for the constants of an
    enum differ from one another, [FromString] maps the text [String()]
    returns for a declared constant back to the value of that constant,
    with a nil error. *)
Theorem FromString_of_String (escape_string : string -> string)
    (tenum : t_enum) (g : go_enum) (e : enum_entry) :
  generate_enum escape_string tenum = Some g ->
  NoDup (map (fun e => go_string_value (ee_string e)) (ge_entries g)) ->
  In e (ge_entries g) ->
  eval_FromString g (eval_String g (ee_value e)) = (ee_value e, None).
Proof.
  intros Hgen Hnd He.
  assert (Hl : forall e, In e (ge_entries g) -> ee_labels e = [ee_string e]).
  { unfold generate_enum in Hgen.
    destruct (publicize (enum_get_name tenum)); [|discriminate].
    injection Hgen as <-. intros e'. apply enum_loop_labels. }
  destruct (eval_String_found _ _ He) as [e1 [H1 [H2 [H3 _]]]].
  unfold eval_FromString, eval_String. rewrite H3, <- H2.
  now apply eval_FromString_found.
Qed.

Lemma FromString_of_String_witness :
  exists g, generate_enum escape_plain Color = Some g
    /\ eval_FromString g (eval_String g 5) = (5%Z, None).
Proof.
  eexists. split; [reflexivity|].
  apply (FromString_of_String escape_plain Color _
           {| ee_iter_name := "BLUE"; ee_value := 5;
              ee_string := "Color_BLUE"; ee_labels := ["Color_BLUE"] |} eq_refl).
  - simpl. repeat constructor; simpl; intuition discriminate.
  - simpl. auto.
Defined.

(** X8. Where the values of the constants of an enum differ from one
    another, [String()] maps the value [FromString] returns with a nil
    error back to the string that was given: [FromString] accepts no other
    strings than those [String()] returns. *)
Theorem String_of_FromString (escape_string : string -> string)
    (tenum : t_enum) (g : go_enum) (s : string) (v : Z) :
  generate_enum escape_string tenum = Some g ->
  NoDup (map ee_value (ge_entries g)) ->
  eval_FromString g s = (v, None) ->
  eval_String g v = s.
Proof.
  intros Hgen Hnd H.
  assert (Hl : forall e, In e (ge_entries g) -> ee_labels e = [ee_string e]).
  { unfold generate_enum in Hgen.
    destruct (publicize (enum_get_name tenum)); [|discriminate].
    injection Hgen as <-. intros e'. apply enum_loop_labels. }
  destruct (eval_FromString_inv _ _ _ _ Hl H) as [e [He [<- <-]]].
  destruct (eval_String_found _ _ He) as [e1 [_ [_ [H3 H4]]]].
  unfold eval_String. rewrite H3. now rewrite (H4 Hnd).
Qed.

Lemma String_of_FromString_witness :
  exists g, generate_enum escape_plain Color = Some g
    /\ eval_String g 1 = "Color_GREEN".
Proof.
  eexists. split; [reflexivity|].
  apply (String_of_FromString escape_plain Color _ "Color_GREEN" 1 eq_refl).
  - simpl. repeat constructor; simpl; intuition discriminate.
  - reflexivity.
Defined.

(** ** The package of a program: directory, name, import path, qualifier *)

Lemma final_segment_dotless (s : string) :
  Str.contains "." s = false -> final_segment s = s.
Proof.
  destruct s as [|a r]; [reflexivity|]. cbn [final_segment Str.contains].
  intros H. apply orb_false_iff in H as [Ha Hr]. now rewrite Hr, Ha.
Qed.

Lemma final_segment_cons (a : ascii) (r : string) :
  final_segment (String a r)
  = if Ascii.eqb a "." then final_segment r
    else if Str.contains "." r then final_segment r else String a r.
Proof.
  cbn [final_segment].
  destruct (Str.contains "." r) eqn:H; destruct (Ascii.eqb a "."); try reflexivity.
  symmetry. now apply final_segment_dotless.
Qed.

Lemma final_segment_first_dot (pre post : string) :
  Str.contains "." pre = false ->
  final_segment (pre ++ String "." post) = final_segment post.
Proof.
  induction pre as [|a pre IH]; intros H; cbn [String.append].
  - now rewrite final_segment_cons, Ascii.eqb_refl.
  - cbn [Str.contains] in H. apply orb_false_iff in H as [Ha Hpre].
    rewrite final_segment_cons, Ha, contains_app. cbn [Str.contains].
    rewrite Ascii.eqb_refl, orb_true_r. now apply IH.
Qed.

Lemma final_segment_last_dot (q seg : string) :
  Str.contains "." seg = false ->
  final_segment (q ++ String "." seg) = seg.
Proof.
  intros H. induction q as [|a q IH]; cbn [String.append].
  - rewrite final_segment_cons, Ascii.eqb_refl. now apply final_segment_dotless.
  - rewrite final_segment_cons, contains_app. cbn [Str.contains].
    rewrite Ascii.eqb_refl, orb_true_r. now destruct (Ascii.eqb a ".").
Qed.

Lemma type_name_qualifier_final (module : string) :
  type_name_qualifier module = final_segment module.
Proof.
  unfold type_name_qualifier. pose proof (rfind_decompose "." module) as H.
  destruct (Str.rfind "." module) as [dot|].
  - destruct H as [q [seg [-> [<- Hseg]]]].
    rewrite (final_segment_last_dot _ _ Hseg).
    change (q ++ String "." seg) with (q ++ ("." ++ seg)).
    rewrite <- app_assoc_str.
    replace (Str.size q + 1) with (Str.size (q ++ "."))
      by (rewrite size_app; reflexivity).
    apply substr_from_app.
  - symmetry. now apply final_segment_dotless.
Qed.

Lemma find_char_spec (c : ascii) (s : string) :
  match find_char c s with
  | Some pos => exists pre post, s = pre ++ String c post /\ Str.size pre = pos
                                 /\ Str.contains c pre = false
  | None => Str.contains c s = false
  end.
Proof.
  induction s as [|a r IH]; cbn [find_char Str.contains]; [reflexivity|].
  destruct (Ascii.eqb_spec a c) as [->|Hne].
  - exists EmptyString, r. auto.
  - destruct (find_char c r) as [i|].
    + destruct IH as [pre [post [-> [<- Hpre]]]].
      exists (String a pre), post. repeat split.
      cbn [Str.contains]. rewrite Hpre.
      now destruct (Ascii.eqb_spec a c).
    + exact IH.
Qed.

Lemma dots_to_slashes_dotless (s : string) :
  Str.contains "." s = false -> dots_to_slashes s = s.
Proof.
  induction s as [|a r IH]; [reflexivity|]. cbn [Str.contains dots_to_slashes].
  intros H. apply orb_false_iff in H as [Ha Hr]. now rewrite Ha, (IH Hr).
Qed.

Lemma dots_to_slashes_app (s t : string) :
  dots_to_slashes (s ++ t) = dots_to_slashes s ++ dots_to_slashes t.
Proof.
  induction s as [|a r IH]; [reflexivity|].
  cbn [String.append dots_to_slashes]. now rewrite IH.
Qed.

Lemma ends_with_dot_after (pre post : string) :
  ends_with_dot (pre ++ String "." post) = false ->
  post <> "" /\ ends_with_dot post = false.
Proof.
  induction pre as [|a pre IH]; cbn [String.append].
  - destruct post; [discriminate|]. cbn [ends_with_dot]. intros H.
    split; [discriminate | exact H].
  - intros H. apply IH. destruct pre; exact H.
Qed.

Lemma ends_with_dot_spec (s : string) :
  ends_with_dot s = true <-> exists q, s = q ++ ".".
Proof.
  induction s as [|a r IH].
  - split; [discriminate|]. intros [[|? ?] H]; discriminate.
  - cbn [ends_with_dot]. destruct r as [|b r].
    + split.
      * intros H. apply Ascii.eqb_eq in H as ->. now exists EmptyString.
      * intros [[|x [|? ?]] H]; try discriminate.
        injection H as ->. apply Ascii.eqb_refl.
    + rewrite IH. split.
      * intros [q ->]. now exists (String a q).
      * intros [[|x q] H]; [discriminate|]. injection H as _ H. now exists q.
Qed.

Lemma substr_from_app_le (s t : string) :
  forall found, found <= Str.size s ->
                Str.substr_from found (s ++ t) = Str.substr_from found s ++ t.
Proof.
  unfold Str.substr_from.
  induction s as [|x s IH]; intros found Hle.
  - cbn [Str.size String.length] in Hle. replace found with 0 by lia.
    cbn [String.append]. rewrite Nat.sub_0_r. apply substring_all.
  - destruct found as [|f].
    + rewrite !Nat.sub_0_r. rewrite (substring_all (String x s)).
      apply substring_all.
    + cbn [Str.size String.length] in Hle.
      specialize (IH f ltac:(unfold Str.size; lia)). exact IH.
Qed.

Lemma package_loop_spec :
  forall n module, Str.size module < n ->
  forall fuel dir mk, Str.size module < fuel ->
  exists st,
    package_loop fuel {| ps_module := module; ps_package_dir := dir;
                         ps_package_name := EmptyString; ps_mkdir := mk |}
    = Some st
    /\ ps_package_name st = final_segment module
    /\ (module <> "" -> ends_with_dot module = false ->
        ps_package_dir st = dir ++ "/" ++ dots_to_slashes module)
    /\ In (ps_package_dir st) (ps_mkdir st).
Proof.
  induction n as [|n IH]; intros module Hn fuel dir mk Hfuel; [lia|].
  destruct fuel as [|fuel]; [lia|].
  cbn [package_loop ps_module ps_package_dir ps_package_name ps_mkdir].
  destruct module as [|a r].
  - cbn [Str.size String.length Nat.eqb]. eexists. split; [reflexivity|].
    cbn [ps_package_name ps_package_dir ps_mkdir final_segment].
    split; [reflexivity|]. split; [congruence|].
    apply in_or_app. right. now left.
  - cbn [Str.size String.length Nat.eqb].
    pose proof (find_char_spec "." (String a r)) as Hf.
    destruct (find_char "." (String a r)) as [pos|].
    + destruct Hf as [pre [post [E [<- Hpre]]]]. rewrite E.
      assert (Hsz : Str.size (String a r) = Str.size pre + S (Str.size post)).
      { rewrite E, size_app. reflexivity. }
      replace (Str.substr_from (Str.size pre + 1) (pre ++ String "." post))
        with post.
      2:{ change (pre ++ String "." post) with (pre ++ ("." ++ post)).
          rewrite <- app_assoc_str.
          replace (Str.size pre + 1) with (Str.size (pre ++ "."))
            by (rewrite size_app; reflexivity).
          symmetry. apply substr_from_app. }
      unfold Str.substr. rewrite substring_prefix.
      destruct (IH post ltac:(lia) fuel ((dir ++ "/") ++ pre)
                  (mk ++ [dir])%list ltac:(lia))
        as [st [Hst [Hname [Hdir Hmk]]]].
      exists st. split; [exact Hst|].
      split; [now rewrite final_segment_first_dot|].
      split; [|exact Hmk].
      intros _ Hend. apply ends_with_dot_after in Hend as [Hne Hend].
      rewrite (Hdir Hne Hend), dots_to_slashes_app.
      cbn [dots_to_slashes]. rewrite Ascii.eqb_refl.
      rewrite (dots_to_slashes_dotless _ Hpre).
      rewrite !app_assoc_str. reflexivity.
    + assert (Hfuel' : 0 < fuel) by (cbn [Str.size String.length] in Hfuel; lia).
      destruct fuel as [|fuel]; [lia|].
      cbn [package_loop ps_module ps_package_dir ps_package_name ps_mkdir
           Str.size String.length Nat.eqb].
      eexists. split; [reflexivity|].
      cbn [ps_package_name ps_package_dir ps_mkdir].
      split; [symmetry; now apply final_segment_dotless|].
      split.
      * intros _ _. rewrite (dots_to_slashes_dotless _ Hf).
        now rewrite app_assoc_str.
      * apply in_or_app. right. now left.
Qed.

Lemma include_loop_spec :
  forall rest j found done,
    j = Str.size done -> found <= j ->
    fst (include_loop j found done rest) = done ++ dots_to_slashes rest
    /\ Str.substr_from (snd (include_loop j found done rest))
                       (fst (include_loop j found done rest))
       = if Str.contains "." rest then final_segment rest
         else Str.substr_from found done ++ rest.
Proof.
  induction rest as [|a r IH]; intros j found done Hj Hle.
  - cbn [include_loop fst snd dots_to_slashes Str.contains].
    now rewrite !app_empty_r.
  - cbn [include_loop dots_to_slashes Str.contains].
    destruct (Ascii.eqb_spec a ".") as [->|Hne].
    + destruct (IH (S j) (j + 1) (done ++ "/")) as [H1 H2].
      { rewrite size_app, Hj. cbn [Str.size String.length]. lia. }
      { lia. }
      rewrite H1, H2 in *. split; [now rewrite app_assoc_str|].
      cbn [orb]. rewrite final_segment_cons, Ascii.eqb_refl.
      destruct (Str.contains "." r) eqn:Hr; [reflexivity|].
      rewrite (final_segment_dotless _ Hr).
      replace (j + 1) with (Str.size (done ++ "/"))
        by (rewrite size_app, Hj; reflexivity).
      pose proof (substr_from_app (done ++ "/") "") as E.
      rewrite app_empty_r in E. now rewrite E.
    + destruct (IH (S j) found (done ++ String a "")) as [H1 H2].
      { rewrite size_app, Hj. cbn [Str.size String.length]. lia. }
      { lia. }
      rewrite H1, H2 in *. split; [now rewrite app_assoc_str|].
      cbn [orb]. rewrite final_segment_cons.
      destruct (Ascii.eqb_spec a ".") as [|_]; [contradiction|].
      destruct (Str.contains "." r) eqn:Hr; [reflexivity|].
      rewrite substr_from_app_le by lia. now rewrite app_assoc_str.
Qed.

Lemma include_package_final (go_module : string) :
  include_package go_module = final_segment go_module.
Proof.
  unfold include_package.
  destruct (include_loop_spec go_module 0 0 EmptyString eq_refl (le_n 0))
    as [_ H].
  destruct (include_loop 0 0 "" go_module) as [slashed found].
  cbn [fst snd] in H. rewrite H.
  destruct (Str.contains "." go_module) eqn:Hc; [reflexivity|].
  symmetry. now apply final_segment_dotless.
Qed.

(** X9. For every module name the first loop of [init_generator] comes to
    an end, and the package name it leaves is at once the name an including
    program writes in its unused-import line ([render_includes]) and the
    qualifier [type_name] puts in front of the types of that module. *)
Theorem package_name_agrees (module out_dir : string) :
  exists st,
    init_generator module out_dir = Some st
    /\ include_package module = ps_package_name st
    /\ (forall name, type_name (t_enum_ref (Some module) name)
                     = ps_package_name st ++ "." ++ name)
    /\ (forall name x, type_name (t_struct_ref (Some module) name x)
                       = ps_package_name st ++ "." ++ name)
    /\ (forall name t, type_name (t_typedef (Some module) name t)
                       = ps_package_name st ++ "." ++ name).
Proof.
  destruct (package_loop_spec (S (Str.size module)) module (Nat.lt_succ_diag_r _)
              (S (S (Str.size module))) out_dir [] ltac:(lia))
    as [st [Hst [Hname _]]].
  exists st. split; [exact Hst|].
  split; [now rewrite include_package_final, Hname|].
  pose proof (type_name_qualifier_final module) as Hq.
  unfold type_name_qualifier in Hq.
  repeat split; intros; cbn [type_name]; now rewrite Hq, Hname.
Qed.

(** X10. A module name that is not empty and does not end in a dot is
    generated into the directory one gets from the output directory by
    appending the module with a slash for every dot; that directory is among
    those the generator makes, and the import path an including program
    writes is the package prefix followed by the same slashed module. *)
Theorem package_directory (module out_dir : string) :
  module <> "" ->
  ends_with_dot module = false ->
  exists st,
    init_generator module out_dir = Some st
    /\ ps_package_dir st = out_dir ++ "/" ++ dots_to_slashes module
    /\ In (ps_package_dir st) (ps_mkdir st)
    /\ forall gen_package_prefix,
         include_import_path gen_package_prefix module
         = gen_package_prefix ++ dots_to_slashes module.
Proof.
  intros Hne Hend.
  destruct (package_loop_spec (S (Str.size module)) module (Nat.lt_succ_diag_r _)
              (S (S (Str.size module))) out_dir [] ltac:(lia))
    as [st [Hst [_ [Hdir Hmk]]]].
  exists st. split; [exact Hst|]. split; [now apply Hdir|].
  split; [exact Hmk|]. intros prefix. unfold include_import_path.
  now destruct (include_loop_spec module 0 0 EmptyString eq_refl (le_n 0))
    as [-> _].
Qed.

Lemma package_directory_witness :
  exists st,
    init_generator "shared.types" "gen-go" = Some st
    /\ ps_package_dir st = "gen-go/shared/types"
    /\ In (ps_package_dir st) (ps_mkdir st)
    /\ forall gen_package_prefix,
         include_import_path gen_package_prefix "shared.types"
         = gen_package_prefix ++ "shared/types".
Proof.
  apply (package_directory "shared.types" "gen-go");
    [discriminate | reflexivity].
Defined.

(** ** Writing and reading a value *)

(** X11. [generate_serialize_field] throws exactly when a void type occurs
    in the type of the field, be it behind typedefs or inside containers,
    or when the name of the field has no public form. *)
Theorem serialize_field_throws (type : t_type) (tfield_name prefix : string) :
  generate_serialize_field type tfield_name prefix = None
  <-> can_serialize type = false
      \/ publicize (variable_name_to_go_name tfield_name) = None.
Proof.
  destruct (publicize (variable_name_to_go_name tfield_name)) as [go_name|] eqn:E.
  - rewrite (serialize_field_none type tfield_name prefix go_name E).
    split; [now left | now intros [H|H]].
  - rewrite (serialize_field_unnamed _ _ _ E). split; [now right | reflexivity].
Qed.

Lemma deserialize_field_unnamed (orig_type type : t_type) (tfield_name : string)
    (declare : bool) (prefix : string) (counter : nat) :
  publicize (variable_name_to_go_name tfield_name) = None ->
  deserialize_field orig_type type tfield_name declare prefix counter = None.
Proof.
  intros H. destruct type; cbn [deserialize_field]; now rewrite H.
Qed.

Lemma deserialize_value_wire (orig_type : t_type) (tfield_name : string)
    (declare : bool) (name method : string) (e b : bool) (code : read_code) :
  deserialize_value orig_type tfield_name declare name method e b = Some code ->
  wire_of_read code = wire_value (Str.substr_from (Str.size "Read") method).
Proof.
  unfold deserialize_value. intros H.
  destruct (if declare then _ else _); [|discriminate].
  destruct (if e || is_typedef orig_type then _ else _); [|discriminate].
  now injection H as <-.
Qed.

Lemma read_write_wire (type : t_type) :
  forall orig_type tfield_name declare prefix counter code counter',
    deserialize_field orig_type type tfield_name declare prefix counter
    = Some (code, counter') ->
    forall name' prefix' go_name,
      publicize (variable_name_to_go_name name') = Some go_name ->
      exists written,
        generate_serialize_field type name' prefix' = Some written
        /\ wire_of_write written = wire_of_read code.
Proof.
  assert (Henum : forall t name p w,
             generate_serialize_field t name p = Some w ->
             exists e, type_to_enum t = Some e).
  { intros t name p w H. destruct (type_to_enum t) eqn:E; [eauto|].
    apply type_to_enum_none, void_cannot_serialize in E.
    assert (generate_serialize_field t name p = None); [|congruence].
    now apply serialize_field_cannot. }
  induction type as [tbase b| | | m sy u IH|e IH|e IH|k IHk v IHv];
    intros orig_type tfield_name declare prefix counter code counter' H
           name' prefix' go_name Hname;
    cbn [generate_serialize_field]; rewrite Hname;
    cbn [deserialize_field] in H;
    (destruct (publicize (variable_name_to_go_name tfield_name)) as [g|];
     [|discriminate]).
  - destruct (read_call tbase b) as [method|] eqn:Em; [|discriminate].
    destruct (deserialize_value _ _ _ _ _ _ _) eqn:Ev in H; [|discriminate].
    injection H as <- _. rewrite (deserialize_value_wire _ _ _ _ _ _ _ _ Ev).
    destruct tbase; try discriminate; cbn [write_call];
      try (injection Em as <-; eexists; split; reflexivity).
    destruct b; injection Em as <-; eexists; split; reflexivity.
  - destruct (deserialize_value _ _ _ _ _ _ _) eqn:Ev in H; [|discriminate].
    injection H as <- _. rewrite (deserialize_value_wire _ _ _ _ _ _ _ _ Ev).
    eexists; split; reflexivity.
  - destruct (new_prefix _); [|discriminate]. injection H as <- _.
    eexists; split; reflexivity.
  - now apply (IH _ _ _ _ _ _ _ H _ _ go_name).
  - destruct (type_to_go_type (t_list e)); [|discriminate].
    cbn [tmp] in H.
    destruct (deserialize_field e e _ true "" (S counter)) as [[ec c1]|] eqn:Ee;
      [|discriminate].
    injection H as <- _.
    destruct (IH _ _ _ _ _ _ _ Ee "" "v" "" element_name) as [w [Hw Hwire]].
    destruct (Henum _ _ _ _ Hw) as [en Hen]. rewrite Hen, Hw.
    eexists. split; [reflexivity|]. cbn [wire_of_write wire_of_read].
    now rewrite Hwire.
  - destruct (type_to_go_type e); [|discriminate].
    cbn [tmp] in H.
    destruct (deserialize_field e e _ true "" (S counter)) as [[ec c1]|] eqn:Ee;
      [|discriminate].
    injection H as <- _.
    destruct (IH _ _ _ _ _ _ _ Ee "" "v" "" element_name) as [w [Hw Hwire]].
    destruct (Henum _ _ _ _ Hw) as [en Hen]. rewrite Hen, Hw.
    eexists. split; [reflexivity|]. cbn [wire_of_write wire_of_read].
    now rewrite Hwire.
  - destruct (type_to_go_type k); [|discriminate].
    destruct (type_to_go_type v); [|discriminate].
    cbn [tmp] in H.
    destruct (deserialize_field k k _ true "" (S (S counter)))
      as [[kc c1]|] eqn:Ek; [|discriminate].
    destruct (deserialize_field v v _ true "" c1) as [[vc c2]|] eqn:Ev;
      [|discriminate].
    injection H as <- _.
    destruct (IHk _ _ _ _ _ _ _ Ek "" "k" "" element_name) as [wk [Hwk Hwirek]].
    destruct (IHv _ _ _ _ _ _ _ Ev "" "v" "" element_name) as [wv [Hwv Hwirev]].
    destruct (Henum _ _ _ _ Hwk) as [ek Hek].
    destruct (Henum _ _ _ _ Hwv) as [ev Hev].
    rewrite Hek, Hev, Hwk, Hwv.
    eexists. split; [reflexivity|]. cbn [wire_of_write wire_of_read].
    now rewrite Hwirek, Hwirev.
Qed.

(** X12. Where the reading code of a field is generated, so is its writing
    code, and the two make the same protocol calls in the same nesting: a
    value goes out through [Write<Kind>] and comes in through [Read<Kind>]
    of the same kind, a struct through its own [Write] and [Read], and the
    elements of a container likewise. *)
Theorem reader_mirrors_writer (type : t_type) (tfield_name : string)
    (declare : bool) (prefix prefix' : string) (counter counter' : nat)
    (code : read_code) :
  generate_deserialize_field type tfield_name declare prefix counter
  = Some (code, counter') ->
  exists written,
    generate_serialize_field type tfield_name prefix' = Some written
    /\ wire_of_write written = wire_of_read code.
Proof.
  unfold generate_deserialize_field. intros H.
  destruct (publicize (variable_name_to_go_name tfield_name)) as [g|] eqn:E.
  - exact (read_write_wire _ _ _ _ _ _ _ _ H _ prefix' _ E).
  - rewrite (deserialize_field_unnamed _ _ _ _ _ _ E) in H. discriminate.
Qed.

Lemma reader_mirrors_writer_witness :
  exists code counter',
    generate_deserialize_field
      (t_map (t_base_type TYPE_STRING false) (t_list (t_enum_ref None "Color")))
      "tags" false "p." 0 = Some (code, counter')
    /\ wire_of_read code
       = wire_map (wire_value "String") (wire_list (wire_value "I32"))
    /\ exists written,
         generate_serialize_field
           (t_map (t_base_type TYPE_STRING false) (t_list (t_enum_ref None "Color")))
           "tags" "p." = Some written
         /\ wire_of_write written = wire_of_read code.
Proof.
  eexists. eexists. split; [vm_compute; reflexivity|].
  split; [vm_compute; reflexivity|].
  eapply (reader_mirrors_writer _ _ false "p." "p." 0).
  vm_compute. reflexivity.
Defined.

Lemma serialize_headers (type : t_type) :
  forall tfield_name prefix written,
    generate_serialize_field type tfield_name prefix = Some written ->
    headers_agree written = true
    /\ forall enum, type_to_enum type = Some enum ->
                    names_wire enum (wire_of_write written) = true.
Proof.
  induction type as [tbase b| | | m sy u IH|e IH|e IH|k IHk v IHv];
    intros tfield_name prefix written H;
    cbn [generate_serialize_field] in H;
    (destruct (publicize (variable_name_to_go_name tfield_name)) as [g|];
     [|discriminate]).
  - destruct tbase; try discriminate; cbn [write_call] in H;
      try (injection H as <-; split; [reflexivity|];
           intros enum E; injection E as <-; reflexivity).
    destruct b; injection H as <-; (split; [reflexivity|]);
      intros enum E; injection E as <-; reflexivity.
  - injection H as <-. split; [reflexivity|].
    intros enum E; injection E as <-; reflexivity.
  - injection H as <-. split; [reflexivity|].
    intros enum E; injection E as <-; reflexivity.
  - destruct (IH _ _ _ H) as [H1 H2]. split; [exact H1|].
    intros enum E. apply H2. exact E.
  - destruct (type_to_enum e) as [en|] eqn:Een; [|discriminate].
    destruct (generate_serialize_field e "" "v") as [ec|] eqn:Ee; [|discriminate].
    injection H as <-. destruct (IH _ _ _ Ee) as [H1 H2].
    split.
    + cbn [headers_agree]. now rewrite (H2 _ eq_refl), H1.
    + intros enum E; injection E as <-; reflexivity.
  - destruct (type_to_enum e) as [en|] eqn:Een; [|discriminate].
    destruct (generate_serialize_field e "" "v") as [ec|] eqn:Ee; [|discriminate].
    injection H as <-. destruct (IH _ _ _ Ee) as [H1 H2].
    split.
    + cbn [headers_agree]. now rewrite (H2 _ eq_refl), H1.
    + intros enum E; injection E as <-; reflexivity.
  - destruct (type_to_enum k) as [ke|] eqn:Eke; [|discriminate].
    destruct (type_to_enum v) as [ve|] eqn:Eve; [|discriminate].
    destruct (generate_serialize_field k "" "k") as [kc|] eqn:Ek; [|discriminate].
    destruct (generate_serialize_field v "" "v") as [vc|] eqn:Ev; [|discriminate].
    injection H as <-.
    destruct (IHk _ _ _ Ek) as [Hk1 Hk2]. destruct (IHv _ _ _ Ev) as [Hv1 Hv2].
    split.
    + cbn [headers_agree].
      now rewrite (Hk2 _ eq_refl), (Hv2 _ eq_refl), Hk1, Hv1.
    + intros enum E; injection E as <-; reflexivity.
Qed.

(** X13. The type code a generated writer announces is the code of what
    it then writes, case apart: the code [type_to_enum] gives for the field
    header names the call that writes the value, and every container
    header inside names the calls that write its elements; an enum is
    announced as [thrift.I32] and written by [WriteI32]. *)
Theorem written_headers_name_the_calls (type : t_type)
    (tfield_name prefix : string) (written : write_code) :
  generate_serialize_field type tfield_name prefix = Some written ->
  exists enum,
    type_to_enum type = Some enum
    /\ names_wire enum (wire_of_write written) = true
    /\ headers_agree written = true.
Proof.
  intros H. destruct (serialize_headers _ _ _ _ H) as [H1 H2].
  destruct (type_to_enum type) as [enum|] eqn:E.
  - exists enum. auto.
  - apply type_to_enum_none, void_cannot_serialize in E.
    assert (generate_serialize_field type tfield_name prefix = None);
      [|congruence].
    now apply serialize_field_cannot.
Qed.

Lemma written_headers_name_the_calls_witness :
  exists written,
    generate_serialize_field
      (t_typedef None "Palette" (t_set (t_enum_ref None "Color")))
      "palette" "p." = Some written
    /\ exists enum,
         type_to_enum (t_typedef None "Palette" (t_set (t_enum_ref None "Color")))
         = Some enum
         /\ names_wire enum (wire_of_write written) = true
         /\ headers_agree written = true.
Proof.
  eexists. split; [vm_compute; reflexivity|].
  apply (written_headers_name_the_calls _ "palette" "p.").
  vm_compute. reflexivity.
Defined.

(** ** The temporaries of the reading code *)

Lemma show_int_inj (z1 z2 : Z) : show_int z1 = show_int z2 -> z1 = z2.
Proof.
  unfold show_int. intros H. apply DecimalZ.to_int_inj.
  assert (Hn : forall z, Z.to_int z <> Decimal.Pos Decimal.Nil
                         /\ Z.to_int z <> Decimal.Neg Decimal.Nil).
  { intros [|p|p]; cbn [Z.to_int]; split; try discriminate;
      intros E; injection E as E;
      now apply DecimalPos.Unsigned.to_uint_nonnil in E. }
  apply (f_equal NilZero.int_of_string) in H.
  rewrite !NilZero.isi in H by apply Hn. now injection H.
Qed.

Lemma uint_digits (d : Decimal.uint) :
  all_digits (NilEmpty.string_of_uint d) = true.
Proof. induction d; cbn [NilEmpty.string_of_uint]; auto. Qed.

Lemma show_int_digits (z : Z) : (0 <= z)%Z -> all_digits (show_int z) = true.
Proof.
  unfold show_int. destruct z as [|p|p]; [reflexivity | | lia]. intros _.
  cbn [Z.to_int NilZero.string_of_int]. unfold NilZero.string_of_uint.
  destruct (Pos.to_uint p) eqn:E; try (rewrite <- E; apply uint_digits).
  reflexivity.
Qed.

Lemma digits_without (c : ascii) (s : string) :
  Nat.leb 48 (nat_of_ascii c) && Nat.leb (nat_of_ascii c) 57 = false ->
  all_digits s = true -> Str.contains c s = false.
Proof.
  intros Hc. induction s as [|a r IH]; [reflexivity|].
  cbn [all_digits Str.contains]. intros H.
  apply andb_true_iff in H as [Ha Hr]. rewrite (IH Hr), orb_false_r.
  destruct (Ascii.eqb_spec a c) as [->|]; [congruence | reflexivity].
Qed.

Lemma no_underscore_absent (s : string) :
  Str.contains "_" s = false -> no_underscore_lower s = true.
Proof.
  induction s as [|a r IH]; [reflexivity|]. destruct r as [|b r]; [reflexivity|].
  rewrite no_underscore_lower_cons. intros H.
  change (Str.contains "_" (String a (String b r)))
    with (Ascii.eqb a "_" || Str.contains "_" (String b r)) in H.
  apply orb_false_iff in H as [Ha Hr]. now rewrite Ha, (IH Hr).
Qed.

Lemma underscore_name_public (r : string) :
  Str.contains "." r = false -> Str.contains "_" r = false ->
  publicize (variable_name_to_go_name (String "_" r)) = Some (String "_" r).
Proof.
  intros Hd Hu.
  change (variable_name_to_go_name (String "_" r)) with (String "_" r).
  rewrite publicize_segment by exact Hd.
  now rewrite (collapse_fixed _ (no_underscore_absent _ Hu)).
Qed.

Lemma tmp_name_public (name : string) (counter : nat) :
  In name ["_key"; "_val"; "_elem"] ->
  publicize (variable_name_to_go_name (fst (tmp name counter)))
  = Some (fst (tmp name counter)).
Proof.
  pose proof (show_int_digits (Z.of_nat counter) (Nat2Z.is_nonneg _)) as Hdig.
  assert (Hd := digits_without "." _ eq_refl Hdig).
  assert (Hu := digits_without "_" _ eq_refl Hdig).
  intros [<- | [<- | [<- | []]]]; cbn [tmp fst String.append];
    apply underscore_name_public;
    cbn [Str.contains Ascii.eqb Bool.eqb orb]; assumption.
Qed.

Lemma tmp_name_inj (name name' : string) (i j : nat) :
  In name ["_key"; "_val"; "_elem"] -> In name' ["_key"; "_val"; "_elem"] ->
  fst (tmp name i) = fst (tmp name' j) -> i = j.
Proof.
  intros [<- | [<- | [<- | []]]] [<- | [<- | [<- | []]]];
    cbn [tmp fst String.append]; intros H; try discriminate;
    apply Nat2Z.inj, show_int_inj; congruence.
Qed.

Lemma tmp_between_weaken (lo hi lo' hi' : nat) (t : string) :
  lo' <= lo -> hi <= hi' -> tmp_between lo hi t -> tmp_between lo' hi' t.
Proof.
  intros H1 H2 [name [i [Hn [Hi ->]]]]. exists name, i.
  repeat split; try assumption; lia.
Qed.

Lemma tmp_between_apart (lo mid hi : nat) (t : string) :
  tmp_between lo mid t -> tmp_between mid hi t -> False.
Proof.
  intros [name [i [Hn [Hi ->]]]] [name' [j [Hn' [Hj E]]]].
  apply tmp_name_inj in E; try assumption. lia.
Qed.

Lemma deserialize_target (type : t_type) :
  forall orig_type tfield_name counter code counter',
    publicize (variable_name_to_go_name tfield_name) = Some tfield_name ->
    deserialize_field orig_type type tfield_name true "" counter
    = Some (code, counter') ->
    read_target code = tfield_name /\ declares_target code = true.
Proof.
  induction type as [tbase b| | | m sy u IH|e IH|e IH|k IHk v IHv];
    intros orig_type tfield_name counter code counter' Hname H;
    cbn [deserialize_field] in H; rewrite Hname in H; cbn [String.append] in H.
  - destruct (read_call tbase b); [|discriminate].
    unfold deserialize_value in H.
    destruct (type_to_go_type orig_type); [|discriminate].
    destruct (if false || is_typedef orig_type then _ else _); [|discriminate].
    injection H as <- _. cbn [read_target declares_target].
    now rewrite String.eqb_refl.
  - unfold deserialize_value in H.
    destruct (type_to_go_type orig_type); [|discriminate].
    destruct (if true || is_typedef orig_type then _ else _); [|discriminate].
    injection H as <- _. cbn [read_target declares_target].
    now rewrite String.eqb_refl.
  - destruct (new_prefix _); [|discriminate]. injection H as <- _. auto.
  - exact (IH _ _ _ _ _ Hname H).
  - destruct (type_to_go_type (t_list e)); [|discriminate]. cbn [tmp] in H.
    destruct (deserialize_field e e _ true "" (S counter)) as [[ec c1]|];
      [|discriminate].
    injection H as <- _. auto.
  - destruct (type_to_go_type e); [|discriminate]. cbn [tmp] in H.
    destruct (deserialize_field e e _ true "" (S counter)) as [[ec c1]|];
      [|discriminate].
    injection H as <- _. auto.
  - destruct (type_to_go_type k); [|discriminate].
    destruct (type_to_go_type v); [|discriminate]. cbn [tmp] in H.
    destruct (deserialize_field k k _ true "" (S (S counter))) as [[kc c1]|];
      [|discriminate].
    destruct (deserialize_field v v _ true "" c1) as [[vc c2]|]; [|discriminate].
    injection H as <- _. auto.
Qed.

Lemma deserialize_temporaries (type : t_type) :
  forall orig_type tfield_name declare prefix counter code counter',
    deserialize_field orig_type type tfield_name declare prefix counter
    = Some (code, counter') ->
    counter <= counter'
    /\ well_scoped code = true
    /\ NoDup (temporaries code)
    /\ Forall (tmp_between counter counter') (temporaries code).
Proof.
  assert (Hkey : In "_key" ["_key"; "_val"; "_elem"]) by (left; reflexivity).
  assert (Hval : In "_val" ["_key"; "_val"; "_elem"])
    by (right; left; reflexivity).
  assert (Helem : In "_elem" ["_key"; "_val"; "_elem"])
    by (right; right; left; reflexivity).
  assert (Hcontainer : forall name counter e e' ec c1,
    In name ["_key"; "_val"; "_elem"] ->
    (forall orig_type tfield_name declare prefix counter code counter',
        deserialize_field orig_type e tfield_name declare prefix counter
        = Some (code, counter') ->
        counter <= counter' /\ well_scoped code = true
        /\ NoDup (temporaries code)
        /\ Forall (tmp_between counter counter') (temporaries code)) ->
    deserialize_field e' e (fst (tmp name counter)) true "" (S counter)
    = Some (ec, c1) ->
    S counter <= c1
    /\ String.eqb (read_target ec) (fst (tmp name counter)) && declares_target ec
       && well_scoped ec = true
    /\ NoDup (fst (tmp name counter) :: temporaries ec)
    /\ Forall (tmp_between counter c1) (fst (tmp name counter) :: temporaries ec)).
  { intros name counter e e' ec c1 Hn IH Ee.
    destruct (IH _ _ _ _ _ _ _ Ee) as [Hle [Hws [Hnd Hall]]].
    destruct (deserialize_target _ _ _ _ _ _ (tmp_name_public _ _ Hn) Ee)
      as [Ht Hd].
    split; [exact Hle|]. split.
    { rewrite Ht, String.eqb_refl, Hd, Hws. reflexivity. }
    assert (Hme : tmp_between counter (S counter) (fst (tmp name counter))).
    { exists name, counter. repeat split; [assumption | lia | lia]. }
    split.
    - constructor; [|exact Hnd]. intros Hin.
      rewrite Forall_forall in Hall.
      exact (tmp_between_apart _ _ _ _ Hme (Hall _ Hin)).
    - constructor.
      + apply (tmp_between_weaken counter (S counter)); [lia | lia | exact Hme].
      + apply (Forall_impl _ (fun t => tmp_between_weaken _ _ _ _ t
                                          (Nat.le_succ_diag_r _) (le_n _))).
        exact Hall. }
  induction type as [tbase b| | | m sy u IH|e IH|e IH|k IHk v IHv];
    intros orig_type tfield_name declare prefix counter code counter' H;
    cbn [deserialize_field] in H;
    (destruct (publicize (variable_name_to_go_name tfield_name)) as [g|];
     [|discriminate]).
  - destruct (read_call tbase b); [|discriminate].
    unfold deserialize_value in H.
    destruct (if declare then _ else _); [|discriminate].
    destruct (if false || is_typedef orig_type then _ else _); [|discriminate].
    injection H as <- <-. repeat split; auto; constructor.
  - unfold deserialize_value in H.
    destruct (if declare then _ else _); [|discriminate].
    destruct (if true || is_typedef orig_type then _ else _); [|discriminate].
    injection H as <- <-. repeat split; auto; constructor.
  - destruct (new_prefix _); [|discriminate].
    injection H as <- <-. repeat split; auto; constructor.
  - exact (IH _ _ _ _ _ _ _ H).
  - destruct (type_to_go_type (t_list e)); [|discriminate].
    change (tmp "_elem" counter)
      with (fst (tmp "_elem" counter), S counter) in H. cbv iota beta in H.
    destruct (deserialize_field e e _ true "" (S counter)) as [[ec c1]|] eqn:Ee;
      [|discriminate].
    injection H as <- <-.
    destruct (Hcontainer _ _ _ _ _ _ Helem IH Ee)
      as [H1 [H2 [H3 H4]]].
    cbn [well_scoped temporaries]. repeat split; [lia | exact H2 | exact H3 | exact H4].
  - destruct (type_to_go_type e); [|discriminate].
    change (tmp "_elem" counter)
      with (fst (tmp "_elem" counter), S counter) in H. cbv iota beta in H.
    destruct (deserialize_field e e _ true "" (S counter)) as [[ec c1]|] eqn:Ee;
      [|discriminate].
    injection H as <- <-.
    destruct (Hcontainer _ _ _ _ _ _ Helem IH Ee)
      as [H1 [H2 [H3 H4]]].
    cbn [well_scoped temporaries]. repeat split; [lia | exact H2 | exact H3 | exact H4].
  - destruct (type_to_go_type k); [|discriminate].
    destruct (type_to_go_type v); [|discriminate].
    change (tmp "_key" counter)
      with (fst (tmp "_key" counter), S counter) in H. cbv iota beta in H.
    change (tmp "_val" (S counter))
      with (fst (tmp "_val" (S counter)), S (S counter)) in H.
    cbv iota beta in H.
    destruct (deserialize_field k k _ true "" (S (S counter)))
      as [[kc c1]|] eqn:Ek; [|discriminate].
    destruct (deserialize_field v v _ true "" c1) as [[vc c2]|] eqn:Ev;
      [|discriminate].
    injection H as <- <-.
    destruct (IHk _ _ _ _ _ _ _ Ek) as [Hlek [Hwsk [Hndk Hallk]]].
    destruct (IHv _ _ _ _ _ _ _ Ev) as [Hlev [Hwsv [Hndv Hallv]]].
    destruct (deserialize_target _ _ _ _ _ _ (tmp_name_public _ _ Hkey) Ek)
      as [Htk Hdk].
    destruct (deserialize_target _ _ _ _ _ _ (tmp_name_public _ _ Hval) Ev)
      as [Htv Hdv].
    assert (Hmk : tmp_between counter (S counter) (fst (tmp "_key" counter))).
    { exists "_key", counter. repeat split; [assumption | lia | lia]. }
    assert (Hmv : tmp_between (S counter) (S (S counter))
                    (fst (tmp "_val" (S counter)))).
    { exists "_val", (S counter). repeat split; [assumption | lia | lia]. }
    assert (Hrest : Forall (tmp_between (S (S counter)) c2)
                      (temporaries kc ++ temporaries vc)%list).
    { apply Forall_app. split.
      - apply (Forall_impl _ (fun t => tmp_between_weaken _ _ _ _ t
                                          (le_n _) Hlev)). exact Hallk.
      - apply (Forall_impl _ (fun t => tmp_between_weaken _ _ _ _ t
                                          Hlek (le_n _))). exact Hallv. }
    split; [lia|]. split.
    { cbn [well_scoped].
      now rewrite Htk, Htv, !String.eqb_refl, Hdk, Hdv, Hwsk, Hwsv. }
    cbn [temporaries]. split.
    + constructor.
      * intros [E | Hin].
        -- apply (tmp_between_apart counter (S counter) (S (S counter))
                    (fst (tmp "_key" counter))); [exact Hmk|].
           exact (eq_ind _ (tmp_between (S counter) (S (S counter))) Hmv _ E).
        -- rewrite Forall_forall in Hrest.
           apply (tmp_between_apart counter (S counter) c2
                    (fst (tmp "_key" counter))); [exact Hmk|].
           apply (tmp_between_weaken (S (S counter)) c2); [lia | lia|].
           exact (Hrest _ Hin).
      * constructor.
        -- intros Hin. rewrite Forall_forall in Hrest.
           exact (tmp_between_apart _ _ _ _ Hmv (Hrest _ Hin)).
        -- apply NoDup_app; [exact Hndk | exact Hndv|].
           intros a Ha Ha'. rewrite Forall_forall in Hallk, Hallv.
           exact (tmp_between_apart _ _ _ _ (Hallk _ Ha) (Hallv _ Ha')).
    + constructor; [apply (tmp_between_weaken counter (S counter)); [lia|lia|exact Hmk]|].
      constructor; [apply (tmp_between_weaken (S counter) (S (S counter)));
                    [lia|lia|exact Hmv]|].
      apply (Forall_impl _ (fun t => tmp_between_weaken _ _ _ _ t
                                        (Nat.le_trans _ _ _ (Nat.le_succ_diag_r _)
                                           (Nat.le_succ_diag_r _)) (le_n _))).
      exact Hrest.
Qed.

(** X14. In the reading code of a field, every statement that puts an
    element into a container takes it from the temporary that the code of
    the element declares and fills: [publicize] and
    [variable_name_to_go_name], which the generator passes the names of its
    temporaries through, leave them as they are. *)
Theorem reading_code_well_scoped (type : t_type) (tfield_name : string)
    (declare : bool) (prefix : string) (counter counter' : nat)
    (code : read_code) :
  generate_deserialize_field type tfield_name declare prefix counter
  = Some (code, counter') ->
  well_scoped code = true.
Proof. intros H. now apply deserialize_temporaries in H. Qed.

Lemma reading_code_well_scoped_witness :
  exists code counter',
    generate_deserialize_field
      (t_map (t_base_type TYPE_STRING false) (t_list (t_enum_ref None "Color")))
      "tags" false "p." 0 = Some (code, counter')
    /\ well_scoped code = true.
Proof.
  eexists. eexists. split; [vm_compute; reflexivity|].
  apply (reading_code_well_scoped
           (t_map (t_base_type TYPE_STRING false)
                  (t_list (t_enum_ref None "Color"))) "tags" false "p." 0 3).
  vm_compute. reflexivity.
Defined.

(** X15. The temporaries of the reading code of a field are pairwise
    distinct, each is one of [_key], [_val] and [_elem] followed by a count
    between the counter before and the counter after, and the counter never
    goes down: reading code generated later cannot take the same names. *)
Theorem reading_code_fresh_temporaries (type : t_type) (tfield_name : string)
    (declare : bool) (prefix : string) (counter counter' : nat)
    (code : read_code) :
  generate_deserialize_field type tfield_name declare prefix counter
  = Some (code, counter') ->
  counter <= counter'
  /\ NoDup (temporaries code)
  /\ Forall (tmp_between counter counter') (temporaries code).
Proof.
  intros H. apply deserialize_temporaries in H.
  destruct H as [H1 [_ [H2 H3]]]. auto.
Qed.

Lemma reading_code_fresh_temporaries_witness :
  exists code,
    generate_deserialize_field
      (t_map (t_base_type TYPE_STRING false) (t_list (t_enum_ref None "Color")))
      "tags" false "p." 7 = Some (code, 10)
    /\ temporaries code = ["_key7"; "_val8"; "_elem9"]
    /\ 7 <= 10
    /\ NoDup (temporaries code)
    /\ Forall (tmp_between 7 10) (temporaries code).
Proof.
  eexists. split; [vm_compute; reflexivity|]. split; [vm_compute; reflexivity|].
  apply (reading_code_fresh_temporaries
           (t_map (t_base_type TYPE_STRING false)
                  (t_list (t_enum_ref None "Color"))) "tags" false "p." 7 10).
  vm_compute. reflexivity.
Defined.

(** ** The per-field methods and the dispatch of the reader *)

Lemma app_cancel_l (p a b : string) : p ++ a = p ++ b -> a = b.
Proof.
  induction p as [|x p IH]; cbn [String.append]; [auto|].
  intros H. injection H as H. now apply IH.
Qed.

Lemma show_int_no_underscore (z : Z) : Str.contains "_" (show_int z) = false.
Proof.
  destruct (Z.leb_spec 0 z) as [H|H].
  - exact (digits_without "_" _ eq_refl (show_int_digits z H)).
  - destruct z as [|p|p]; try lia. unfold show_int.
    cbn [Z.to_int NilZero.string_of_int Str.contains Ascii.eqb Bool.eqb orb].
    apply (digits_without "_" _ eq_refl). unfold NilZero.string_of_uint.
    destruct (Pos.to_uint p) eqn:E; try (rewrite <- E; apply uint_digits).
    reflexivity.
Qed.

Lemma field_id_of_negative_inj (key key' : Z) :
  is_int32 key -> is_int32 key' -> (key < 0)%Z -> (key' < 0)%Z ->
  field_id_of key = field_id_of key' -> key = key'.
Proof.
  unfold is_int32, field_id_of, wrap32. intros H H' Hn Hn'.
  destruct (Z.ltb_spec key 0); [|lia]. destruct (Z.ltb_spec key' 0); [|lia].
  intros E.
  destruct (Z.eq_dec key (-2147483648)) as [-> | Hne];
    destruct (Z.eq_dec key' (-2147483648)) as [-> | Hne']; try reflexivity.
  - change ((-2147483648 * -1 + 2147483648) mod 4294967296)%Z with 0%Z in E.
    rewrite Z.mod_small in E; lia.
  - change ((-2147483648 * -1 + 2147483648) mod 4294967296)%Z with 0%Z in E.
    rewrite Z.mod_small in E; lia.
  - rewrite !Z.mod_small in E; lia.
Qed.

Lemma field_method_differs (field_method_prefix : string) (key key' : Z) :
  is_int32 key -> is_int32 key' -> key <> key' ->
  field_method field_method_prefix key <> field_method field_method_prefix key'.
Proof.
  intros H H' Hne Heq. apply Hne. revert Heq. unfold field_method.
  destruct (Z.ltb_spec key 0) as [Hn|Hn]; destruct (Z.ltb_spec key' 0) as [Hn'|Hn'];
    rewrite ?app_assoc_str; intros E; apply app_cancel_l in E.
  - cbn [String.append] in E. injection E as E. apply show_int_inj in E.
    now apply field_id_of_negative_inj.
  - exfalso. pose proof (show_int_no_underscore (field_id_of key')) as Hu.
    rewrite <- E in Hu. discriminate.
  - exfalso. pose proof (show_int_no_underscore (field_id_of key)) as Hu.
    rewrite E in Hu. discriminate.
  - apply show_int_inj in E. unfold field_id_of in E.
    destruct (Z.ltb_spec key 0); [lia|]. destruct (Z.ltb_spec key' 0); [lia|].
    exact E.
Qed.

(** X16. Fields of different keys have per-field methods of different
    names, whatever the sign of the keys: [writeField1] and [writeField_1]
    for the keys 1 and -1. *)
Theorem field_method_injective (field_method_prefix : string) (key key' : Z) :
  is_int32 key -> is_int32 key' -> key <> key' ->
  field_method field_method_prefix key <> field_method field_method_prefix key'.
Proof. apply field_method_differs. Qed.

Lemma field_method_injective_witness :
  field_method "writeField" 1 <> field_method "writeField" (-1).
Proof.
  apply (field_method_injective "writeField" 1 (-1));
    [unfold is_int32; lia | unfold is_int32; lia | discriminate].
Defined.

Lemma Forall2_In_r {A B : Type} (R : A -> B -> Prop) (l : list A) (l' : list B) :
  Forall2 R l l' -> forall b, In b l' -> exists a, In a l /\ R a b.
Proof.
  induction 1 as [|a b l l' Hab _ IH]; intros b0 Hb; [destruct Hb|].
  destruct Hb as [<- | Hb].
  - exists a. split; [now left | exact Hab].
  - destruct (IH _ Hb) as [a0 [Ha0 HR]]. exists a0. split; [now right | exact HR].
Qed.

Lemma struct_writer_field_writers (tstruct : t_struct) (is_result : bool)
    (w : go_writer) :
  generate_go_struct_writer tstruct is_result = Some w ->
  mapM field_writer_head (struct_get_sorted_members tstruct)
  = Some (gw_field_writers w).
Proof.
  unfold generate_go_struct_writer. intros H.
  destruct (if is_result && _ then _ else _); [|discriminate].
  destruct (mapM field_writer_head _); [|discriminate].
  now injection H as <-.
Qed.

Lemma field_writer_head_field (f : t_field) (fw : field_writer) :
  field_writer_head f = Some fw -> fw_field fw = f.
Proof.
  unfold field_writer_head. intros H.
  destruct (can_be_nil (field_get_type f)); [|discriminate].
  destruct (publicize (variable_name_to_go_name (field_get_name f)));
    [|discriminate].
  destruct (type_to_enum (field_get_type f)); [|discriminate].
  destruct (generate_serialize_field _ _ _); [|discriminate].
  now injection H as <-.
Qed.

Lemma dispatch_member (members : list t_field) (cases : list read_case) :
  Forall2 (fun f c => reader_case f = Some c) members cases ->
  NoDup (map (fun f => field_id_of (field_get_key f)) members) ->
  (forall f, In f members ->
             dispatch_cases cases (field_id_of (field_get_key f))
             = call_reader (field_method "readField" (field_get_key f)))
  /\ (forall fieldId,
         ~ In fieldId (map (fun f => field_id_of (field_get_key f)) members) ->
         dispatch_cases cases fieldId = skip_field).
Proof.
  induction 1 as [|f0 c0 members cases Hc _ IH]; intros Hnd.
  - split; [intros f []|reflexivity].
  - cbn [map] in Hnd. apply NoDup_cons_iff in Hnd as [Hnot Hnd].
    destruct (IH Hnd) as [IH1 IH2].
    unfold reader_case in Hc.
    destruct (type_to_enum (field_get_type f0)); [|discriminate].
    injection Hc as <-. cbn [dispatch_cases rc_label rc_method].
    split.
    + intros f [<- | Hf]; [now rewrite Z.eqb_refl|].
      destruct (Z.eqb_spec (field_id_of (field_get_key f))
                           (field_id_of (field_get_key f0))) as [E|_].
      * exfalso. apply Hnot. rewrite <- E.
        now apply (in_map (fun f => field_id_of (field_get_key f))).
      * now apply IH1.
    + intros fieldId Hid. cbn [map] in Hid.
      destruct (Z.eqb_spec fieldId (field_id_of (field_get_key f0))) as [E|_].
      * exfalso. apply Hid. now left.
      * apply IH2. intros Hin. apply Hid. now right.
Qed.

(** X17. In a struct whose fields have different field ids (the keys,
    negative ones negated), the id a generated per-field writer puts on the
    wire makes the generated [Read] call the per-field reader of the same
    field. An id of no field makes it take the [default:] branch, which
    skips the field, where the struct has members; for a struct without
    members [Read] has no switch, and so neither reads nor skips the
    field. *)
Theorem reader_dispatches_written_ids (tstruct : t_struct) (is_result : bool)
    (cases : list read_case) (w : go_writer) :
  Permutation (struct_get_members tstruct) (struct_get_sorted_members tstruct) ->
  NoDup (map (fun f => field_id_of (field_get_key f))
             (struct_get_members tstruct)) ->
  reader_cases tstruct = Some cases ->
  generate_go_struct_writer tstruct is_result = Some w ->
  (forall fw, In fw (gw_field_writers w) ->
              dispatch cases (written_field_id fw)
              = call_reader (field_method "readField"
                               (field_get_key (fw_field fw))))
  /\ (forall fieldId,
         ~ In fieldId (map (fun f => field_id_of (field_get_key f))
                           (struct_get_members tstruct)) ->
         dispatch cases fieldId
         = match struct_get_members tstruct with
           | [] => no_switch
           | _ :: _ => skip_field
           end).
Proof.
  intros Hperm Hnd Hcases Hw.
  apply mapM_Forall2 in Hcases.
  destruct (dispatch_member _ _ Hcases Hnd) as [H1 H2].
  assert (Hd : struct_get_members tstruct <> [] ->
               dispatch cases = dispatch_cases cases).
  { intros Hne. destruct Hcases; [congruence | reflexivity]. }
  split.
  - intros fw Hfw. apply struct_writer_field_writers, mapM_Forall2 in Hw.
    destruct (Forall2_In_r _ _ _ Hw _ Hfw) as [f [Hf Hhead]].
    apply field_writer_head_field in Hhead. unfold written_field_id.
    rewrite Hhead.
    apply (Permutation_in _ (Permutation_sym Hperm)) in Hf.
    rewrite Hd by (intros E; rewrite E in Hf; destruct Hf).
    now apply H1.
  - intros fieldId Hid. specialize (H2 fieldId Hid).
    destruct Hcases as [|f c fs cs]; [reflexivity | exact H2].
Qed.

Lemma reader_dispatches_written_ids_witness :
  exists cases w,
    reader_cases Neg = Some cases
    /\ generate_go_struct_writer Neg false = Some w
    /\ map written_field_id (gw_field_writers w) = [2%Z; 1%Z]
    /\ (forall fw, In fw (gw_field_writers w) ->
                   dispatch cases (written_field_id fw)
                   = call_reader (field_method "readField"
                                    (field_get_key (fw_field fw))))
    /\ (forall fieldId,
           ~ In fieldId (map (fun f => field_id_of (field_get_key f))
                             (struct_get_members Neg)) ->
           dispatch cases fieldId = skip_field).
Proof.
  eexists. eexists. split; [vm_compute; reflexivity|].
  split; [vm_compute; reflexivity|]. split; [vm_compute; reflexivity|].
  apply (reader_dispatches_written_ids Neg false).
  - cbn. apply perm_swap.
  - cbn. repeat constructor; cbn; intuition discriminate.
  - vm_compute. reflexivity.
  - vm_compute. reflexivity.
Defined.

(** ** Signatures *)

Lemma argument_loop_joined (fields : list t_field) (result : string) :
  argument_loop false result fields
  = match mapM argument fields with
    | Some declarations =>
        Some (result ++ String.concat "" (map (fun d => ", " ++ d) declarations))
    | None => None
    end.
Proof.
  revert result. induction fields as [|f rest IH]; intros result.
  - cbn [argument_loop mapM map String.concat]. now rewrite app_empty_r.
  - cbn [argument_loop mapM]. unfold argument at 1.
    destruct (type_to_go_type (field_get_type f)) as [go_type|]; [|reflexivity].
    rewrite IH. destruct (mapM argument rest) as [ds|]; [|reflexivity].
    f_equal. destruct ds as [|d ds]; cbn [map String.concat];
      rewrite ?app_empty_r, ?app_assoc_str; reflexivity.
Qed.

Lemma concat_separator (d : string) (ds : list string) :
  String.concat ", " (d :: ds)
  = d ++ String.concat "" (map (fun d => ", " ++ d) ds).
Proof.
  revert d. induction ds as [|d' ds IH]; intros d.
  - cbn. now rewrite app_empty_r.
  - change (String.concat ", " (d :: d' :: ds))
      with (d ++ ", " ++ String.concat ", " (d' :: ds)).
    rewrite IH. destruct ds; cbn [map String.concat];
      rewrite ?app_empty_r, ?app_assoc_str; reflexivity.
Qed.

Lemma argument_list_concat (tstruct : t_struct) :
  argument_list tstruct
  = match mapM argument (struct_get_members tstruct) with
    | Some declarations => Some (String.concat ", " declarations)
    | None => None
    end.
Proof.
  unfold argument_list. destruct (struct_get_members tstruct) as [|f rest].
  - reflexivity.
  - cbn [argument_loop mapM]. unfold argument at 1.
    destruct (type_to_go_type (field_get_type f)) as [go_type|]; [|reflexivity].
    rewrite argument_loop_joined.
    destruct (mapM argument rest) as [ds|]; [|reflexivity].
    now rewrite concat_separator.
Qed.

(** X18. [argument_list] gives the declarations of the fields, each the Go
    name and the Go type of the field, with a comma and a space between two
    of them and none before the first or behind the last; it throws when a
    field has no Go type. *)
Theorem argument_list_joined (tstruct : t_struct) :
  argument_list tstruct
  = match mapM argument (struct_get_members tstruct) with
    | Some declarations => Some (String.concat ", " declarations)
    | None => None
    end.
Proof. apply argument_list_concat. Qed.

Lemma concat_nonempty (d : string) (ds : list string) :
  d <> "" -> Nat.eqb (Str.size (String.concat ", " (d :: ds))) 0 = false.
Proof.
  intros Hd. rewrite concat_separator. destruct d; [congruence | reflexivity].
Qed.

Lemma argument_nonempty (f : t_field) (d : string) :
  argument f = Some d -> d <> "".
Proof.
  unfold argument. destruct (type_to_go_type (field_get_type f)); [|discriminate].
  intros [= <-]. destruct (variable_name_to_go_name (field_get_name f));
    discriminate.
Qed.

Lemma concat_last (ds : list string) (x : string) :
  String.concat ", " (ds ++ [x])%list
  = match ds with
    | [] => x
    | _ :: _ => String.concat ", " ds ++ ", " ++ x
    end.
Proof.
  induction ds as [|d ds IH]; [reflexivity|].
  destruct ds as [|d' ds]; [reflexivity|].
  change (String.concat ", " ((d :: d' :: ds) ++ [x])%list)
    with (d ++ ", " ++ String.concat ", " ((d' :: ds) ++ [x])%list).
  rewrite IH.
  change (String.concat ", " (d :: d' :: ds))
    with (d ++ ", " ++ String.concat ", " (d' :: ds)).
  now rewrite !app_assoc_str.
Qed.

Lemma signature_if_parts (tfunction : t_function)
    (prefix signature : string) :
  function_signature_if tfunction prefix true = Some signature ->
  exists name arguments returns errs,
    publicize (prefix ++ fn_get_name tfunction) = Some name
    /\ mapM argument (struct_get_members (fn_get_arglist tfunction))
       = Some arguments
    /\ (if is_void (fn_get_returntype tfunction) then Some []
        else match type_to_go_type (fn_get_returntype tfunction) with
             | Some go_type => Some ["r " ++ go_type]
             | None => None
             end) = Some returns
    /\ mapM argument (struct_get_members (fn_get_xceptions tfunction))
       = Some errs
    /\ signature
       = name ++ "(" ++ String.concat ", " arguments ++ ") ("
         ++ String.concat ", " (returns ++ errs ++ ["err error"])%list ++ ")".
Proof.
  unfold function_signature_if. rewrite !argument_list_concat.
  destruct (publicize (prefix ++ fn_get_name tfunction)) as [name|];
    [|discriminate].
  destruct (mapM argument (struct_get_members (fn_get_arglist tfunction)))
    as [arguments|]; [|discriminate].
  destruct (mapM argument (struct_get_members (fn_get_xceptions tfunction)))
    as [errs|] eqn:Eerrs; [|discriminate].
  cbn [orb]. intros H.
  assert (Herrs : Nat.ltb 0 (Str.size (String.concat ", " errs))
                  = match errs with [] => false | _ :: _ => true end).
  { destruct errs as [|d ds]; [reflexivity|].
    apply mapM_Forall2 in Eerrs. inversion Eerrs as [|? ? ? ? Hd _]; subst.
    pose proof (concat_nonempty d ds (argument_nonempty _ _ Hd)) as Hz.
    apply Nat.eqb_neq in Hz. apply Nat.ltb_lt. lia. }
  rewrite Herrs in H.
  destruct (is_void (fn_get_returntype tfunction)); cbn [negb] in H.
  - exists name, arguments, [], errs. repeat split.
    injection H as <-. cbn [app]. rewrite concat_last.
    destruct errs; rewrite !app_assoc_str; reflexivity.
  - destruct (type_to_go_type (fn_get_returntype tfunction)) as [go_type|];
      [|discriminate].
    exists name, arguments, ["r " ++ go_type], errs. repeat split.
    injection H as <-.
    change ([("r " ++ go_type)%string] ++ errs ++ ["err error"])%list
      with (("r " ++ go_type)%string :: (errs ++ ["err error"]))%list.
    destruct errs as [|d ds].
    + cbn [app String.concat]. rewrite !app_assoc_str. reflexivity.
    + change (String.concat ", "
                (("r " ++ go_type)%string :: ((d :: ds) ++ ["err error"]))%list)
        with (("r " ++ go_type) ++ ", "
              ++ String.concat ", " ((d :: ds) ++ ["err error"])%list).
      rewrite concat_last. rewrite !app_assoc_str. reflexivity.
Qed.

(** X19. With [addError] set, as every caller sets it, the signature that
    [function_signature_if] gives is the public name, the argument
    declarations in parentheses, and in a second pair of parentheses the
    results: [r] with the Go type of a return type that is not void, then
    the declared exceptions, then [err error], separated by a comma and a
    space. *)
Theorem function_signature_if_results (tfunction : t_function)
    (prefix signature : string) :
  function_signature_if tfunction prefix true = Some signature ->
  exists name arguments returns errs,
    publicize (prefix ++ fn_get_name tfunction) = Some name
    /\ mapM argument (struct_get_members (fn_get_arglist tfunction))
       = Some arguments
    /\ (if is_void (fn_get_returntype tfunction) then Some []
        else match type_to_go_type (fn_get_returntype tfunction) with
             | Some go_type => Some ["r " ++ go_type]
             | None => None
             end) = Some returns
    /\ mapM argument (struct_get_members (fn_get_xceptions tfunction))
       = Some errs
    /\ signature
       = name ++ "(" ++ String.concat ", " arguments ++ ") ("
         ++ String.concat ", " (returns ++ errs ++ ["err error"])%list ++ ")".
Proof. apply signature_if_parts. Qed.

Lemma function_signature_if_results_witness :
  exists signature,
    function_signature_if lookup "" true = Some signature
    /\ exists name arguments returns errs,
         publicize ("" ++ fn_get_name lookup) = Some name
         /\ mapM argument (struct_get_members (fn_get_arglist lookup))
            = Some arguments
         /\ (if is_void (fn_get_returntype lookup) then Some []
             else match type_to_go_type (fn_get_returntype lookup) with
                  | Some go_type => Some ["r " ++ go_type]
                  | None => None
                  end) = Some returns
         /\ mapM argument (struct_get_members (fn_get_xceptions lookup))
            = Some errs
         /\ signature
            = name ++ "(" ++ String.concat ", " arguments ++ ") ("
              ++ String.concat ", " (returns ++ errs ++ ["err error"])%list ++ ")".
Proof.
  eexists. split; [vm_compute; reflexivity|].
  apply (function_signature_if_results lookup ""). vm_compute. reflexivity.
Defined.

(** X20. The [recv] half of a client method returns what the public
    method returns: the same exceptions, and in front of them the value of
    the same Go type where the function is not void, named [value] in one
    and [r] in the other; so [return p.recv<Name>()] hands on every result. *)
Theorem recv_results_match (tfunction : t_function) (signature : string) :
  function_signature_if tfunction "" true = Some signature ->
  exists head types errs,
    signature
    = head ++ " (" ++ String.concat ", "
                        (map (fun t => ("r " ++ t)%string) types ++ errs ++ ["err error"])%list
      ++ ")"
    /\ recv_results tfunction
       = Some (String.concat ", "
                 (map (fun t => ("value " ++ t)%string) types ++ errs ++ ["err error"])%list)
    /\ length types <= 1.
Proof.
  intros H.
  destruct (signature_if_parts _ _ _ H)
    as [name [arguments [returns [errs [Hname [Hargs [Hret [Herrs ->]]]]]]]].
  unfold recv_results. rewrite argument_list_concat, Herrs.
  assert (Hz : negb (Nat.eqb (Str.size (String.concat ", " errs)) 0)
               = match errs with [] => false | _ :: _ => true end).
  { destruct errs as [|d ds]; [reflexivity|].
    apply mapM_Forall2 in Herrs. inversion Herrs as [|? ? ? ? Hd _]; subst.
    now rewrite (concat_nonempty d ds (argument_nonempty _ _ Hd)). }
  rewrite Hz.
  exists (name ++ "(" ++ String.concat ", " arguments ++ ")").
  destruct (is_void (fn_get_returntype tfunction)); cbn [negb].
  - injection Hret as <-. exists [], errs. cbn [map app length].
    split; [now rewrite !app_assoc_str|]. split; [|lia].
    rewrite concat_last. destruct errs; cbn [String.append];
      rewrite ?app_assoc_str; reflexivity.
  - destruct (type_to_go_type (fn_get_returntype tfunction)) as [go_type|];
      [|discriminate].
    injection Hret as <-. exists [go_type], errs. cbn [map length].
    split; [now rewrite !app_assoc_str|]. split; [|lia].
    change ([("value " ++ go_type)%string] ++ errs ++ ["err error"])%list
      with (("value " ++ go_type)%string :: (errs ++ ["err error"]))%list.
    destruct errs as [|d ds].
    + cbn [app String.concat]. now rewrite !app_assoc_str.
    + change (String.concat ", "
                (("value " ++ go_type)%string :: ((d :: ds) ++ ["err error"]))%list)
        with (("value " ++ go_type) ++ ", "
              ++ String.concat ", " ((d :: ds) ++ ["err error"])%list).
      rewrite concat_last. now rewrite !app_assoc_str.
Qed.

Lemma recv_results_match_witness :
  exists signature,
    function_signature_if lookup "" true = Some signature
    /\ recv_results lookup = Some "value int32, nf *NotFound, err error"
    /\ exists head types errs,
         signature
         = head ++ " (" ++ String.concat ", "
                             (map (fun t => ("r " ++ t)%string) types ++ errs
                              ++ ["err error"])%list
           ++ ")"
         /\ recv_results lookup
            = Some (String.concat ", "
                      (map (fun t => ("value " ++ t)%string) types ++ errs
                       ++ ["err error"])%list)
         /\ length types <= 1.
Proof.
  eexists. split; [vm_compute; reflexivity|]. split; [vm_compute; reflexivity|].
  apply (recv_results_match lookup). vm_compute. reflexivity.
Defined.

(** X21. The public method of a client calls [send<Name>] with the Go
    names of the arguments of the function, in their order, and these are
    the names that the declaration of [send<Name>] gives its parameters. *)
Theorem send_call_matches_signature (tfunction : t_function)
    (signature : string) :
  function_signature tfunction "" = Some signature ->
  exists funname declarations after,
    signature = funname ++ "(" ++ String.concat ", " declarations ++ ")"
    /\ client_method_body tfunction
       = Some [send_or_return funname
                 (map (fun fld => variable_name_to_go_name (field_get_name fld))
                      (struct_get_members (fn_get_arglist tfunction)));
               after]
    /\ Forall2 (fun fld declaration =>
                  exists go_type,
                    type_to_go_type (field_get_type fld) = Some go_type
                    /\ declaration
                       = variable_name_to_go_name (field_get_name fld)
                         ++ " " ++ go_type)
               (struct_get_members (fn_get_arglist tfunction)) declarations.
Proof.
  unfold function_signature, client_method_body. cbn [String.append].
  rewrite argument_list_concat.
  destruct (publicize (fn_get_name tfunction)) as [funname|]; [|discriminate].
  destruct (mapM argument (struct_get_members (fn_get_arglist tfunction)))
    as [declarations|] eqn:E; [|discriminate].
  intros [= <-]. exists funname, declarations. eexists.
  split; [reflexivity|]. split; [reflexivity|].
  apply mapM_Forall2 in E. revert E. apply Forall2_impl.
  intros fld d. unfold argument.
  destruct (type_to_go_type (field_get_type fld)) as [go_type|]; [|discriminate].
  intros [= <-]. now exists go_type.
Qed.

Lemma send_call_matches_signature_witness :
  exists signature,
    function_signature lookup "" = Some signature
    /\ signature = "Lookup(key string)"
    /\ exists funname declarations after,
         signature = funname ++ "(" ++ String.concat ", " declarations ++ ")"
         /\ client_method_body lookup
            = Some [send_or_return funname
                      (map (fun fld => variable_name_to_go_name (field_get_name fld))
                           (struct_get_members (fn_get_arglist lookup)));
                    after]
         /\ Forall2 (fun fld declaration =>
                       exists go_type,
                         type_to_go_type (field_get_type fld) = Some go_type
                         /\ declaration
                            = variable_name_to_go_name (field_get_name fld)
                              ++ " " ++ go_type)
                    (struct_get_members (fn_get_arglist lookup)) declarations.
Proof.
  eexists. split; [vm_compute; reflexivity|]. split; [reflexivity|].
  apply (send_call_matches_signature lookup). vm_compute. reflexivity.
Defined.

(** ** The processor types of a service *)

Lemma tolower_toupper (c : ascii) : tolower (toupper c) = tolower c.
Proof. destruct c as [[] [] [] [] [] [] [] []]; reflexivity. Qed.

Lemma isalpha_not_underscore (c : ascii) :
  isalpha c = true -> Ascii.eqb c "_" = false.
Proof. destruct c as [[] [] [] [] [] [] [] []]; vm_compute; congruence. Qed.

Lemma islower_isalpha (c : ascii) : islower c = true -> isalpha c = true.
Proof. destruct c as [[] [] [] [] [] [] [] []]; vm_compute; congruence. Qed.

Lemma collapse_skip (trigger : ascii -> bool) (a : ascii) (t : string) :
  Ascii.eqb a "_" = false ->
  collapse trigger (String a t) = String a (collapse trigger t).
Proof.
  intros Ha. destruct t as [|b r]; [reflexivity|].
  now rewrite collapse_cons, Ha.
Qed.

Lemma no_double_underscore_cons (a b : ascii) (r : string) :
  no_double_underscore (String a (String b r))
  = negb (Ascii.eqb a "_" && Ascii.eqb b "_") && no_double_underscore (String b r).
Proof. reflexivity. Qed.

Lemma no_double_underscore_tail (a : ascii) (r : string) :
  no_double_underscore (String a r) = true -> no_double_underscore r = true.
Proof.
  destruct r as [|b r]; [reflexivity|]. rewrite no_double_underscore_cons.
  intros H. now apply andb_true_iff in H.
Qed.

Lemma collapse_alpha_after_lower (s : string) :
  no_double_underscore s = true ->
  collapse isalpha (collapse islower s) = collapse isalpha s.
Proof.
  remember (Str.size s) as n eqn:Hn. revert s Hn.
  induction n as [n IH] using lt_wf_ind. intros s Hn H.
  destruct s as [|a [|b r]]; try reflexivity.
  pose proof (no_double_underscore_tail _ _ H) as Ht.
  pose proof (no_double_underscore_tail _ _ Ht) as Htt.
  assert (IHt : collapse isalpha (collapse islower (String b r))
                = collapse isalpha (String b r)).
  { apply (IH (Str.size (String b r))); [subst; simpl; lia | reflexivity | exact Ht]. }
  assert (IHtt : collapse isalpha (collapse islower r) = collapse isalpha r).
  { apply (IH (Str.size r)); [subst; simpl; lia | reflexivity | exact Htt]. }
  rewrite no_double_underscore_cons in H. apply andb_true_iff in H as [H _].
  apply negb_true_iff in H.
  rewrite !(collapse_cons _ a b r).
  destruct (Ascii.eqb a "_") eqn:Ea; cbn [andb] in *.
  - destruct (islower b) eqn:Elow.
    + rewrite (islower_isalpha _ Elow).
      rewrite collapse_skip by now apply toupper_lower_not_underscore.
      now rewrite IHtt.
    + rewrite (collapse_skip islower b r H).
      destruct (isalpha b) eqn:Ealpha.
      * rewrite collapse_cons, Ea, Ealpha. cbn [andb]. now rewrite IHtt.
      * rewrite collapse_cons, Ea, Ealpha. cbn [andb]. f_equal.
        rewrite <- (collapse_skip islower b r H). exact IHt.
  - rewrite collapse_skip by exact Ea. now rewrite IHt.
Qed.

Lemma privatize_publicize (name : string) :
  Str.contains "." name = false ->
  no_double_underscore name = true ->
  exists serviceName,
    publicize name = Some serviceName /\ privatize serviceName = privatize name.
Proof.
  intros Hd Hu. destruct name as [|c rest]; [exists EmptyString; auto|].
  exists (String (toupper c) (collapse islower rest)).
  split; [now apply publicize_segment|].
  rewrite !privatize_closed, tolower_toupper.
  now rewrite (collapse_alpha_after_lower _ (no_double_underscore_tail _ _ Hu)).
Qed.

(** X22. For a service whose name has no dot and no two underscores in a
    row, the processor type that the constructor of the processor puts
    into the processor map for a function is the type that
    [generate_process_function] declares for it, although one name is made
    from the public form of the service name and the other from the
    service name itself. *)
Theorem registered_processor_declared (escape_string : string -> string)
    (tservice : t_service) (registered : list string) :
  Str.contains "." (svc_get_name tservice) = false ->
  no_double_underscore (svc_get_name tservice) = true ->
  registered_processors tservice = Some registered ->
  Forall2 (fun tfunction processor =>
             forall processorName body,
               generate_process_function escape_string tservice tfunction
               = Some (processorName, body) ->
               processorName = processor)
          (svc_get_functions tservice) registered.
Proof.
  intros Hd Hu. unfold registered_processors.
  destruct (privatize_publicize _ Hd Hu) as [serviceName [-> Hp]]. rewrite Hp.
  destruct (privatize (svc_get_name tservice)) as [pServiceName|] eqn:Ep;
    [|discriminate].
  intros H. apply mapM_Forall2 in H. revert H. apply Forall2_impl.
  intros f r Hr pn body. unfold generate_process_function. rewrite Ep.
  destruct (publicize (fn_get_name f)) as [fName|]; [|discriminate].
  injection Hr as <-.
  destruct (go_field_names _); [|discriminate].
  destruct (process_result_args f); [|discriminate].
  now intros [= <- _].
Qed.

Lemma registered_processor_declared_witness :
  exists registered,
    registered_processors Notifier = Some registered
    /\ Forall2 (fun tfunction processor =>
                  forall processorName body,
                    generate_process_function escape_plain Notifier tfunction
                    = Some (processorName, body) ->
                    processorName = processor)
               (svc_get_functions Notifier) registered.
Proof.
  eexists. split; [vm_compute; reflexivity|].
  apply (registered_processor_declared escape_plain Notifier);
    [reflexivity | reflexivity | vm_compute; reflexivity].
Defined.

(** ** Go types *)

(** X23. Where [can_be_nil] says that a value can be nil, the Go type of
    what the type resolves to is a pointer, a slice or a map: the
    comparisons with [nil] that the writers make are comparisons Go has. *)
Theorem nilable_go_type (type : t_type) (go_type : string) :
  can_be_nil type = Some true ->
  type_to_go_type (get_true_type type) = Some go_type ->
  String.prefix "*" go_type || String.prefix "[]" go_type
  || String.prefix "map[" go_type = true.
Proof.
  unfold can_be_nil. pose proof (get_true_type_no_typedef type) as Hn.
  destruct (get_true_type type) as [tbase b| | | |e|e|k v];
    try contradiction; try discriminate.
  - destruct tbase; try discriminate. intros [= ->] [= <-]. reflexivity.
  - intros _. cbn [type_to_go_type].
    destruct (publicize _) as [g|]; [|discriminate].
    intros [= <-]. destruct g; reflexivity.
  - intros _. cbn [type_to_go_type].
    destruct (type_to_go_type e) as [g|]; [|discriminate].
    intros [= <-]. destruct g; reflexivity.
  - intros _. cbn [type_to_go_type].
    destruct (if is_container (get_true_type e) then _ else _) as [g|];
      [|discriminate].
    intros [= <-]. destruct g; reflexivity.
  - intros _. cbn [type_to_go_type].
    destruct (if is_container (get_true_type k) then _ else _) as [g|];
      [|discriminate].
    destruct (type_to_go_type v); [|discriminate].
    intros [= <-]. destruct g; reflexivity.
Qed.

Lemma nilable_go_type_witness :
  type_to_go_type
    (get_true_type (t_typedef None "Names" (t_list (t_base_type TYPE_STRING false))))
  = Some "[]string"
  /\ String.prefix "*" "[]string" || String.prefix "[]" "[]string"
     || String.prefix "map[" "[]string" = true.
Proof.
  split; [reflexivity|].
  apply (nilable_go_type
           (t_typedef None "Names" (t_list (t_base_type TYPE_STRING false))));
    reflexivity.
Defined.

(** X24. A type of another program is written as the package name of that
    program, a dot, and the public form of the name of the type: the package
    name is the one [init_generator] leaves when it generates that program,
    and the public form is the name under which that program declares the
    type. A struct has a star in front. *)
Theorem foreign_type_reference (module out_dir name : string) :
  name <> "" ->
  Str.contains "." name = false ->
  exists st declared,
    init_generator module out_dir = Some st
    /\ publicize name = Some declared
    /\ type_to_go_type (t_enum_ref (Some module) name)
       = Some (ps_package_name st ++ "." ++ declared)
    /\ (forall is_xception,
           type_to_go_type (t_struct_ref (Some module) name is_xception)
           = Some ("*" ++ ps_package_name st ++ "." ++ declared))
    /\ (forall type,
           type_to_go_type (t_typedef (Some module) name type)
           = Some (ps_package_name st ++ "." ++ declared)).
Proof.
  intros Hne Hd. destruct name as [|c rest]; [congruence|].
  destruct (package_loop_spec (S (Str.size module)) module (Nat.lt_succ_diag_r _)
              (S (S (Str.size module))) out_dir [] ltac:(lia))
    as [st [Hst [Hname _]]].
  exists st, (String (toupper c) (collapse islower rest)).
  split; [exact Hst|]. split; [now apply publicize_segment|].
  pose proof (type_name_qualifier_final module) as Hq.
  unfold type_name_qualifier in Hq.
  pose proof (publicize_qualified (ps_package_name st) c rest Hd) as Hp.
  repeat split; intros; cbn [type_to_go_type type_name];
    rewrite Hq, <- Hname; cbn [String.append]; now rewrite Hp.
Qed.

Lemma foreign_type_reference_witness :
  exists st declared,
    init_generator "shared.types" "gen-go" = Some st
    /\ publicize "user_id" = Some declared
    /\ type_to_go_type (t_enum_ref (Some "shared.types") "user_id")
       = Some (ps_package_name st ++ "." ++ declared)
    /\ (forall is_xception,
           type_to_go_type (t_struct_ref (Some "shared.types") "user_id" is_xception)
           = Some ("*" ++ ps_package_name st ++ "." ++ declared))
    /\ (forall type,
           type_to_go_type (t_typedef (Some "shared.types") "user_id" type)
           = Some (ps_package_name st ++ "." ++ declared)).
Proof.
  apply (foreign_type_reference "shared.types" "gen-go" "user_id");
    [discriminate | reflexivity].
Defined.

(** X25. For a field whose type is a container, the reading code makes a
    container of the very Go type that [type_to_go_type] gives for the
    field in the declaration of the struct. *)
Theorem reader_allocates_declared_type (type : t_type) (tfield_name : string)
    (declare : bool) (prefix : string) (counter counter' : nat)
    (code : read_code) (go_type : string) :
  is_container type = true ->
  type_to_go_type type = Some go_type ->
  generate_deserialize_field type tfield_name declare prefix counter
  = Some (code, counter') ->
  allocated_type code = Some go_type.
Proof.
  unfold generate_deserialize_field.
  destruct type as [| | | |e|e|k v]; try discriminate; intros _ Hgo H;
    cbn [deserialize_field] in H;
    (destruct (publicize (variable_name_to_go_name tfield_name)) as [g|];
     [|discriminate]).
  - rewrite Hgo in H. cbn [tmp] in H.
    destruct (deserialize_field e e _ true "" (S counter)) as [[ec c1]|];
      [|discriminate].
    now injection H as <- _.
  - cbn [type_to_go_type] in Hgo.
    destruct (is_container (get_true_type e)); [discriminate|].
    destruct (type_to_go_type e) as [et|]; [|discriminate]. cbn [tmp] in H.
    destruct (deserialize_field e e _ true "" (S counter)) as [[ec c1]|];
      [|discriminate].
    injection H as <- _. injection Hgo as <-. reflexivity.
  - cbn [type_to_go_type] in Hgo.
    destruct (is_container (get_true_type k)); [discriminate|].
    destruct (type_to_go_type k) as [kt|]; [|discriminate].
    destruct (type_to_go_type v) as [vt|]; [|discriminate]. cbn [tmp] in H.
    destruct (deserialize_field k k _ true "" (S (S counter))) as [[kc c1]|];
      [|discriminate].
    destruct (deserialize_field v v _ true "" c1) as [[vc c2]|]; [|discriminate].
    injection H as <- _. injection Hgo as <-. reflexivity.
Qed.

Lemma reader_allocates_declared_type_witness :
  exists code,
    generate_deserialize_field
      (t_map (t_base_type TYPE_STRING false) (t_list (t_enum_ref None "Color")))
      "tags" false "p." 0 = Some (code, 3)
    /\ allocated_type code = Some "map[string][]Color".
Proof.
  eexists. split; [vm_compute; reflexivity|].
  apply (reader_allocates_declared_type
           (t_map (t_base_type TYPE_STRING false)
                  (t_list (t_enum_ref None "Color"))) "tags" false "p." 0 3);
    [reflexivity | reflexivity | vm_compute; reflexivity].
Defined.

(** ** Exported names *)

Lemma reserved_dotless (s : string) :
  is_reserved s = true -> Str.contains "." s = false.
Proof.
  unfold is_reserved. intros H. apply existsb_exists in H as [w [Hw E]].
  apply String.eqb_eq in E. subst w. simpl in Hw.
  repeat (destruct Hw as [<- | Hw]; [reflexivity|]). destruct Hw.
Qed.

Lemma isupper_toupper_alpha (c : ascii) :
  isalpha c = true -> isupper (toupper c) = true.
Proof. destruct c as [[] [] [] [] [] [] [] []]; vm_compute; congruence. Qed.

Lemma isupper_toupper_tolower_alpha (c : ascii) :
  isalpha c = true -> isupper (toupper (tolower c)) = true.
Proof. destruct c as [[] [] [] [] [] [] [] []]; vm_compute; congruence. Qed.

(** X26. A field whose name begins with a letter and has no dot gets a Go
    name that begins with an upper-case letter, whether or not the name is a
    word of Go: the field is exported, as the protocol code and the users
    of the struct need it. *)
Theorem go_field_name_exported (c : ascii) (rest : string) :
  isalpha c = true ->
  Str.contains "." (String c rest) = false ->
  exists C r,
    publicize (variable_name_to_go_name (String c rest)) = Some (String C r)
    /\ isupper C = true.
Proof.
  intros Hc Hd. rewrite variable_name_to_go_name_cases.
  destruct (is_reserved (Str.transform_tolower (String c rest))) eqn:Er.
  - apply reserved_dotless in Er.
    cbn [Str.transform_tolower String.append] in *.
    eexists. eexists. split.
    + apply publicize_segment.
      change (String (tolower c) (Str.transform_tolower rest ++ "_a1"))
        with (String (tolower c) (Str.transform_tolower rest) ++ "_a1").
      rewrite contains_app, Er. reflexivity.
    + now apply isupper_toupper_tolower_alpha.
  - eexists. eexists. split; [now apply publicize_segment|].
    now apply isupper_toupper_alpha.
Qed.

Lemma go_field_name_exported_witness :
  exists C r,
    publicize (variable_name_to_go_name "type") = Some (String C r)
    /\ isupper C = true.
Proof.
  apply (go_field_name_exported "t" "ype"); reflexivity.
Defined.

(** ** The methods of one struct *)

Lemma sorted_keys_NoDup (keys : list Z) : StronglySorted Z.lt keys -> NoDup keys.
Proof.
  induction 1 as [|k keys _ IH Hall]; constructor; [|exact IH].
  intros Hin. rewrite Forall_forall in Hall. specialize (Hall _ Hin). lia.
Qed.

Lemma field_methods_NoDup (field_method_prefix : string) (fields : list t_field) :
  NoDup (map field_get_key fields) ->
  (forall f, In f fields -> is_int32 (field_get_key f)) ->
  NoDup (map (fun f => field_method field_method_prefix (field_get_key f)) fields).
Proof.
  intros Hnd Hint.
  rewrite <- (map_map field_get_key (field_method field_method_prefix)).
  apply NoDup_map_NoDup_ForallPairs; [|exact Hnd].
  intros k k' Hk Hk' E.
  apply in_map_iff in Hk as [f [<- Hf]]. apply in_map_iff in Hk' as [f' [<- Hf']].
  destruct (Z.eq_dec (field_get_key f) (field_get_key f')) as [|Hne]; [assumption|].
  exfalso. exact (field_method_differs _ _ _ (Hint _ Hf) (Hint _ Hf') Hne E).
Qed.

Lemma field_writer_methods (fields : list t_field) (ws : list field_writer) :
  Forall2 (fun f fw => field_writer_head f = Some fw) fields ws ->
  map fw_method ws
  = map (fun f => field_method "writeField" (field_get_key f)) fields.
Proof.
  induction 1 as [|f fw fs ws Hf _ IH]; [reflexivity|].
  cbn [map]. rewrite IH. f_equal.
  unfold field_writer_head in Hf.
  destruct (can_be_nil (field_get_type f)); [|discriminate].
  destruct (publicize (variable_name_to_go_name (field_get_name f)));
    [|discriminate].
  destruct (type_to_enum (field_get_type f)); [|discriminate].
  destruct (generate_serialize_field _ _ _); [|discriminate].
  now injection Hf as <-.
Qed.

Lemma reader_case_methods (fields : list t_field) (cases : list read_case) :
  Forall2 (fun f c => reader_case f = Some c) fields cases ->
  map rc_method cases
  = map (fun f => field_method "readField" (field_get_key f)) fields.
Proof.
  induction 1 as [|f c fs cs Hf _ IH]; [reflexivity|].
  cbn [map]. rewrite IH. f_equal.
  unfold reader_case in Hf.
  destruct (type_to_enum (field_get_type f)); [|discriminate].
  now injection Hf as <-.
Qed.

(** X27. A struct with 32-bit keys never gets two per-field writers of the
    same name, nor two per-field readers of the same name: the sorted view
    has strictly ascending keys, and different keys give different method
    names. *)
Theorem struct_methods_distinct (tstruct : t_struct) :
  struct_inv tstruct ->
  (forall f, In f (struct_get_sorted_members tstruct) ->
             is_int32 (field_get_key f)) ->
  (forall is_result w,
      generate_go_struct_writer tstruct is_result = Some w ->
      NoDup (map fw_method (gw_field_writers w)))
  /\ (forall cases,
         reader_cases tstruct = Some cases ->
         NoDup (map rc_method cases)).
Proof.
  intros [Hsorted Hperm] Hint.
  pose proof (sorted_keys_NoDup _ Hsorted) as Hnd. split.
  - intros is_result w Hw.
    apply struct_writer_field_writers, mapM_Forall2 in Hw.
    rewrite (field_writer_methods _ _ Hw). now apply field_methods_NoDup.
  - intros cases Hc. apply mapM_Forall2 in Hc.
    rewrite (reader_case_methods _ _ Hc). apply field_methods_NoDup.
    + apply (Permutation_NoDup (l := map field_get_key
                                       (struct_get_sorted_members tstruct)));
        [|exact Hnd].
      apply Permutation_map, Permutation_sym, Hperm.
    + intros f Hf. apply Hint. exact (Permutation_in _ Hperm Hf).
Qed.

Lemma struct_methods_distinct_witness :
  (forall is_result w,
      generate_go_struct_writer Neg is_result = Some w ->
      NoDup (map fw_method (gw_field_writers w)))
  /\ (forall cases,
         reader_cases Neg = Some cases ->
         NoDup (map rc_method cases)).
Proof.
  apply (struct_methods_distinct Neg Neg_inv).
  intros f [<- | [<- | []]]; unfold is_int32; cbn; lia.
Defined.

(** X28. Without [addError], which is what the parameter defaults to and
    no caller leaves it at, [function_signature_if] puts nothing between a
    return type that is not void and the first declared exception. *)
Theorem function_signature_if_without_error (tfunction : t_function)
    (prefix signature : string) :
  is_void (fn_get_returntype tfunction) = false ->
  struct_get_members (fn_get_xceptions tfunction) <> [] ->
  function_signature_if tfunction prefix false = Some signature ->
  exists name arguments go_type errs,
    publicize (prefix ++ fn_get_name tfunction) = Some name
    /\ mapM argument (struct_get_members (fn_get_arglist tfunction))
       = Some arguments
    /\ type_to_go_type (fn_get_returntype tfunction) = Some go_type
    /\ mapM argument (struct_get_members (fn_get_xceptions tfunction))
       = Some errs
    /\ signature
       = name ++ "(" ++ String.concat ", " arguments ++ ") ("
         ++ "r " ++ go_type ++ String.concat ", " errs ++ ")".
Proof.
  intros Hvoid Hx. unfold function_signature_if. rewrite !argument_list_concat.
  destruct (publicize (prefix ++ fn_get_name tfunction)) as [name|];
    [|discriminate].
  destruct (mapM argument (struct_get_members (fn_get_arglist tfunction)))
    as [arguments|]; [|discriminate].
  destruct (mapM argument (struct_get_members (fn_get_xceptions tfunction)))
    as [errs|] eqn:Eerrs; [|discriminate].
  rewrite Hvoid. cbn [negb orb].
  destruct (type_to_go_type (fn_get_returntype tfunction)) as [go_type|];
    [|discriminate].
  apply mapM_Forall2 in Eerrs.
  destruct Eerrs as [|x d xs ds Hd Hrest]; [congruence|].
  pose proof (concat_nonempty d ds (argument_nonempty _ _ Hd)) as Hz.
  rewrite Hz.
  assert (Hlt : Nat.ltb 0 (Str.size (String.concat ", " (d :: ds))) = true).
  { apply Nat.eqb_neq in Hz. apply Nat.ltb_lt. lia. }
  rewrite Hlt. intros [= <-].
  exists name, arguments, go_type, (d :: ds).
  split; [reflexivity|]. split; [reflexivity|]. split; [reflexivity|].
  split; [reflexivity|]. now rewrite !app_assoc_str.
Qed.

Lemma function_signature_if_without_error_witness :
  exists signature,
    function_signature_if lookup "" false = Some signature
    /\ signature = "Lookup(key string) (r int32nf *NotFound)"
    /\ exists name arguments go_type errs,
         publicize ("" ++ fn_get_name lookup) = Some name
         /\ mapM argument (struct_get_members (fn_get_arglist lookup))
            = Some arguments
         /\ type_to_go_type (fn_get_returntype lookup) = Some go_type
         /\ mapM argument (struct_get_members (fn_get_xceptions lookup))
            = Some errs
         /\ signature
            = name ++ "(" ++ String.concat ", " arguments ++ ") ("
              ++ "r " ++ go_type ++ String.concat ", " errs ++ ")".
Proof.
  eexists. split; [vm_compute; reflexivity|]. split; [reflexivity|].
  apply (function_signature_if_without_error lookup "");
    [reflexivity | discriminate | vm_compute; reflexivity].
Defined.
